(** * The Goofy test-session controller (cros.factory.Goofy)

    A shallow embedding of the browser-side controller of the factory test
    UI: the test tree and its states, the per-run invocations with their
    iframes, the WebSocket event dispatcher, the shutdown countdown, the
    engineering-mode password prompt and the context menu.

    Conventions of the embedding.
    - JavaScript objects used as dictionaries are finite maps over their own
      properties ([gmap string _]); keys inherited from [Object.prototype]
      are outside the model.
    - [null] and [undefined] are [None]; a truthiness test on a string is
      [truthy].
    - JavaScript numbers are IEEE 754 doubles: the binary64 of [SpecFloat],
      every operation rounded to nearest even, with its infinities, signed
      zeros and NaN.
    - Objects that are shared by reference live in a store: invocations,
      iframes and dialogs are addressed by allocation number (their index in
      an append-only list), test-list entries by the number of the test
      list they came with and their position in it.
    - Calls into the Closure Library and the browser are modelled by their
      documented effect on the part of the page the controller reads back
      (class lists, dialogs, the frames under #goofy-main, messages handed
      to the socket).  The debug logger [cros.factory.logger] is not
      modelled.
    - A handler that raises stops there: what it had changed stays changed,
      and the rest of it is not run.
    - The code of a test runs inside its iframe.  What it does to the
      controller it does through the Test API it finds in [window.test];
      each such call is an input of its own, also when the code makes it
      while the controller evaluates it. *)

From Stdlib Require Import ZArith SpecFloat.
From Stdlib Require Import Ascii String.
From stdpp Require Import gmap strings list fin_maps.

Set Warnings "-register-all".
Open Scope string_scope.
Open Scope list_scope.

(** ** JavaScript values *)

Module Js.

(** Truthiness of a [?string]: null, undefined and the empty string are
    falsy. *)
Definition truthy (o : option string) : bool :=
  match o with
  | Some s => negb (String.eqb s "")
  | None => false
  end.

(** [a != b] on two [?string] values. *)
Definition neq (a b : option string) : bool :=
  negb (bool_decide (a = b)).

(** [String.prototype.toLowerCase], on the ASCII letters. *)
Definition lower_ascii (c : ascii) : ascii :=
  let n := Ascii.nat_of_ascii c in
  if (65 <=? n)%nat && (n <=? 90)%nat then Ascii.ascii_of_nat (n + 32) else c.

Fixpoint toLowerCase (s : string) : string :=
  match s with
  | EmptyString => EmptyString
  | String c r => String (lower_ascii c) (toLowerCase r)
  end.

(** [goog.string.startsWith(str, prefix)]. *)
Definition startsWith (str pre : string) : bool := String.prefix pre str.

(** Values carried by outbound events. *)
Inductive value :=
| Null
| Str (s : string)
| Arr (l : list string).

#[global] Instance value_eq_dec : EqDecision value.
Proof. solve_decision. Defined.

(** Numbers: IEEE 754 doubles, that is [SpecFloat]'s floating-point numbers
    with a mantissa of 53 bits and the exponent 1024 for the infinities. *)
Definition number := spec_float.

Definition prec : Z := 53.
Definition emax : Z := 1024.

(** The double nearest to an integer (the integer itself below 2^53). *)
Definition of_Z (n : Z) : number := binary_normalize prec emax n 0 false.

(** [x + y], [x - y], [x * y] and [x / y]. *)
Definition add (x y : number) : number := SFadd prec emax x y.
Definition sub (x y : number) : number := SFsub prec emax x y.
Definition mul (x y : number) : number := SFmul prec emax x y.
Definition div (x y : number) : number := SFdiv prec emax x y.

(** [x == y] on two numbers. *)
Definition eqb (x y : number) : bool := SFeqb x y.

(** [!x] on a number: zero and NaN are falsy. *)
Definition falsy (x : number) : bool :=
  match x with
  | S754_zero _ | S754_nan => true
  | _ => false
  end.

(** [Math.max(a, b)] and [Math.min(a, b)]: NaN when either is NaN, and [+0]
    counts as larger than [-0]. *)
Definition max (a b : number) : number :=
  match SFcompare a b with
  | None => S754_nan
  | Some Lt => b
  | Some Gt => a
  | Some Eq => match a with S754_zero true => b | _ => a end
  end.

Definition min (a b : number) : number :=
  match SFcompare a b with
  | None => S754_nan
  | Some Lt => a
  | Some Gt => b
  | Some Eq => match a with S754_zero false => b | _ => a end
  end.

(** [goog.math.clamp(value, min, max)] is
    [Math.min(Math.max(value, min), max)]. *)
Definition clamp (v lo hi : number) : number := min (max v lo) hi.

(** [Math.floor(x)].  A double with a non-negative exponent is an integer;
    otherwise the mantissa is shifted, which rounds towards minus infinity,
    and the result has at most as many bits as the mantissa. *)
Definition floor (x : number) : number :=
  match x with
  | S754_finite s m e =>
      if (0 <=? e)%Z then x
      else binary_normalize prec emax
             (Z.shiftr (cond_Zopp s (Z.pos m)) (- e)) 0 s
  | _ => x
  end.

End Js.

(** ** goog.dom.classes

    The class list of an element, as [goog.dom.classes.get] returns it. *)

Module Classes.

Definition contains (classes : list string) (c : string) : bool :=
  bool_decide (c ∈ classes).

(** [goog.dom.classes.add(elt, c)]: appended unless already there. *)
Definition add (classes : list string) (c : string) : list string :=
  if contains classes c then classes else classes ++ [c].

(** [goog.dom.classes.addRemove(elt, classesToRemove, classToAdd)]: every
    class listed in [classesToRemove] is taken out, then [classToAdd] is
    appended unless it is still there. *)
Definition addRemove (classes toRemove : list string) (toAdd : string)
  : list string :=
  add (filter (λ c, c ∉ toRemove) classes) toAdd.

(** [goog.dom.classes.enable(elt, c, enabled)]. *)
Definition enable (classes : list string) (c : string) (enabled : bool)
  : list string :=
  if enabled then add classes c else filter (λ x, x ≠ c) classes.

End Classes.

(** ** Data model *)

(** The TestState object of the backend (the fields the UI reads). *)
Record TestState := {
  status : string;
  error_msg : option string;
  count : Z
}.

(** [cros.factory.TestListEntry]; [state] is absent until [setTestState]
    assigns it. *)
Inductive TestListEntry := mkTestListEntry {
  path : string;
  label_en : string;
  label_zh : option string;
  kbd_shortcut : option string;
  subtests : list TestListEntry;
  state : option TestState
}.

(** [cros.factory.PendingShutdownEvent]. *)
Record PendingShutdownEvent := {
  delay_secs : Js.number;
  time : option Js.number;
  operation : string;
  iteration : Z;
  iterations : Z
}.

(** An outbound event: the dictionary handed to [goog.json.serialize]. *)
Abbreviation Event := (gmap string Js.value).

(** Messages of the backend, by their [type]. *)
Inductive Message :=
| Hello (uuid : string)
| Log (message : string)
| StateChange (path : string) (state : TestState)
| SetHtml (test invocation : string) (append : bool) (html : string)
| RunJs (test invocation : string) (args js : string)
| CallJsFunction (test invocation : string) (name args : string)
| DestroyTest (invocation : string)
| SystemInfo (system_info : gmap string string)
| PendingShutdown (info : PendingShutdownEvent)
| Other (type : string).

(** What the controller asked an iframe's window to do: [Eval js args] is
    [contentWindow.eval] of the script with [__goofy_args] set to the
    arguments; [Apply name args] is [contentWindow.eval(name)] and, when that
    yields a function, its application to the arguments. *)
Inductive SandboxCall :=
| Eval (js args : string)
| Apply (name args : string).

(** The iframe of an invocation, as the controller drives it: [body] is the
    html it has written into the document since it last emptied the body,
    [calls] what it has asked the window to do.  What the code so written
    or evaluated does inside the frame is not in the record. *)
Record IFrame := {
  body : list string;
  calls : list SandboxCall
}.

(** [cros.factory.Invocation]; [iframe] is the address of its frame, null
    once disposed. *)
Record Invocation := {
  inv_path : string;
  inv_uuid : string;
  iframe : option nat
}.

(** A node of the test tree ([goog.ui.tree.BaseNode]) with the class list of
    its element.  [reveals] and [collapses] count the calls of
    [node.reveal()] and [node.collapse()]; which nodes of the tree are
    expanded is not in the record ([reveal] expands the nodes above the
    node, not the node). *)
Record TreeNode := {
  classes : list string;
  childCount : nat;
  reveals : nat;
  collapses : nat
}.

(** What the countdown shows after a tick. *)
Record Countdown := {
  progress : Js.number;
  secondsLeft : Js.number;
  plural : string
}.

Inductive DialogKind := AlertDialog | PasswordPrompt | ShutdownDialog.

#[global] Instance DialogKind_eq_dec : EqDecision DialogKind.
Proof. solve_decision. Defined.

(** A [goog.ui.Dialog].  A shutdown dialog owns the timer that drives its
    countdown. *)
Record Dialog := {
  kind : DialogKind;
  content : string;
  info : option PendingShutdownEvent;
  visible : bool;
  disposed : bool;
  timer : bool;
  countdown : option Countdown
}.

(** [goog.net.WebSocket]: whether it is open, and what was sent (oldest
    first). *)
Record WebSocket := {
  isOpen : bool;
  sent : list Event
}.

(** The page around the controller. *)
Record Page := {
  frames : list IFrame;
  main : list nat;
  dialogs : list Dialog;
  bodyClasses : list string;
  consoleLines : list string;
  timeouts : list string;
  reloads : nat
}.

(** The controller object.  [tests] is the store of the test-list entries:
    the test lists received, in order.  [heap] is the store of the
    invocation objects. *)
Record Goofy := {
  ws : WebSocket;
  uuid : option string;
  contextMenuVisible : bool;
  tests : list TestListEntry;
  pathNodeMap : gmap string TreeNode;
  pathTestMap : gmap string (nat * list nat);
  infoTooltip : list (string * option string);
  invocations : gmap string (option nat);
  heap : list Invocation;
  engineeringModeDialog : option nat;
  shutdownDialog : option nat;
  dialog : option nat;
  engineeringMode : bool;
  engineeringPasswordSHA1 : option string;
  page : Page
}.

(** Field updates. *)
Definition with_ws v g :=
  let 'Build_Goofy _ b c d e f h i j k l m n o p := g in
  Build_Goofy v b c d e f h i j k l m n o p.
Definition with_uuid v g :=
  let 'Build_Goofy a _ c d e f h i j k l m n o p := g in
  Build_Goofy a v c d e f h i j k l m n o p.
Definition with_contextMenuVisible v g :=
  let 'Build_Goofy a b _ d e f h i j k l m n o p := g in
  Build_Goofy a b v d e f h i j k l m n o p.
Definition with_tests v g :=
  let 'Build_Goofy a b c _ e f h i j k l m n o p := g in
  Build_Goofy a b c v e f h i j k l m n o p.
Definition with_pathNodeMap v g :=
  let 'Build_Goofy a b c d _ f h i j k l m n o p := g in
  Build_Goofy a b c d v f h i j k l m n o p.
Definition with_pathTestMap v g :=
  let 'Build_Goofy a b c d e _ h i j k l m n o p := g in
  Build_Goofy a b c d e v h i j k l m n o p.
Definition with_infoTooltip v g :=
  let 'Build_Goofy a b c d e f _ i j k l m n o p := g in
  Build_Goofy a b c d e f v i j k l m n o p.
Definition with_invocations v g :=
  let 'Build_Goofy a b c d e f h _ j k l m n o p := g in
  Build_Goofy a b c d e f h v j k l m n o p.
Definition with_heap v g :=
  let 'Build_Goofy a b c d e f h i _ k l m n o p := g in
  Build_Goofy a b c d e f h i v k l m n o p.
Definition with_engineeringModeDialog v g :=
  let 'Build_Goofy a b c d e f h i j _ l m n o p := g in
  Build_Goofy a b c d e f h i j v l m n o p.
Definition with_shutdownDialog v g :=
  let 'Build_Goofy a b c d e f h i j k _ m n o p := g in
  Build_Goofy a b c d e f h i j k v m n o p.
Definition with_dialog v g :=
  let 'Build_Goofy a b c d e f h i j k l _ n o p := g in
  Build_Goofy a b c d e f h i j k l v n o p.
Definition with_engineeringMode v g :=
  let 'Build_Goofy a b c d e f h i j k l m _ o p := g in
  Build_Goofy a b c d e f h i j k l m v o p.
Definition with_engineeringPasswordSHA1 v g :=
  let 'Build_Goofy a b c d e f h i j k l m n _ p := g in
  Build_Goofy a b c d e f h i j k l m n v p.
Definition with_page v g :=
  let 'Build_Goofy a b c d e f h i j k l m n o _ := g in
  Build_Goofy a b c d e f h i j k l m n o v.

Definition with_frames v p :=
  let 'Build_Page _ b c d e f h := p in Build_Page v b c d e f h.
Definition with_main v p :=
  let 'Build_Page a _ c d e f h := p in Build_Page a v c d e f h.
Definition with_dialogs v p :=
  let 'Build_Page a b _ d e f h := p in Build_Page a b v d e f h.
Definition with_bodyClasses v p :=
  let 'Build_Page a b c _ e f h := p in Build_Page a b c v e f h.
Definition with_consoleLines v p :=
  let 'Build_Page a b c d _ f h := p in Build_Page a b c d v f h.
Definition with_timeouts v p :=
  let 'Build_Page a b c d e _ h := p in Build_Page a b c d e v h.
Definition with_reloads v p :=
  let 'Build_Page a b c d e f _ := p in Build_Page a b c d e f v.

(** ** Transport *)

(** [goog.net.WebSocket.prototype.send]: the message goes out on an open
    socket; on a socket that is not open the call raises ([None]) and
    nothing is sent. *)
Definition send (message : Event) (w : WebSocket) : option WebSocket :=
  if isOpen w then Some {| isOpen := isOpen w; sent := sent w ++ [message] |}
  else None.

(** [sendEvent(type, properties)]: a clone of [properties] (nothing to clone
    when they are omitted) with its [type] set goes to the socket.  The
    result is the controller as the call leaves it, whether it returns or
    raises; it raises exactly when the socket is not open, and a caller
    that goes on after the call says so. *)
Definition sendEvent (type : string) (properties : option Event) (g : Goofy)
  : Goofy :=
  let dict := <["type" := Js.Str type]> (default ∅ properties) in
  match send dict (ws g) with
  | Some w => with_ws w g
  | None => g
  end.

Definition of_string (o : option string) : Js.value :=
  match o with
  | Some s => Js.Str s
  | None => Js.Null
  end.

(** [keepAlive()]: a keepalive event, if the socket is open. *)
Definition keepAlive (g : Goofy) : Goofy :=
  if isOpen (ws g) then
    sendEvent "goofy:keepalive" (Some {[ "uuid" := of_string (uuid g) ]}) g
  else g.

(** ** Invocations *)

(** [new cros.factory.Invocation(goofy, path, uuid)]: a blank iframe is
    created and appended to #goofy-main. The new object's address is the
    second component. *)
Definition newInvocation (path uuid : string) (g : Goofy) : Goofy * nat :=
  let f := length (frames (page g)) in
  let a := length (heap g) in
  let p := with_main (main (page g) ++ [f])
             (with_frames (frames (page g) ++ [{| body := []; calls := [] |}])
                (page g)) in
  let inv := {| inv_path := path; inv_uuid := uuid; iframe := Some f |} in
  (with_heap (heap g ++ [inv]) (with_page p g), a).

(** [Invocation.prototype.dispose] on the object at address [a]. *)
Definition dispose (a : nat) (g : Goofy) : Goofy :=
  match heap g !! a with
  | Some inv =>
      match iframe inv with
      | Some f =>
          let p := with_main (filter (λ x, x ≠ f) (main (page g))) (page g) in
          let inv' := {| inv_path := inv_path inv; inv_uuid := inv_uuid inv;
                         iframe := None |} in
          with_heap (<[a := inv']> (heap g))
            (with_invocations (<[inv_uuid inv := None]> (invocations g))
               (with_page p g))
      | None => g
      end
  | None => g
  end.

(** [getOrCreateInvocation(path, invocationUuid)]: the invocation, or null
    if it has already been created and deleted. *)
Definition getOrCreateInvocation (path invocationUuid : string) (g : Goofy)
  : Goofy * option nat :=
  match invocations g !! invocationUuid with
  | None =>
      let '(g1, a) := newInvocation path invocationUuid g in
      (with_invocations (<[invocationUuid := Some a]> (invocations g1)) g1,
       Some a)
  | Some r => (g, r)
  end.

(** The API of [cros.factory.Test] bound to the invocation at address [a].
    [pass] and [fail] send their event and then dispose of the invocation;
    when the socket is not open [sendEvent] raises and [dispose()] is not
    reached. *)
Definition Test_pass (a : nat) (g : Goofy) : Goofy :=
  match heap g !! a with
  | Some inv =>
      let g1 :=
        sendEvent "goofy:end_test"
          (Some {[ "status" := Js.Str "PASSED";
                   "invocation" := Js.Str (inv_uuid inv);
                   "test" := Js.Str (inv_path inv) ]}) g in
      if isOpen (ws g) then dispose a g1 else g1
  | None => g
  end.

Definition Test_fail (a : nat) (errorMsg : string) (g : Goofy) : Goofy :=
  match heap g !! a with
  | Some inv =>
      let g1 :=
        sendEvent "goofy:end_test"
          (Some {[ "status" := Js.Str "FAILED";
                   "error_msg" := Js.Str errorMsg;
                   "invocation" := Js.Str (inv_uuid inv);
                   "test" := Js.Str (inv_path inv) ]}) g in
      if isOpen (ws g) then dispose a g1 else g1
  | None => g
  end.

Definition Test_sendTestEvent (a : nat) (subtype data : string) (g : Goofy)
  : Goofy :=
  match heap g !! a with
  | Some inv =>
      sendEvent "goofy:test_ui_event"
        (Some {[ "test" := Js.Str (inv_path inv);
                 "invocation" := Js.Str (inv_uuid inv);
                 "subtype" := Js.Str subtype;
                 "data" := Js.Str data ]}) g
  | None => g
  end.

(** Writing into the document of the frame at address [f]. *)
Definition with_frame (f : nat) (upd : IFrame → IFrame) (g : Goofy) : Goofy :=
  with_page (with_frames (alter upd f (frames (page g))) (page g)) g.

Definition write (append : bool) (html : string) (fr : IFrame) : IFrame :=
  {| body := (if append then body fr else []) ++ [html]; calls := calls fr |}.

Definition call (c : SandboxCall) (fr : IFrame) : IFrame :=
  {| body := body fr; calls := calls fr ++ [c] |}.

(** The frame of the invocation at address [a], if it still has one. *)
Definition frame_of (a : nat) (g : Goofy) : option nat :=
  inv ← heap g !! a; iframe inv.

(** ** Dialogs *)

(** [dialog.setVisible(false)]: a visible dialog is hidden and its HIDE
    listeners run; the one listener the controller installs disposes of
    the countdown timer. *)
Definition hide (d : Dialog) : Dialog :=
  if visible d then
    {| kind := kind d; content := content d; info := info d;
       visible := false; disposed := disposed d; timer := false;
       countdown := countdown d |}
  else d.

(** [dialog.dispose()]. *)
Definition disposeDialog (d : Dialog) : Dialog :=
  {| kind := kind d; content := content d; info := info d;
     visible := false; disposed := true; timer := timer d;
     countdown := countdown d |}.

Definition with_dialog_at (i : nat) (upd : Dialog → Dialog) (g : Goofy)
  : Goofy :=
  with_page (with_dialogs (alter upd i (dialogs (page g))) (page g)) g.

(** A new dialog made visible; its address is the second component. *)
Definition openDialog (d : Dialog) (g : Goofy) : Goofy * nat :=
  (with_page (with_dialogs (dialogs (page g) ++ [d]) (page g)) g,
   length (dialogs (page g))).

(** [alert(messageHtml)]. *)
Definition alert (messageHtml : string) (g : Goofy) : Goofy :=
  fst (openDialog {| kind := AlertDialog; content := messageHtml;
                     info := None; visible := true; disposed := false;
                     timer := false; countdown := None |} g).

(** The alerts shown so far, oldest first. *)
Definition alerts (g : Goofy) : list string :=
  content <$> filter (λ d, kind d = AlertDialog) (dialogs (page g)).

(** [closeDialog()]. *)
Definition closeDialog (g : Goofy) : Goofy :=
  match dialog g with
  | Some i => with_dialog (None : option nat)
                (with_dialog_at i (λ d, disposeDialog (hide d)) g)
  | None => g
  end.

(** ** goog.crypt.Sha1

    SHA-1 (FIPS 180) over the character codes of the text, and
    [goog.crypt.byteArrayToHex]. *)

Module Sha1.

Local Open Scope N_scope.

(** Words are 32-bit: every sum and rotation is cut back to 32 bits. *)
Definition mask32 (x : N) : N := N.land x 0xffffffff.

Definition rotl (n x : N) : N :=
  mask32 (N.lor (N.shiftl x n) (N.shiftr x (32 - n))).

Definition add32 (x y : N) : N := mask32 (x + y).

Fixpoint bytes_of (s : string) : list N :=
  match s with
  | EmptyString => []
  | String c r => N_of_ascii c :: bytes_of r
  end.

(** The message followed by 0x80, zeros up to 56 modulo 64, and the length
    in bits as eight big-endian bytes. *)
Definition pad (msg : list N) : list N :=
  let len := N.of_nat (length msg) in
  let zeros := N.to_nat ((119 - len mod 64) mod 64) in
  let bits := len * 8 in
  msg ++ [0x80] ++ repeat 0 zeros
      ++ map (λ i, N.land (N.shiftr bits (8 * i)) 0xff)
           [7; 6; 5; 4; 3; 2; 1; 0].

Fixpoint words (fuel : nat) (bytes : list N) : list N :=
  match fuel, bytes with
  | S k, a :: b :: c :: d :: r =>
      (N.shiftl a 24 + N.shiftl b 16 + N.shiftl c 8 + d) :: words k r
  | _, _ => []
  end.

Fixpoint chunks (fuel : nat) (ws : list N) : list (list N) :=
  match fuel, ws with
  | S k, _ :: _ => firstn 16 ws :: chunks k (skipn 16 ws)
  | _, _ => []
  end.

(** The message schedule: sixteen words extended to eighty. *)
Fixpoint schedule (n : nat) (w : list N) : list N :=
  match n with
  | O => w
  | S k =>
      let i := length w in
      let at_ j := nth (i - j) w 0 in
      schedule k
        (w ++ [rotl 1 (N.lxor (N.lxor (at_ 3%nat) (at_ 8%nat))
                              (N.lxor (at_ 14%nat) (at_ 16%nat)))])
  end.

Definition round (t : nat) (wt : N) (h : N * N * N * N * N)
  : N * N * N * N * N :=
  let '(a, b, c, d, e) := h in
  let '(f, k) :=
    if Nat.ltb t 20 then
      (N.lor (N.land b c) (N.land (N.lxor b 0xffffffff) d), 0x5a827999)
    else if Nat.ltb t 40 then
      (N.lxor (N.lxor b c) d, 0x6ed9eba1)
    else if Nat.ltb t 60 then
      (N.lor (N.lor (N.land b c) (N.land b d)) (N.land c d), 0x8f1bbcdc)
    else
      (N.lxor (N.lxor b c) d, 0xca62c1d6) in
  let temp := add32 (add32 (add32 (add32 (rotl 5 a) f) e) k) wt in
  (temp, a, rotl 30 b, c, d).

Fixpoint rounds (t : nat) (w : list N) (h : N * N * N * N * N)
  : N * N * N * N * N :=
  match w with
  | [] => h
  | wt :: r => rounds (S t) r (round t wt h)
  end.

Definition compress (h : N * N * N * N * N) (chunk : list N)
  : N * N * N * N * N :=
  let '(a, b, c, d, e) := h in
  let '(a', b', c', d', e') := rounds 0 (schedule 64 chunk) h in
  (add32 a a', add32 b b', add32 c c', add32 d d', add32 e e').

Definition digest (s : string) : list N :=
  let p := pad (bytes_of s) in
  let ws := words (length p) p in
  let '(a, b, c, d, e) :=
    fold_left compress (chunks (length ws) ws)
      (0x67452301, 0xefcdab89, 0x98badcfe, 0x10325476, 0xc3d2e1f0) in
  flat_map (λ w, map (λ i, N.land (N.shiftr w (8 * i)) 0xff) [3; 2; 1; 0])
    [a; b; c; d; e].

Definition hex_digit (n : N) : ascii :=
  ascii_of_N (if n <? 10 then 48 + n else 87 + n).

(** [goog.crypt.byteArrayToHex]. *)
Fixpoint byteArrayToHex (bytes : list N) : string :=
  match bytes with
  | [] => EmptyString
  | b :: r =>
      String (hex_digit (b / 16))
        (String (hex_digit (b mod 16)) (byteArrayToHex r))
  end.

(** The hexadecimal SHA-1 digest of a text. *)
Definition hex (s : string) : string := byteArrayToHex (digest s).

End Sha1.

(** ** Engineering mode *)

(** [setEngineeringMode(enabled)]. *)
Definition setEngineeringMode (enabled : bool) (g : Goofy) : Goofy :=
  with_page
    (with_bodyClasses
       (Classes.enable (bodyClasses (page g)) "goofy-engineering-mode" enabled)
       (page g))
    (with_engineeringMode enabled g).

(** [promptEngineeringPassword()]. *)
Definition promptEngineeringPassword (g : Goofy) : Goofy :=
  let g1 :=
    match engineeringModeDialog g with
    | Some i => with_engineeringModeDialog (None : option nat)
                  (with_dialog_at i (λ d, disposeDialog (hide d)) g)
    | None => g
    end in
  if negb (Js.truthy (engineeringPasswordSHA1 g1)) then
    alert "No password has been set." g1
  else if engineeringMode g1 then
    setEngineeringMode false g1
  else
    let '(g2, i) :=
      openDialog {| kind := PasswordPrompt; content := "Password";
                    info := None; visible := true; disposed := false;
                    timer := false; countdown := None |} g1 in
    with_engineeringModeDialog (Some i) g2.

(** The callback given to [goog.ui.Prompt], called with the text entered
    (null when the prompt is cancelled).  [sha1hex text] stands for
    [goog.crypt.byteArrayToHex] of the [goog.crypt.Sha1] digest of [text]. *)
Definition passwordEntered (sha1hex : string → string) (text : option string)
    (g : Goofy) : Goofy :=
  if negb (Js.truthy text) || bool_decide (text = Some "") then g
  else
    let digest := sha1hex (default "" text) in
    if bool_decide (Some digest = engineeringPasswordSHA1 g) then
      setEngineeringMode true g
    else
      alert "Incorrect password." g.

(** The reply to [get_shared_data('test_list_options')] handled in
    [init]. *)
Definition optionsReceived (engineering_password_sha1 : option string)
    (g : Goofy) : Goofy :=
  setEngineeringMode (bool_decide (engineering_password_sha1 = None))
    (with_engineeringPasswordSHA1 engineering_password_sha1 g).

(** ** Shutdown countdown *)

(** The body of [tick] at the instant [now] (seconds), for the pending
    shutdown with target [time] and [delay_secs]: [progress] is the value
    given to [progressBar.setValue], [secondsLeft] the number written into
    the dialog. *)
Definition tick (time delay_secs now : Js.number) : Countdown :=
  let startTime := Js.sub time delay_secs in
  let endTime := time in
  let fraction := Js.div (Js.sub now startTime) (Js.sub endTime startTime) in
  let secondsLeft :=
    Js.add (Js.of_Z 1)
      (Js.floor (Js.max (Js.of_Z 0) (Js.sub endTime now))) in
  {| progress :=
       Js.mul (Js.clamp fraction (Js.of_Z 0) (Js.of_Z 1)) (Js.of_Z 100);
     secondsLeft := secondsLeft;
     plural := if Js.eqb secondsLeft (Js.of_Z 1) then "" else "s" |}.

Definition show (c : Countdown) (d : Dialog) : Dialog :=
  {| kind := kind d; content := content d; info := info d;
     visible := visible d; disposed := disposed d; timer := timer d;
     countdown := Some c |}.

(** A TICK of the timer of the dialog at address [i]: nothing once the
    timer is disposed. *)
Definition timerTick (i : nat) (now : Js.number) (g : Goofy) : Goofy :=
  match dialogs (page g) !! i with
  | Some d =>
      match timer d, info d with
      | true, Some shutdownInfo =>
          match time shutdownInfo with
          | Some t =>
              with_dialog_at i (show (tick t (delay_secs shutdownInfo) now)) g
          | None => g
          end
      | _, _ => g
      end
  | None => g
  end.

(** [!shutdownInfo.time]: the time is absent, zero or NaN. *)
Definition no_time (shutdownInfo : PendingShutdownEvent) : bool :=
  match time shutdownInfo with
  | Some t => Js.falsy t
  | None => true
  end.

(** [setPendingShutdown(shutdownInfo)]. *)
Definition setPendingShutdown (shutdownInfo : option PendingShutdownEvent)
    (g : Goofy) : Goofy :=
  let g1 :=
    match shutdownDialog g with
    | Some i => with_shutdownDialog (None : option nat)
                  (with_dialog_at i (λ d, disposeDialog (hide d)) g)
    | None => g
    end in
  match shutdownInfo with
  | None => g1
  | Some si =>
      if no_time si then g1
      else
        let g2 := closeDialog g1 in
        let '(g3, i) :=
          openDialog {| kind := ShutdownDialog;
                        content := if String.eqb (operation si) "reboot"
                                   then "Rebooting" else "Shutting down";
                        info := Some si; visible := true; disposed := false;
                        timer := true; countdown := None |} g2 in
        with_shutdownDialog (Some i) g3
  end.

(** The Escape key inside the shutdown dialog. *)
Definition onKey_escape (g : Goofy) : Goofy :=
  sendEvent "goofy:cancel_shutdown" (Some ∅) g.

(** ** The test tree *)

(** [cros.factory.AUTO_COLLAPSE]. *)
Definition AUTO_COLLAPSE : bool := false.

Definition with_state (st : option TestState) (t : TestListEntry)
  : TestListEntry :=
  mkTestListEntry (path t) (label_en t) (label_zh t) (kbd_shortcut t)
    (subtests t) st.

Definition with_subtests (l : list TestListEntry) (t : TestListEntry)
  : TestListEntry :=
  mkTestListEntry (path t) (label_en t) (label_zh t) (kbd_shortcut t)
    l (state t).

(** The entry at a position of the test list: [[]] is the root, [i :: r] is
    position [r] below the [i]-th subtest. *)
Fixpoint entry_at (pos : list nat) (t : TestListEntry)
  : option TestListEntry :=
  match pos with
  | [] => Some t
  | i :: r => c ← subtests t !! i; entry_at r c
  end.

(** [test.state = state] for the entry at a position. *)
Fixpoint assign_state (pos : list nat) (st : TestState) (t : TestListEntry)
  : TestListEntry :=
  match pos with
  | [] => with_state (Some st) t
  | i :: r => with_subtests (alter (assign_state r st) i (subtests t)) t
  end.

(** [this.pathTestMap[path]], dereferenced. *)
Definition test_of (p : string) (g : Goofy) : option TestListEntry :=
  a ← pathTestMap g !! p; root ← tests g !! a.1; entry_at a.2 root.

(** [goog.array.forEach] over the subtests of an entry, with the index of
    each. *)
Definition forEachIndexed {A St : Type} (f : nat → A → St → St)
  : nat → list A → St → St :=
  fix each (i : nat) (l : list A) (s : St) : St :=
    match l with
    | [] => s
    | x :: r => each (S i) r (f i x s)
    end.

(** [this.pathTestMap[path].state]. *)
Definition stored_state (p : string) (g : Goofy) : option TestState :=
  test_of p g ≫= state.

(** [addToNode(parent, test)] for the entry at position [pos] of the test
    list number [r]: the subtests first, then the entry itself is entered
    into both maps. *)
Fixpoint addToNode (r : nat) (pos : list nat) (test : TestListEntry)
    (g : Goofy) : Goofy :=
  let g1 :=
    forEachIndexed (λ i subtest, addToNode r (pos ++ [i]) subtest)
      0%nat (subtests test) g in
  let node := {| classes := []; childCount := length (subtests test);
                 reveals := 0; collapses := 0 |} in
  with_pathTestMap (<[path test := (r, pos)]> (pathTestMap g1))
    (with_pathNodeMap (<[path test := node]> (pathNodeMap g1)) g1).

(** [setTestList(testList)], up to the request for the test states. *)
Definition setTestList (tl : TestListEntry) (g : Goofy) : Goofy :=
  addToNode (length (tests g)) [] tl (with_tests (tests g ++ [tl]) g).

(** [node.reveal()] and [node.collapse()], as far as the record goes: the
    call is counted. *)
Definition reveal (n : TreeNode) : TreeNode :=
  {| classes := classes n; childCount := childCount n;
     reveals := S (reveals n); collapses := collapses n |}.

Definition collapse (n : TreeNode) : TreeNode :=
  {| classes := classes n; childCount := childCount n;
     reveals := reveals n; collapses := S (collapses n) |}.

Definition with_classes (l : list string) (n : TreeNode) : TreeNode :=
  {| classes := l; childCount := childCount n;
     reveals := reveals n; collapses := collapses n |}.

(** The classes [setTestState] removes: those starting with
    "goofy-status-" (and non-empty). *)
Definition is_status_class (cls : string) : bool :=
  Js.startsWith cls "goofy-status-" && Js.truthy (Some cls).

(** [setTestState(path, state)].  The TypeError raised when the path has a
    node but no entry in [pathTestMap] happens before anything is changed. *)
Definition setTestState (p : string) (st : TestState) (g : Goofy) : Goofy :=
  match pathNodeMap g !! p with
  | None => g
  | Some node =>
      match pathTestMap g !! p with
      | None => g
      | Some (r, pos) =>
          let g1 :=
            with_tests (alter (assign_state pos st) r (tests g)) g in
          let elt :=
            Classes.addRemove (classes node)
              (filter (λ cls, is_status_class cls = true) (classes node))
              ("goofy-status-" +:+ Js.toLowerCase (status st)) in
          let node1 := with_classes elt node in
          let node2 :=
            if String.eqb (status st) "ACTIVE" then reveal node1 else node1 in
          let g2 := with_pathNodeMap (<[p := node2]> (pathNodeMap g1)) g1 in
          if negb (String.eqb (status st) "ACTIVE") && AUTO_COLLAPSE
             && negb (childCount node =? 0)%nat
          then with_page (with_timeouts (timeouts (page g2) ++ [p]) (page g2))
                 g2
          else g2
      end
  end.

(** The callback [setTestState] schedules when AUTO_COLLAPSE is set. *)
Definition collapseTimeout (p : string) (g : Goofy) : Goofy :=
  match stored_state p g with
  | Some st =>
      if String.eqb (status st) "ACTIVE" then g
      else with_pathNodeMap (alter collapse p (pathNodeMap g)) g
  | None => g
  end.

(** The reply to [get_test_states]: every path not starting with "_". *)
Definition testStatesReceived (stateMap : list (string * TestState))
    (g : Goofy) : Goofy :=
  foldl (λ g ps, if Js.startsWith ps.1 "_" then g
                 else setTestState ps.1 ps.2 g) g stateMap.

(** ** Context menu *)

(** The variables [countLeaves] updates. *)
Record Counts := {
  numLeaves : nat;
  numLeavesByStatus : gmap string nat;
  allPaths : list string
}.

(** [goog.array.forEach] with a callback that may raise. *)
Definition forEach {A St : Type} (f : A → St → option St)
  : list A → St → option St :=
  fix each (l : list A) (s : St) : option St :=
    match l with
    | [] => Some s
    | x :: r =>
        match f x s with
        | Some s' => each r s'
        | None => None
        end
    end.

(** [countLeaves(test)]; [None] is the TypeError on a leaf that has no state
    yet. *)
Fixpoint countLeaves (test : TestListEntry) (c : Counts) : option Counts :=
  let c0 := {| numLeaves := numLeaves c;
               numLeavesByStatus := numLeavesByStatus c;
               allPaths := allPaths c ++ [path test] |} in
  match forEach countLeaves (subtests test) c0 with
  | Some c1 =>
      if (length (subtests test) =? 0)%nat then
        match state test with
        | Some st =>
            Some {| numLeaves := S (numLeaves c1);
                    numLeavesByStatus :=
                      <[status st :=
                          (1 + default 0 (numLeavesByStatus c1 !! status st))%nat]>
                        (numLeavesByStatus c1);
                    allPaths := allPaths c1 |}
        | None => None
        end
      else Some c1
  | None => None
  end.

(** A menu item as [makeMenuItem] builds it: the words its label is made
    of, the count, whether it is enabled, and the arguments its handler
    gives to [sendEvent]. *)
Record MenuItem := {
  verbEn : string;
  adjectiveEn : string;
  itemCount : nat;
  adjectiveAtEnd : bool;
  enabled : bool;
  handler : string * option Event
}.

Inductive MenuChild :=
| Item (item : MenuItem)
| MenuSeparator.

(** [makeMenuItem(verbEn, _, adjectiveEn, _, count, test, handler,
    opt_adjectiveAtEnd)]. *)
Definition makeMenuItem (verbEn adjectiveEn : string) (count : nat)
    (handler : string * option Event) (opt_adjectiveAtEnd : bool) : MenuItem :=
  {| verbEn := verbEn; adjectiveEn := adjectiveEn; itemCount := count;
     adjectiveAtEnd := opt_adjectiveAtEnd;
     enabled := negb (count =? 0)%nat;
     handler := handler |}.

(** [numLeavesByStatus[s] || 0]. *)
Definition or0 (o : option nat) : nat := default 0%nat o.

(** The menu [showTestPopup(path, labelElement, extraItems)] renders for the
    entry [test] found at [path].  Before it renders the menu it reads
    [test.state.status] of the entry itself (for the item that would show
    the logs); [None] is the TypeError raised there, or in [countLeaves],
    when the state is missing. *)
Definition testMenu (p : string) (test : TestListEntry)
    (extraItems : list MenuItem) : option (list MenuChild) :=
  match countLeaves test
          {| numLeaves := 0; numLeavesByStatus := ∅; allPaths := [] |} with
  | None => None
  | Some c =>
      let n := numLeaves c in
      let by_status := numLeavesByStatus c in
      let restartOrRunEn :=
        (if bool_decide (by_status !! "UNTESTED" = Some n)
         then "Run" else "Restart")
        +:+ (if (1 <? n)%nat then " all" else "") in
      let extra : list MenuChild :=
        match extraItems with
        | [] => []
        | _ => ((Item <$> extraItems) ++ [MenuSeparator])%list
        end in
      let restartOrRun : list MenuChild :=
        [Item (makeMenuItem restartOrRunEn "" n
                 ("goofy:restart_tests", Some {[ "path" := Js.Str p ]})
                 false)] in
      let parentsOnly : list MenuChild :=
        if negb (length (subtests test) =? 0)%nat then
          [Item (makeMenuItem "Restart" "not passed"
                   (or0 (by_status !! "UNTESTED")
                    + or0 (by_status !! "ACTIVE")
                    + or0 (by_status !! "FAILED"))
                   ("goofy:run_tests_with_status",
                    Some {[ "status" :=
                              Js.Arr ["UNTESTED"; "ACTIVE"; "FAILED"];
                            "path" := Js.Str p ]}) true);
           Item (makeMenuItem "Run" "untested"
                   (or0 (by_status !! "UNTESTED")
                    + or0 (by_status !! "ACTIVE"))
                   ("goofy:auto_run", Some {[ "path" := Js.Str p ]})
                   false)]
        else [] in
      let stop : list MenuChild :=
        [MenuSeparator;
         Item (makeMenuItem "Stop" "active" (or0 (by_status !! "ACTIVE"))
                 ("goofy:stop", None) false)] in
      match state test with
      | Some _ => Some (extra ++ restartOrRun ++ parentsOnly ++ stop)%list
      | None => None
      end
  end.

(** [showTestPopup(path, labelElement, extraItems)]: the menu shown, or
    [None] for the TypeError when there is no entry for the path, or the
    entry or a leaf below it has no state. *)
Definition showTestPopup (p : string) (extraItems : list MenuItem)
    (g : Goofy) : Goofy * option (list MenuChild) :=
  let g1 := with_contextMenuVisible true g in
  (g1, test ← test_of p g1; testMenu p test extraItems).

(** The ACTION event of a menu item runs its handler. *)
Definition select (item : MenuItem) (g : Goofy) : Goofy :=
  sendEvent (handler item).1 (handler item).2 g.

(** The HIDE event of the menu. *)
Definition menuHidden (g : Goofy) : Goofy :=
  with_contextMenuVisible false g.

(** ** The event dispatcher *)

(** The keys of [cros.factory.SYSTEM_INFO_LABELS]. *)
Definition SYSTEM_INFO_LABELS : list string :=
  ["serial_number"; "factory_image_version"; "wlan0_mac"; "kernel_version";
   "ec_version"; "firmware_version"; "factory_md5sum"].

(** [setSystemInfo(systemInfo)]: one row per label, with the value found. *)
Definition setSystemInfo (systemInfo : gmap string string) (g : Goofy)
  : Goofy :=
  with_infoTooltip ((λ key, (key, systemInfo !! key)) <$> SYSTEM_INFO_LABELS) g.

(** [logToConsole(message)]. *)
Definition logToConsole (message : string) (g : Goofy) : Goofy :=
  with_page
    (with_consoleLines (consoleLines (page g) ++ [message]) (page g)) g.

(** [window.location.reload()]. *)
Definition reload (g : Goofy) : Goofy :=
  with_page (with_reloads (S (reloads (page g))) (page g)) g.

(** What the three sandbox events do with the invocation they obtained: the
    write, the eval or the call is entered in the record of its frame.  The
    code so written or evaluated runs before the handler returns; the calls
    of the Test API it makes are not part of the handler, they are the
    inputs [TestPass], [TestFail] and [TestEvent] that follow the message.
    An invocation that has no iframe is never obtained (see
    [invocations_inv]). *)
Definition in_sandbox (invocation : option nat) (upd : IFrame → IFrame)
    (g : Goofy) : Goofy :=
  match invocation with
  | Some a =>
      match frame_of a g with
      | Some f => with_frame f upd g
      | None => g
      end
  | None => g
  end.

(** [handleBackendEvent(jsonMessage)], on the parsed message. *)
Definition handleBackendEvent (message : Message) (g : Goofy) : Goofy :=
  match message with
  | Hello message_uuid =>
      if Js.truthy (uuid g) && Js.neq (Some message_uuid) (uuid g) then
        reload g
      else
        keepAlive (with_uuid (Some message_uuid) g)
  | Log text => logToConsole text g
  | StateChange p st => setTestState p st g
  | SetHtml test invocationUuid append html =>
      let '(g1, invocation) := getOrCreateInvocation test invocationUuid g in
      in_sandbox invocation (write append html) g1
  | RunJs test invocationUuid args js =>
      let '(g1, invocation) := getOrCreateInvocation test invocationUuid g in
      in_sandbox invocation (call (Eval js args)) g1
  | CallJsFunction test invocationUuid name args =>
      let '(g1, invocation) := getOrCreateInvocation test invocationUuid g in
      in_sandbox invocation (call (Apply name args)) g1
  | DestroyTest invocationUuid =>
      match invocations g !! invocationUuid with
      | Some (Some a) => dispose a g
      | _ => g
      end
  | SystemInfo system_info => setSystemInfo system_info g
  | PendingShutdown shutdownInfo => setPendingShutdown (Some shutdownInfo) g
  | Other _ => g
  end.

(** ** The controller as a whole *)

(** [new cros.factory.Goofy()] in a fresh page. *)
Definition Goofy_new : Goofy :=
  {| ws := {| isOpen := false; sent := [] |};
     uuid := None;
     contextMenuVisible := false;
     tests := [];
     pathNodeMap := ∅;
     pathTestMap := ∅;
     infoTooltip := [];
     invocations := ∅;
     heap := [];
     engineeringModeDialog := None;
     shutdownDialog := None;
     dialog := None;
     engineeringMode := false;
     engineeringPasswordSHA1 := Some "?";
     page := {| frames := []; main := []; dialogs := []; bodyClasses := [];
                consoleLines := []; timeouts := []; reloads := 0 |} |}.

(** Everything that can make the controller run. *)
Inductive Input :=
| SocketOpened
| SocketClosed
| SocketMessage (message : Message)
| KeepAliveTimer
| ShutdownTimer (i : nat) (now : Js.number)
| EscapeKey
| PromptKey
| PromptAnswer (text : option string)
| TestListReply (tl : TestListEntry)
| TestStatesReply (stateMap : list (string * TestState))
| OptionsReply (engineering_password_sha1 : option string)
| ContextMenu (p : string)
| MenuAction (item : MenuItem)
| MenuHide
| TestPass (a : nat)
| TestFail (a : nat) (errorMsg : string)
| TestEvent (a : nat) (subtype data : string).

Definition with_isOpen (b : bool) (g : Goofy) : Goofy :=
  with_ws {| isOpen := b; sent := sent (ws g) |} g.

Definition step (sha1hex : string → string) (i : Input) (g : Goofy) : Goofy :=
  match i with
  | SocketOpened => with_isOpen true g
  | SocketClosed => with_isOpen false g
  | SocketMessage message => handleBackendEvent message g
  | KeepAliveTimer => keepAlive g
  | ShutdownTimer d now => timerTick d now g
  | EscapeKey => onKey_escape g
  | PromptKey => promptEngineeringPassword g
  | PromptAnswer text => passwordEntered sha1hex text g
  | TestListReply tl => setTestList tl g
  | TestStatesReply stateMap => testStatesReceived stateMap g
  | OptionsReply h => optionsReceived h g
  | ContextMenu p => (showTestPopup p [] g).1
  | MenuAction item => select item g
  | MenuHide => menuHidden g
  | TestPass a => Test_pass a g
  | TestFail a errorMsg => Test_fail a errorMsg g
  | TestEvent a subtype data => Test_sendTestEvent a subtype data g
  end.

(** The inputs are handled one at a time, in order. *)
Definition run (sha1hex : string → string) (inputs : list Input) (g : Goofy)
  : Goofy :=
  foldl (λ g i, step sha1hex i g) g inputs.

(** ** Keyboard shortcuts and the language classes *)

(** The test of [handleShortcut]:
    [test.kbd_shortcut && test.kbd_shortcut.toLowerCase() ==
    key.toLowerCase()]. *)
Definition shortcut_matches (key : string) (test : TestListEntry) : bool :=
  Js.truthy (kbd_shortcut test)
  && String.eqb (Js.toLowerCase (default "" (kbd_shortcut test)))
       (Js.toLowerCase key).

(** [handleShortcut(key)].  [order] lists the keys of [pathTestMap] in the
    order in which the [for ... in] loop visits them; the loop returns at
    the first entry whose shortcut is the key.  A key of the map always has
    an entry, so the last branch is never taken for such an [order]. *)
Fixpoint handleShortcut (order : list string) (key : string) (g : Goofy)
  : Goofy :=
  match order with
  | [] => g
  | p :: rest =>
      match test_of p g with
      | Some test =>
          if shortcut_matches key test then
            sendEvent "goofy:restart_tests" (Some {[ "path" := Js.Str p ]}) g
          else handleShortcut rest key g
      | None => handleShortcut rest key g
      end
  end.

(** [updateLanguage()], with the current value of [zhMode]. *)
Definition updateLanguage (zhMode : bool) (g : Goofy) : Goofy :=
  let c1 :=
    Classes.enable (bodyClasses (page g)) "goofy-lang-en" (negb zhMode) in
  let c2 := Classes.enable c1 "goofy-lang-zh" zhMode in
  with_page (with_bodyClasses c2 (page g)) g.

(** ** Notions the statements use *)

(** The leaf tests of the subtree rooted at an entry, left to right. *)
Fixpoint leaves (t : TestListEntry) : list TestListEntry :=
  match subtests t with
  | [] => [t]
  | l => flat_map leaves l
  end.

(** Whether the status of an entry is one of [sts]. *)
Definition has_status (sts : list string) (t : TestListEntry) : bool :=
  match state t with
  | Some st => bool_decide (status st ∈ sts)
  | None => false
  end.

(** The number of leaves of the subtree whose status is one of [sts]. *)
Definition count_leaves (sts : list string) (t : TestListEntry) : nat :=
  length (filter (λ l, has_status sts l = true) (leaves t)).

(** The shutdown dialogs on screen. *)
Definition visible_countdowns (g : Goofy) : list Dialog :=
  filter (λ d, kind d = ShutdownDialog ∧ visible d = true)
    (dialogs (page g)).

(** The fraction the code computes for the progress bar: the divisor is the
    end time minus the start time. *)
Definition code_fraction (T D now : Js.number) : Js.number :=
  Js.clamp (Js.div (Js.sub now (Js.sub T D)) (Js.sub T (Js.sub T D)))
    (Js.of_Z 0) (Js.of_Z 1).

(** The fraction the specification gives, clamp((now - (T - D)) / D, 0, 1),
    and its seconds, 1 + floor(max(0, T - now)), on doubles. *)
Definition spec_fraction (T D now : Js.number) : Js.number :=
  Js.clamp (Js.div (Js.sub now (Js.sub T D)) D) (Js.of_Z 0) (Js.of_Z 1).

Definition spec_seconds (T now : Js.number) : Js.number :=
  Js.add (Js.of_Z 1) (Js.floor (Js.max (Js.of_Z 0) (Js.sub T now))).

(** The run id [u] is live: it is bound to an invocation whose iframe is
    under #goofy-main. *)
Definition live (u : string) (a f : nat) (g : Goofy) : Prop :=
  invocations g !! u = Some (Some a)
  ∧ ∃ inv, heap g !! a = Some inv ∧ inv_uuid inv = u ∧ iframe inv = Some f
           ∧ f ∈ main (page g).

(** The keepalive event for a session id. *)
Definition keepalive_event (u : string) : Event :=
  {[ "uuid" := Js.Str u; "type" := Js.Str "goofy:keepalive" ]}.

(** The paths of an entry and of all the entries below it, the entry
    first: what [countLeaves] pushes onto [allPaths]. *)
Fixpoint paths (t : TestListEntry) : list string :=
  path t :: flat_map paths (subtests t).

(** The path [p] is visited by [handleShortcut] and its entry has the
    shortcut [key]. *)
Definition shortcut_of (order : list string) (key : string) (g : Goofy)
    (p : string) : Prop :=
  p ∈ order ∧ ∃ t, test_of p g = Some t ∧ shortcut_matches key t = true.

(** The message is one of the four that name a run id, and names [u]. *)
Definition addressed_to (u : string) (m : Message) : bool :=
  match m with
  | SetHtml _ v _ _ | RunJs _ v _ _ | CallJsFunction _ v _ _
  | DestroyTest v => bool_decide (v = u)
  | _ => false
  end.

(** The event [Test.pass] and [Test.fail] send for an invocation. *)
Definition end_test_event (status : string) (error_msg : option string)
    (inv : Invocation) : Event :=
  <["type" := Js.Str "goofy:end_test"]>
    (match error_msg with
     | Some e => <["error_msg" := Js.Str e]>
     | None => id
     end
       {[ "status" := Js.Str status;
          "invocation" := Js.Str (inv_uuid inv);
          "test" := Js.Str (inv_path inv) ]}).

(** An outbound event that has a [type]. *)
Definition typed (e : Event) : Prop := ∃ t, e !! "type" = Some (Js.Str t).

(** The invocations and the frames agree: a run id bound to an invocation is
    live; an invocation that has an iframe is bound under its own run id
    and its iframe has been created; no two invocations share an iframe;
    every child of #goofy-main is the iframe of an invocation, and occurs
    once. *)
Definition invocations_inv (g : Goofy) : Prop :=
  (∀ u a, invocations g !! u = Some (Some a) → ∃ f, live u a f g)
  ∧ (∀ a inv f, heap g !! a = Some inv → iframe inv = Some f →
       invocations g !! inv_uuid inv = Some (Some a)
       ∧ (f < length (frames (page g)))%nat)
  ∧ (∀ a b ia ib f, heap g !! a = Some ia → heap g !! b = Some ib →
       iframe ia = Some f → iframe ib = Some f → a = b)
  ∧ (∀ f, f ∈ main (page g) →
       ∃ a inv, heap g !! a = Some inv ∧ iframe inv = Some f)
  ∧ NoDup (main (page g)).

(** ** Sample data *)

Definition leaf (p : string) : TestListEntry :=
  mkTestListEntry p p None None [] None.

Definition group (p : string) (l : list TestListEntry) : TestListEntry :=
  mkTestListEntry p p None None l None.

Definition sample_list : TestListEntry :=
  group ""
    [group "SMT"
       [leaf "SMT.LED"; leaf "SMT.KBD"; leaf "SMT.LCD"; leaf "SMT.USB";
        leaf "SMT.SD"; leaf "SMT.WIFI"];
     leaf "FA"].

Definition with_status (st : string) : TestState :=
  {| status := st; error_msg := None; count := 0 |}.

Definition sample_states : list (string * TestState) :=
  [("", with_status "FAILED"); ("SMT", with_status "FAILED");
   ("SMT.LED", with_status "UNTESTED"); ("SMT.KBD", with_status "UNTESTED");
   ("SMT.LCD", with_status "FAILED"); ("SMT.USB", with_status "PASSED");
   ("SMT.SD", with_status "PASSED"); ("SMT.WIFI", with_status "PASSED");
   ("FA", with_status "PASSED")].

(** The controller once the socket is open, the session is known and the
    sample list and its states have been received. *)
Definition sample : Goofy :=
  run Sha1.hex
    [SocketOpened; SocketMessage (Hello "session-1");
     TestListReply sample_list; TestStatesReply sample_states]
    Goofy_new.

(** The sample after set_html for run "u1" of "SMT.LED". *)
Definition sample_running : Goofy :=
  handleBackendEvent (SetHtml "SMT.LED" "u1" false "<p>LED</p>") sample.

(** A pending reboot at time 100 announced 10 seconds ahead. *)
Definition sample_shutdown : PendingShutdownEvent :=
  {| delay_secs := Js.of_Z 10; time := Some (Js.of_Z 100);
     operation := "reboot";
     iteration := 1; iterations := 1 |}.

(** The sample after the backend announced that "SMT.LED" is running. *)
Definition sample_active : Goofy :=
  handleBackendEvent (StateChange "SMT.LED" (with_status "ACTIVE"))
    sample_running.

(** The sample with a countdown on screen. *)
Definition sample_countdown : Goofy :=
  handleBackendEvent (PendingShutdown sample_shutdown) sample.

(** The sample once the password hash of "secret" has arrived. *)
Definition sample_locked : Goofy :=
  step Sha1.hex (OptionsReply (Some (Sha1.hex "secret"))) sample.

(** ** Notions the proofs use *)

(** The part of the controller the tree operations leave alone. *)
Definition outside_tree (g : Goofy) :=
  (ws g, uuid g, contextMenuVisible g, infoTooltip g, invocations g, heap g,
   engineeringModeDialog g, shutdownDialog g, dialog g, engineeringMode g,
   engineeringPasswordSHA1 g, frames (page g), main (page g),
   dialogs (page g), bodyClasses (page g), consoleLines (page g),
   reloads (page g)).

(** Everything but the dialogs and [shutdownDialog]. *)
Definition outside_dialogs (g : Goofy) :=
  (ws g, uuid g, contextMenuVisible g, tests g, pathNodeMap g,
   pathTestMap g, infoTooltip g, invocations g, heap g,
   engineeringModeDialog g, dialog g, engineeringMode g,
   engineeringPasswordSHA1 g, frames (page g), main (page g),
   bodyClasses (page g), consoleLines (page g), timeouts (page g),
   reloads (page g)).

(** The run id [u] is bound to null. *)
Definition disposed_id (u : string) (g : Goofy) : Prop :=
  invocations g !! u = Some None.

(** The statuses of the leaves of a subtree. *)
Definition leaf_statuses (t : TestListEntry) : list string :=
  omap (λ l, status <$> state l) (leaves t).

(** [numLeavesByStatus] after counting leaves with the statuses [sts]. *)
Definition tally (sts : list string) (m : gmap string nat) : gmap string nat :=
  foldl (λ m s, <[s := (1 + default 0 (m !! s))%nat]> m) m sts.

Definition occurrences (s : string) (sts : list string) : nat :=
  length (filter (λ x, x = s) sts).

(** Every shutdown dialog on screen is the one [shutdownDialog] refers to,
    and a timer runs only for a shutdown dialog on screen. *)
Definition countdown_inv (g : Goofy) : Prop :=
  ∀ i d, dialogs (page g) !! i = Some d →
    (kind d = ShutdownDialog → visible d = true → shutdownDialog g = Some i)
    ∧ (timer d = true → visible d = true ∧ kind d = ShutdownDialog).

(** No shutdown dialog is on screen and no timer runs. *)
Definition no_countdown (g : Goofy) : Prop :=
  ∀ i d, dialogs (page g) !! i = Some d →
    (kind d = ShutdownDialog → visible d = false) ∧ timer d = false.

(** The part of the state the countdown invariant reads. *)
Definition countdown_part (g : Goofy) := (dialogs (page g), shutdownDialog g).

(** [setPendingShutdown] up to its early return. *)
Definition clearShutdownDialog (g : Goofy) : Goofy :=
  match shutdownDialog g with
  | Some i => with_shutdownDialog (None : option nat)
                (with_dialog_at i (λ d, disposeDialog (hide d)) g)
  | None => g
  end.

(** Every path that has a node has an entry, and every entry of
    [pathTestMap] is the address of a test-list entry with that path. *)
Definition tree_inv (g : Goofy) : Prop :=
  (∀ p, is_Some (pathNodeMap g !! p) → is_Some (pathTestMap g !! p))
  ∧ (∀ p r pos, pathTestMap g !! p = Some (r, pos) →
       ∃ root t, tests g !! r = Some root ∧ entry_at pos root = Some t
                 ∧ path t = p).

(** The part of the state the tree invariant reads. *)
Definition tree_part (g : Goofy) := (tests g, pathNodeMap g, pathTestMap g).

Ltac open_goofy g :=
  destruct g as [[? ?] ? ? ? ? ? ? ? ? ? ? ? ? ? [? ? ? ? ? ? ?]].

(** The part of the state the invocation invariant reads. *)
Definition invocations_part (g : Goofy) :=
  (invocations g, heap g, length (frames (page g)), main (page g)).

(** The session id, the engineering mode, the password hash and the
    classes of the body. *)
Definition control_part (g : Goofy) :=
  (uuid g, engineeringMode g, engineeringPasswordSHA1 g,
   bodyClasses (page g)).

(** The same without the session id. *)
Definition engineering_part (g : Goofy) :=
  (engineeringMode g, engineeringPasswordSHA1 g, bodyClasses (page g)).

(** The inputs that cannot touch the session id, the engineering mode, the
    password hash or the classes of the body. *)
Definition plain (i : Input) : bool :=
  match i with
  | SocketMessage (Hello _) | PromptKey | PromptAnswer _ | OptionsReply _ =>
      false
  | _ => true
  end.

(** [g'] has sent what [g] had sent and then [es]. *)
Definition sends (es : list Event) (g g' : Goofy) : Prop :=
  sent (ws g') = sent (ws g) ++ es.

(** From [g] to [g'] only events that have a type were sent. *)
Definition sends_typed (g g' : Goofy) : Prop :=
  ∃ es, sends es g g' ∧ Forall typed es.

(** A call of the Test API ([pass], [fail] or [sendTestEvent]) on the
    invocation at address [a]: what the code of a test can do to the
    controller through [window.test]. *)
Definition test_api_call (a : nat) (i : Input) : Prop :=
  match i with
  | TestPass b | TestFail b _ | TestEvent b _ _ => b = a
  | _ => False
  end.

(** The invocation at address [a] was made for the run id [u] with the
    iframe [f], while #goofy-main held [M]: either it is still there, with
    its iframe after [M], or it has been disposed of and #goofy-main holds
    [M] again. *)
Definition started (u : string) (a f : nat) (M : list nat) (g : Goofy)
  : Prop :=
  ∃ inv, heap g !! a = Some inv ∧ inv_uuid inv = u
    ∧ ((iframe inv = Some f ∧ invocations g !! u = Some (Some a)
        ∧ main (page g) = M ++ [f])
       ∨ (iframe inv = None ∧ invocations g !! u = Some None
          ∧ main (page g) = M)).

(** The body carries the engineering-mode class exactly in engineering
    mode. *)
Definition engineering_inv (g : Goofy) : Prop :=
  "goofy-engineering-mode" ∈ bodyClasses (page g) ↔ engineeringMode g = true.

(** What the inputs so far say about the stored hash, and about how
    engineering mode was entered. *)
Definition password_inv (h : string → string) (l : list Input) (g : Goofy)
  : Prop :=
  (engineeringPasswordSHA1 g = Some "?"
   ∨ OptionsReply (engineeringPasswordSHA1 g) ∈ l)
  ∧ (engineeringMode g = true →
     OptionsReply None ∈ l
     ∨ ∃ text, text ≠ "" ∧ PromptAnswer (Some text) ∈ l
               ∧ (h text = "?" ∨ OptionsReply (Some (h text)) ∈ l)).

(** The two maps of the tree at a path. *)
Definition registered (q : string) (g : Goofy) :=
  (pathTestMap g !! q, pathNodeMap g !! q).

(** Every leaf below the entries of a list has a state. *)
Definition leaves_have_state (l : list TestListEntry) : Prop :=
  Forall (λ x, is_Some (state x)) (flat_map leaves l).

(** * Properties *)

(** ** SHA-1 on the standard test vectors *)

Example sha1_empty :
  Sha1.hex "" = "da39a3ee5e6b4b0d3255bfef95601890afd80709".
Proof. vm_compute. reflexivity. Qed.

Example sha1_abc :
  Sha1.hex "abc" = "a9993e364706816aba3e25717850c26c9cd0d89d".
Proof. vm_compute. reflexivity. Qed.

Example sha1_two_blocks :
  Sha1.hex "abcdbcdecdefdefgefghfghighijhijkijkljklmklmnlmnomnopnopq"
  = "84983e441c3bd26ebaae4aa1f95129e5e54670f1".
Proof. vm_compute. reflexivity. Qed.

(** ** Test-list entries *)

(** Induction over an entry and all of its subtests. *)
Lemma TestListEntry_nested_ind (P : TestListEntry → Prop) :
  (∀ p le lz k l st, Forall P l → P (mkTestListEntry p le lz k l st)) →
  ∀ t, P t.
Proof.
  intros H. fix IH 1. intros [p le lz k l st]. apply H.
  induction l as [|x l IHl]; constructor; [apply IH|exact IHl].
Qed.

Lemma entry_at_assign_state (pos : list nat) (st : TestState) :
  ∀ t, entry_at pos (assign_state pos st t)
       = with_state (Some st) <$> entry_at pos t.
Proof.
  induction pos as [|i r IH]; intros t; simpl; [done|].
  rewrite list_lookup_alter_eq.
  destruct (subtests t !! i) as [c|]; simpl; [apply IH|done].
Qed.

Lemma test_of_ext (p : string) (g g' : Goofy) :
  tests g' = tests g → pathTestMap g' = pathTestMap g →
  test_of p g' = test_of p g.
Proof. unfold test_of. by intros -> ->. Qed.

(** ** Sending on a socket that may be closed *)

Lemma sendEvent_closed (ty : string) (props : option Event) (g : Goofy) :
  isOpen (ws g) = false → sendEvent ty props g = g.
Proof. intros Ho. unfold sendEvent, send. by rewrite Ho. Qed.

(** [Test.pass] and [Test.fail] either change nothing (no such invocation,
    or the socket is not open) or send their event and dispose. *)
Lemma Test_pass_cases (a : nat) (g : Goofy) :
  Test_pass a g = g
  ∨ ∃ props, Test_pass a g = dispose a (sendEvent "goofy:end_test" props g).
Proof.
  unfold Test_pass. destruct (heap g !! a) as [inv|]; [|by left].
  destruct (isOpen (ws g)) eqn:Ho; [right; by eexists|left].
  by apply sendEvent_closed.
Qed.

Lemma Test_fail_cases (a : nat) (errorMsg : string) (g : Goofy) :
  Test_fail a errorMsg g = g
  ∨ ∃ props,
      Test_fail a errorMsg g = dispose a (sendEvent "goofy:end_test" props g).
Proof.
  unfold Test_fail. destruct (heap g !! a) as [inv|]; [|by left].
  destruct (isOpen (ws g)) eqn:Ho; [right; by eexists|left].
  by apply sendEvent_closed.
Qed.

(** ** What the tree operations leave alone *)

Lemma outside_tree_addToNode (r : nat) (t : TestListEntry) :
  ∀ pos g, outside_tree (addToNode r pos t g) = outside_tree g.
Proof.
  induction t as [p le lz k l st IH] using TestListEntry_nested_ind.
  intros pos g. simpl.
  set (f := λ i subtest, addToNode r (pos ++ [i]) subtest).
  assert (∀ n g0, outside_tree (forEachIndexed f n l g0) = outside_tree g0)
    as Hl.
  { induction IH as [|x l Hx _ IHl]; intros n g0; simpl; [done|].
    rewrite IHl. apply Hx. }
  rewrite <- (Hl 0%nat g).
  by destruct (forEachIndexed f 0 l g)
    as [[? ?] ? ? ? ? ? ? ? ? ? ? ? ? ? [? ? ? ? ? ? ?]].
Qed.

Lemma outside_tree_setTestState (p : string) (st : TestState) (g : Goofy) :
  outside_tree (setTestState p st g) = outside_tree g.
Proof.
  unfold setTestState. repeat case_match; by open_goofy g.
Qed.

Lemma outside_tree_testStatesReceived (m : list (string * TestState)) :
  ∀ g, outside_tree (testStatesReceived m g) = outside_tree g.
Proof.
  unfold testStatesReceived.
  induction m as [|[p st] m IH]; intros g; simpl; [done|].
  rewrite IH. case_match; [done|]. apply outside_tree_setTestState.
Qed.

Lemma outside_tree_invocations (g g' : Goofy) :
  outside_tree g' = outside_tree g → invocations g' = invocations g.
Proof. unfold outside_tree. congruence. Qed.

(** ** The hello event *)

(** C1. On a hello event (events arrive on the open socket), if a session
    id is recorded and differs from the event's, the page is reloaded and
    nothing else happens; otherwise the event's session id is recorded and
    exactly one keepalive event carrying that id is sent at once.  A session
    id is recorded when [this.uuid] is truthy, which is how the code tests
    for it: set, and not the empty string. *)
Theorem hello_reconciles_session (g : Goofy) (u : string) :
  isOpen (ws g) = true →
  let g' := handleBackendEvent (Hello u) g in
  let adopted :=
    uuid g' = Some u
    ∧ reloads (page g') = reloads (page g)
    ∧ sent (ws g') = sent (ws g) ++ [keepalive_event u] in
  match uuid g with
  | Some old =>
      if decide (old ≠ "" ∧ old ≠ u) then g' = reload g else adopted
  | None => adopted
  end.
Proof.
  destruct g as [[open s] o c tl nm tm it iv hp ed sd dl em eh pg].
  simpl. intros ->.
  unfold handleBackendEvent, keepAlive, sendEvent, send, keepalive_event;
    simpl.
  destruct o as [old|]; simpl.
  - case_decide as Hd.
    + destruct Hd as [H1 H2].
      assert (String.eqb old "" = false) as -> by (by apply String.eqb_neq).
      unfold Js.neq. rewrite bool_decide_eq_false_2 by congruence. done.
    + destruct (String.eqb_spec old "") as [->|Hne]; simpl.
      * done.
      * assert (old = u) as -> by (destruct (decide (old = u)); [done|tauto]).
        unfold Js.neq. rewrite bool_decide_eq_true_2 by done. done.
  - done.
Qed.

Lemma hello_reconciles_session_witness :
  let g := run Sha1.hex [SocketOpened; SocketMessage (Hello "session-1")]
             Goofy_new in
  handleBackendEvent (Hello "session-2") g = reload g.
Proof.
  apply (hello_reconciles_session
           (run Sha1.hex [SocketOpened; SocketMessage (Hello "session-1")]
              Goofy_new) "session-2").
  reflexivity.
Defined.

(** The first hello of a session, and the same hello again: the id is
    recorded, and each of the two is answered by a keepalive. *)
Example hello_first_and_again :
  let g1 := run Sha1.hex [SocketOpened; SocketMessage (Hello "session-1")]
              Goofy_new in
  let g2 := handleBackendEvent (Hello "session-1") g1 in
  uuid g1 = Some "session-1"
  ∧ sent (ws g1) = [keepalive_event "session-1"]
  ∧ uuid g2 = Some "session-1"
  ∧ reloads (page g2) = 0%nat
  ∧ sent (ws g2) = [keepalive_event "session-1"; keepalive_event "session-1"].
Proof. vm_compute. done. Qed.

(** ** State changes *)

Lemma is_status_class_spec (c : string) :
  is_status_class c = Js.startsWith c "goofy-status-".
Proof.
  unfold is_status_class.
  destruct (Js.startsWith c "goofy-status-") eqn:E; [|done].
  destruct c; [discriminate|done].
Qed.

Lemma status_class_prefix (s : string) :
  Js.startsWith ("goofy-status-" +:+ s) "goofy-status-" = true.
Proof. unfold Js.startsWith. simpl. by destruct s. Qed.

Section StatusClasses.

Context (cls : string) (Hcls : Js.startsWith cls "goofy-status-" = true).
Context (old : list string).

Let kept : list string :=
  filter (λ c, c ∉ filter (λ c1, is_status_class c1 = true) old) old.

Let new : list string :=
  Classes.addRemove old (filter (λ c, is_status_class c = true) old) cls.

Lemma kept_spec (c : string) :
  c ∈ kept ↔ c ∈ old ∧ Js.startsWith c "goofy-status-" = false.
Proof using Type.
  unfold kept. rewrite list_elem_of_filter, list_elem_of_filter.
  rewrite is_status_class_spec.
  destruct (Js.startsWith c "goofy-status-").
  - split; [|by intros [_ ?]]. intros [Hn Ho]. by destruct Hn.
  - split; [tauto|]. intros [Ho _]. split; [|done]. by intros [? _].
Qed.

Lemma new_spec : new = kept ++ [cls].
Proof using Hcls.
  unfold new, Classes.addRemove, Classes.add, Classes.contains. fold kept.
  rewrite bool_decide_eq_false_2; [done|].
  rewrite kept_spec. intros [_ H]. congruence.
Qed.

Lemma addRemove_status_only (c : string) :
  c ∈ new → Js.startsWith c "goofy-status-" = true → c = cls.
Proof using Hcls.
  rewrite new_spec, elem_of_app, kept_spec, list_elem_of_singleton.
  intros [[_ H]|H] Hc; [congruence|done].
Qed.

Lemma addRemove_keeps_others (c : string) :
  Js.startsWith c "goofy-status-" = false → c ∈ new ↔ c ∈ old.
Proof using Hcls.
  rewrite new_spec, elem_of_app, kept_spec, list_elem_of_singleton.
  intros Hc. split; [|tauto]. intros [[? _]| ->]; [done|congruence].
Qed.

Lemma addRemove_once : length (filter (λ c, c = cls) new) = 1%nat.
Proof using Hcls.
  rewrite new_spec, filter_app, length_app.
  replace (filter (λ c, c = cls) kept) with (@nil string).
  - simpl. by rewrite filter_cons_True.
  - symmetry. assert (cls ∉ kept) as Hno
      by (rewrite kept_spec; intros [_ H]; congruence).
    clear new. clearbody kept.
    induction kept as [|x k IH]; [done|].
    rewrite filter_cons_False.
    + apply IH. intros ?. apply Hno. by right.
    + intros ->. apply Hno. by left.
Qed.

End StatusClasses.

Lemma setTestState_unfold (p : string) (st : TestState) (g : Goofy)
    (node : TreeNode) (r : nat) (pos : list nat) :
  pathNodeMap g !! p = Some node →
  pathTestMap g !! p = Some (r, pos) →
  let elt :=
    Classes.addRemove (classes node)
      (filter (λ cls, is_status_class cls = true) (classes node))
      ("goofy-status-" +:+ Js.toLowerCase (status st)) in
  let node1 := with_classes elt node in
  let node2 :=
    if String.eqb (status st) "ACTIVE" then reveal node1 else node1 in
  setTestState p st g
  = with_pathNodeMap (<[p := node2]> (pathNodeMap g))
      (with_tests (alter (assign_state pos st) r (tests g)) g).
Proof.
  intros Hn Hp. unfold setTestState. rewrite Hn, Hp.
  unfold AUTO_COLLAPSE. rewrite andb_false_r. simpl.
  by open_goofy g.
Qed.

(** [setTestState] stores the state object it is given. *)
Lemma test_of_setTestState (g : Goofy) (p : string) (st : TestState)
    (node : TreeNode) (t : TestListEntry) :
  pathNodeMap g !! p = Some node →
  test_of p g = Some t →
  test_of p (setTestState p st g) = Some (with_state (Some st) t).
Proof.
  intros Hn Ht. unfold test_of in Ht.
  destruct (pathTestMap g !! p) as [[r pos]|] eqn:Hp; [|done].
  simpl in Ht.
  destruct (tests g !! r) as [root|] eqn:Hr; [|done].
  simpl in Ht. rewrite (setTestState_unfold p st g node r pos Hn Hp).
  unfold test_of. open_goofy g. simpl in *. rewrite Hp. simpl.
  rewrite list_lookup_alter_eq, Hr. simpl.
  by rewrite entry_at_assign_state, Ht.
Qed.

(** C2. For a path P that has a tree node and a test-list entry, after a
    state_change event for P the entry's state is exactly the state object
    of the event; the class list of P's node holds the class
    "goofy-status-" + lower-cased status exactly once, holds no other class
    starting with "goofy-status-", and keeps every other class. *)
Theorem state_change_sets_state_and_class
    (g : Goofy) (P : string) (st : TestState) (node : TreeNode)
    (t : TestListEntry) :
  pathNodeMap g !! P = Some node →
  test_of P g = Some t →
  let g' := handleBackendEvent (StateChange P st) g in
  let cls := "goofy-status-" +:+ Js.toLowerCase (status st) in
  test_of P g' = Some (with_state (Some st) t)
  ∧ ∃ node',
      pathNodeMap g' !! P = Some node'
      ∧ length (filter (λ c, c = cls) (classes node')) = 1%nat
      ∧ (∀ c, c ∈ classes node' →
              Js.startsWith c "goofy-status-" = true → c = cls)
      ∧ (∀ c, Js.startsWith c "goofy-status-" = false →
              c ∈ classes node' ↔ c ∈ classes node).
Proof.
  intros Hn Ht g' cls. subst g'. simpl.
  split; [by apply (test_of_setTestState g P st node t)|].
  unfold test_of in Ht.
  destruct (pathTestMap g !! P) as [[r pos]|] eqn:Hp; [|done].
  rewrite (setTestState_unfold P st g node r pos Hn Hp).
  set (elt := Classes.addRemove _ _ _).
  exists (if String.eqb (status st) "ACTIVE"
          then reveal (with_classes elt node) else with_classes elt node).
  split.
  - open_goofy g. simpl. by rewrite lookup_insert_eq.
  - assert (classes (if String.eqb (status st) "ACTIVE"
                     then reveal (with_classes elt node)
                     else with_classes elt node) = elt) as ->
      by (by destruct (String.eqb _ _)).
    pose proof (status_class_prefix (Js.toLowerCase (status st))) as Hc.
    split_and!.
    + by apply addRemove_once.
    + intros c. by apply addRemove_status_only.
    + intros c. by apply addRemove_keeps_others.
Qed.

Lemma state_change_sets_state_and_class_witness :
  let g' :=
    handleBackendEvent (StateChange "SMT.LCD" (with_status "ACTIVE")) sample in
  test_of "SMT.LCD" g'
  = Some (with_state (Some (with_status "ACTIVE"))
            (with_state (Some (with_status "FAILED")) (leaf "SMT.LCD")))
  ∧ ∃ node',
      pathNodeMap g' !! "SMT.LCD" = Some node'
      ∧ length (filter (λ c, c = "goofy-status-active") (classes node'))
        = 1%nat
      ∧ (∀ c, c ∈ classes node' →
              Js.startsWith c "goofy-status-" = true →
              c = "goofy-status-active")
      ∧ (∀ c, Js.startsWith c "goofy-status-" = false →
              c ∈ classes node'
              ↔ c ∈ classes
                      {| classes := ["goofy-status-failed"]; childCount := 0;
                         reveals := 0; collapses := 0 |}).
Proof.
  apply (state_change_sets_state_and_class sample "SMT.LCD"
           (with_status "ACTIVE")).
  - vm_compute. reflexivity.
  - vm_compute. reflexivity.
Defined.

(** ** The tree model of a running controller *)

Lemma tree_inv_part (g g' : Goofy) :
  tree_part g' = tree_part g → tree_inv g → tree_inv g'.
Proof. unfold tree_inv. by intros [= -> -> ->]. Qed.

Lemma path_assign_state pos st t : path (assign_state pos st t) = path t.
Proof. by destruct pos. Qed.

Lemma entry_at_assign_state_path (pos' : list nat) :
  ∀ pos st t t0,
    entry_at pos' t = Some t0 →
    ∃ t1, entry_at pos' (assign_state pos st t) = Some t1 ∧ path t1 = path t0.
Proof.
  induction pos' as [|i r' IH]; intros pos st t t0; simpl.
  - intros [= <-]. eexists. split; [done|]. apply path_assign_state.
  - destruct (subtests t !! i) as [c|] eqn:Hc; [|done]. simpl. intros Ht0.
    destruct pos as [|j q]; simpl.
    + rewrite Hc. simpl. eauto.
    + destruct (decide (j = i)) as [->|Hne].
      * rewrite list_lookup_alter_eq, Hc. simpl. by apply IH.
      * rewrite list_lookup_alter_ne, Hc by done. simpl. eauto.
Qed.

Lemma tree_inv_setTestState p st g :
  tree_inv g → tree_inv (setTestState p st g).
Proof.
  intros [Hn Ht].
  destruct (pathNodeMap g !! p) as [node|] eqn:En;
    [|unfold setTestState; by rewrite En].
  destruct (pathTestMap g !! p) as [[r pos]|] eqn:Ep;
    [|unfold setTestState; by rewrite En, Ep].
  rewrite (setTestState_unfold p st g node r pos En Ep). cbv zeta.
  set (node2 := if String.eqb (status st) "ACTIVE" then _ else _).
  split.
  - intros q.
    replace (pathTestMap (with_pathNodeMap _ _)) with (pathTestMap g)
      by (by open_goofy g).
    replace (pathNodeMap (with_pathNodeMap _ _))
      with (<[p := node2]> (pathNodeMap g)) by (by open_goofy g).
    rewrite lookup_insert. case_decide as E; [|apply Hn].
    subst q. by rewrite Ep.
  - intros q r' pos'.
    replace (pathTestMap (with_pathNodeMap _ _)) with (pathTestMap g)
      by (by open_goofy g).
    replace (tests (with_pathNodeMap _ _))
      with (alter (assign_state pos st) r (tests g)) by (by open_goofy g).
    intros (root & t & Hr & He & Hp)%Ht.
    destruct (decide (r = r')) as [->|Hne].
    + rewrite list_lookup_alter_eq, Hr. simpl.
      destruct (entry_at_assign_state_path pos' pos st root t He)
        as (t1 & H1 & H2).
      exists (assign_state pos st root), t1. split_and!; congruence.
    + rewrite list_lookup_alter_ne by done. eauto.
Qed.

Lemma tests_addToNode (r : nat) (t : TestListEntry) :
  ∀ pos g, tests (addToNode r pos t g) = tests g.
Proof.
  induction t as [p le lz k l st IH] using TestListEntry_nested_ind.
  intros pos g. simpl.
  set (f := λ i subtest, addToNode r (pos ++ [i]) subtest).
  assert (∀ n g0, tests (forEachIndexed f n l g0) = tests g0) as Hl.
  { induction IH as [|x l Hx _ IHl]; intros n g0; simpl; [done|].
    rewrite IHl. apply Hx. }
  rewrite <- (Hl 0%nat g).
  by destruct (forEachIndexed f 0 l g)
    as [[? ?] ? ? ? ? ? ? ? ? ? ? ? ? ? [? ? ? ? ? ? ?]].
Qed.

Lemma entry_at_app (pos q : list nat) :
  ∀ t, entry_at (pos ++ q) t = entry_at pos t ≫= entry_at q.
Proof.
  induction pos as [|i r IH]; intros t; simpl; [done|].
  destruct (subtests t !! i) as [c|]; simpl; [apply IH|done].
Qed.

Lemma tree_inv_addToNode (r : nat) (tl t : TestListEntry) :
  ∀ pos g,
    tests g !! r = Some tl →
    entry_at pos tl = Some t →
    tree_inv g → tree_inv (addToNode r pos t g).
Proof.
  induction t as [p le lz k l st IH] using TestListEntry_nested_ind.
  intros pos g Hr Hpos Hinv. simpl.
  set (f := λ i subtest, addToNode r (pos ++ [i]) subtest).
  assert (∀ l' n g0,
    Forall (λ t, ∀ pos g, tests g !! r = Some tl → entry_at pos tl = Some t →
                          tree_inv g → tree_inv (addToNode r pos t g)) l' →
    (∀ i x, l' !! i = Some x → l !! (n + i)%nat = Some x) →
    tests g0 !! r = Some tl → tree_inv g0 →
    tree_inv (forEachIndexed f n l' g0)
    ∧ tests (forEachIndexed f n l' g0) = tests g0) as Hl.
  { clear g Hr Hinv. intros l' n g0 HF. revert n g0.
    induction HF as [|x l' Hx _ IHl]; intros n g0 Hsub Hr Hinv; simpl;
      [done|].
    assert (entry_at (pos ++ [n]) tl = Some x) as Hx0.
    { rewrite entry_at_app, Hpos. simpl.
      by rewrite <- (Nat.add_0_r n), (Hsub 0%nat x eq_refl). }
    destruct (IHl (S n) (f n x g0)) as [H1 H2].
    - intros i y Hi. replace (S n + i)%nat with (n + S i)%nat by lia.
      by apply Hsub.
    - unfold f. by rewrite tests_addToNode.
    - unfold f. by apply Hx.
    - split; [done|]. rewrite H2. unfold f. apply tests_addToNode. }
  destruct (Hl l 0%nat g IH) as [[Hn1 Ht1] Hts]; [done..|].
  set (g1 := forEachIndexed f 0 l g) in *.
  split.
  - intros q.
    replace (pathNodeMap (with_pathTestMap _ _))
      with (<[p := {| classes := []; childCount := length l; reveals := 0;
                      collapses := 0 |}]> (pathNodeMap g1))
      by (by open_goofy g1).
    replace (pathTestMap (with_pathTestMap _ _))
      with (<[p := (r, pos)]> (pathTestMap g1)) by (by open_goofy g1).
    rewrite !lookup_insert. case_decide; [done|apply Hn1].
  - intros q r' pos'.
    replace (pathTestMap (with_pathTestMap _ _))
      with (<[p := (r, pos)]> (pathTestMap g1)) by (by open_goofy g1).
    replace (tests (with_pathTestMap _ _)) with (tests g1)
      by (by open_goofy g1).
    rewrite lookup_insert. case_decide as E; [|apply Ht1].
    intros [= <- <-]. subst q. rewrite Hts.
    exists tl. eexists. split_and!; [done..|]. done.
Qed.

Lemma tree_inv_setTestList tl g : tree_inv g → tree_inv (setTestList tl g).
Proof.
  intros [Hn Ht]. unfold setTestList.
  apply (tree_inv_addToNode _ tl tl).
  - replace (tests (with_tests (tests g ++ [tl]) g)) with (tests g ++ [tl])
      by (by open_goofy g).
    rewrite lookup_app_r by done. by rewrite Nat.sub_diag.
  - done.
  - split.
    + intros p. replace (pathNodeMap (with_tests _ g)) with (pathNodeMap g)
        by (by open_goofy g).
      replace (pathTestMap (with_tests _ g)) with (pathTestMap g)
        by (by open_goofy g). apply Hn.
    + intros p r pos.
      replace (pathTestMap (with_tests _ g)) with (pathTestMap g)
        by (by open_goofy g).
      replace (tests (with_tests (tests g ++ [tl]) g)) with (tests g ++ [tl])
        by (by open_goofy g).
      intros (root & t & Hr & He & Hp)%Ht. exists root, t.
      split_and!; try done. by apply lookup_app_l_Some.
Qed.

Lemma tree_inv_testStatesReceived m :
  ∀ g, tree_inv g → tree_inv (testStatesReceived m g).
Proof.
  unfold testStatesReceived.
  induction m as [|[p st] m IH]; intros g H; simpl; [done|].
  apply IH. case_match; [done|]. by apply tree_inv_setTestState.
Qed.

Lemma tree_part_sendEvent ty props g :
  tree_part (sendEvent ty props g) = tree_part g.
Proof.
  unfold sendEvent, send. destruct (isOpen (ws g)); by open_goofy g.
Qed.

Lemma tree_part_keepAlive g : tree_part (keepAlive g) = tree_part g.
Proof. unfold keepAlive. case_match; [apply tree_part_sendEvent|done]. Qed.

Lemma tree_part_dispose a g : tree_part (dispose a g) = tree_part g.
Proof. unfold dispose. repeat case_match; try done; by open_goofy g. Qed.

Lemma tree_part_in_sandbox r upd g :
  tree_part (in_sandbox r upd g) = tree_part g.
Proof. unfold in_sandbox. repeat case_match; try done; by open_goofy g. Qed.

Lemma tree_part_sandbox p u upd g :
  tree_part
    (let '(g1, r) := getOrCreateInvocation p u g in in_sandbox r upd g1)
  = tree_part g.
Proof.
  unfold getOrCreateInvocation.
  destruct (invocations g !! u) as [r|].
  - apply tree_part_in_sandbox.
  - unfold newInvocation. rewrite tree_part_in_sandbox. by open_goofy g.
Qed.

Lemma tree_part_setPendingShutdown si g :
  tree_part (setPendingShutdown si g) = tree_part g.
Proof.
  unfold setPendingShutdown, closeDialog, openDialog.
  repeat case_match; simplify_eq; by open_goofy g.
Qed.

Lemma tree_inv_handleBackendEvent m g :
  tree_inv g → tree_inv (handleBackendEvent m g).
Proof.
  intros Hinv.
  destruct m
    as [u|text|p st|p u ap html|p u args js|p u name args|u|sys|si|ty];
    simpl.
  - case_match.
    + revert Hinv. apply tree_inv_part. by open_goofy g.
    + revert Hinv. apply tree_inv_part.
      rewrite tree_part_keepAlive. by open_goofy g.
  - revert Hinv. apply tree_inv_part. by open_goofy g.
  - by apply tree_inv_setTestState.
  - revert Hinv. apply tree_inv_part, tree_part_sandbox.
  - revert Hinv. apply tree_inv_part, tree_part_sandbox.
  - revert Hinv. apply tree_inv_part, tree_part_sandbox.
  - repeat case_match; try done.
    revert Hinv. apply tree_inv_part, tree_part_dispose.
  - revert Hinv. apply tree_inv_part. by open_goofy g.
  - revert Hinv.
    apply tree_inv_part, (tree_part_setPendingShutdown (Some si)).
  - done.
Qed.

Lemma tree_inv_step h i g : tree_inv g → tree_inv (step h i g).
Proof.
  intros Hinv. destruct i; simpl.
  - revert Hinv. apply tree_inv_part. by open_goofy g.
  - revert Hinv. apply tree_inv_part. by open_goofy g.
  - by apply tree_inv_handleBackendEvent.
  - revert Hinv. apply tree_inv_part, tree_part_keepAlive.
  - revert Hinv. apply tree_inv_part.
    unfold timerTick. repeat case_match; by open_goofy g.
  - revert Hinv. apply tree_inv_part, tree_part_sendEvent.
  - revert Hinv. apply tree_inv_part.
    unfold promptEngineeringPassword, openDialog.
    repeat case_match; simplify_eq; by open_goofy g.
  - revert Hinv. apply tree_inv_part.
    unfold passwordEntered. repeat case_match; by open_goofy g.
  - by apply tree_inv_setTestList.
  - by apply tree_inv_testStatesReceived.
  - revert Hinv. apply tree_inv_part. by open_goofy g.
  - revert Hinv. apply tree_inv_part. by open_goofy g.
  - revert Hinv. apply tree_inv_part, tree_part_sendEvent.
  - revert Hinv. apply tree_inv_part. by open_goofy g.
  - destruct (Test_pass_cases a g) as [->|[ev ->]]; [done|]. revert Hinv.
    apply tree_inv_part. by rewrite tree_part_dispose, tree_part_sendEvent.
  - destruct (Test_fail_cases a errorMsg g) as [->|[ev ->]]; [done|].
    revert Hinv.
    apply tree_inv_part. by rewrite tree_part_dispose, tree_part_sendEvent.
  - unfold Test_sendTestEvent. case_match; [|done]. revert Hinv.
    apply tree_inv_part, tree_part_sendEvent.
Qed.

Lemma tree_inv_run h inputs : ∀ g, tree_inv g → tree_inv (run h inputs g).
Proof.
  unfold run. induction inputs as [|i l IH]; intros g H; simpl; [done|].
  by apply IH, tree_inv_step.
Qed.

Lemma tree_inv_new : tree_inv Goofy_new.
Proof. split; intros p; [intros [? H]|intros ? ? H]; done. Qed.

(** In every state the controller can reach, a path that has a tree node
    has a test-list entry, and that entry carries the path: the paths of
    the tree model are those of [pathNodeMap]. *)
Lemma reachable_tree_model (h : string → string) (inputs : list Input)
    (p : string) :
  let g := run h inputs Goofy_new in
  is_Some (pathNodeMap g !! p) →
  ∃ t, test_of p g = Some t ∧ path t = p.
Proof.
  intros g Hn.
  destruct (tree_inv_run h inputs Goofy_new tree_inv_new) as [H1 H2].
  fold g in H1, H2. destruct (H1 p Hn) as [[r pos] Hp].
  destruct (H2 p r pos Hp) as (root & t & Hr & He & Hpt).
  exists t. split; [|done]. unfold test_of. rewrite Hp. simpl.
  by rewrite Hr.
Qed.

(** ** The shutdown countdown *)

(** C3 (as amended). For the countdown of the current shutdown dialog, with
    target time T and delay D, a tick at the instant now gives the progress
    bar 100 times the fraction clamp((now - (T - D)) / (T - (T - D)), 0, 1),
    every operation being one on doubles: the divisor is the end time
    minus the start time as the code computes them.  That is the fraction
    of the specification, clamp((now - (T - D)) / D, 0, 1), whenever
    T - (T - D) is D itself.  The seconds written are
    1 + floor(max(0, T - now)), and the plural suffix is empty exactly when
    the seconds written equal 1. *)
Theorem countdown_display (g : Goofy) (i : nat) (d : Dialog)
    (si : PendingShutdownEvent) (T now : Js.number) :
  shutdownDialog g = Some i →
  dialogs (page g) !! i = Some d →
  timer d = true →
  info d = Some si →
  time si = Some T →
  let D := delay_secs si in
  ∃ d' c,
    dialogs (page (timerTick i now g)) !! i = Some d'
    ∧ countdown d' = Some c
    ∧ progress c = Js.mul (code_fraction T D now) (Js.of_Z 100)
    ∧ (Js.sub T (Js.sub T D) = D →
       progress c = Js.mul (spec_fraction T D now) (Js.of_Z 100))
    ∧ secondsLeft c = spec_seconds T now
    ∧ (plural c = "" ↔ Js.eqb (secondsLeft c) (Js.of_Z 1) = true).
Proof.
  intros _ Hd Ht Hi HT D.
  unfold timerTick. rewrite Hd, Ht, Hi, HT.
  exists (show (tick T D now) d), (tick T D now).
  split.
  { open_goofy g. simpl in *. by rewrite list_lookup_alter_eq, Hd. }
  split; [done|].
  unfold tick, code_fraction, spec_fraction, spec_seconds.
  cbn [progress secondsLeft plural].
  split_and!; [done| |done|].
  - by intros ->.
  - by destruct (Js.eqb _ _).
Qed.

Lemma countdown_display_witness :
  ∃ d' c,
    dialogs (page (timerTick 0 (Js.div (Js.of_Z 199) (Js.of_Z 2))
                     sample_countdown)) !! 0%nat
    = Some d'
    ∧ countdown d' = Some c
    ∧ progress c
      = Js.mul
          (code_fraction (Js.of_Z 100) (Js.of_Z 10)
             (Js.div (Js.of_Z 199) (Js.of_Z 2)))
          (Js.of_Z 100)
    ∧ (Js.sub (Js.of_Z 100) (Js.sub (Js.of_Z 100) (Js.of_Z 10)) = Js.of_Z 10 →
       progress c
       = Js.mul
           (spec_fraction (Js.of_Z 100) (Js.of_Z 10)
              (Js.div (Js.of_Z 199) (Js.of_Z 2)))
           (Js.of_Z 100))
    ∧ secondsLeft c
      = spec_seconds (Js.of_Z 100) (Js.div (Js.of_Z 199) (Js.of_Z 2))
    ∧ (plural c = "" ↔ Js.eqb (secondsLeft c) (Js.of_Z 1) = true).
Proof.
  eapply (countdown_display sample_countdown 0 _ sample_shutdown
            (Js.of_Z 100) (Js.div (Js.of_Z 199) (Js.of_Z 2))).
  all: vm_compute; reflexivity.
Defined.

(** C3 as stated fails on doubles.  A reboot due at 1350000000.5, announced
    0.1 seconds ahead: the start time 1350000000.4 is rounded, so the end
    time minus the start time is 0.09999990463256836, not 0.1.  At the
    instant 1350000000.45 the bar is given 50, where the fraction of the
    specification, with the divisor D, gives 49.99995231628418. *)
Lemma countdown_fraction_is_rounded :
  let T := Js.div (Js.of_Z 2700000001) (Js.of_Z 2) in
  let D := Js.div (Js.of_Z 1) (Js.of_Z 10) in
  let now := Js.div (Js.of_Z 135000000045) (Js.of_Z 100) in
  let si := {| delay_secs := D; time := Some T; operation := "reboot";
               iteration := 1; iterations := 1 |} in
  let g := run Sha1.hex [SocketOpened; SocketMessage (PendingShutdown si)]
             Goofy_new in
  shutdownDialog g = Some 0%nat
  ∧ Js.sub T (Js.sub T D) = S754_finite false 7205752531845120 (-56)
  ∧ D = S754_finite false 7205759403792794 (-56)
  ∧ (progress <$> (dialogs (page (timerTick 0 now g)) !! 0%nat ≫= countdown))
    = Some (Js.of_Z 50)
  ∧ Js.mul (spec_fraction T D now) (Js.of_Z 100)
    = S754_finite false 7036867706880000 (-47).
Proof. vm_compute. done. Qed.

(** Half a second before a reboot announced ten seconds ahead: 95 per cent,
    "1 second".  A whole second before it: "2 seconds", also when the two
    times are 1.071 and 0.071, whose difference is rounded to 1. *)
Example tick_half_a_second_left :
  let c := tick (Js.of_Z 100) (Js.of_Z 10) (Js.div (Js.of_Z 199) (Js.of_Z 2)) in
  let c1 := tick (Js.div (Js.of_Z 1071) (Js.of_Z 1000)) (Js.of_Z 10)
              (Js.div (Js.of_Z 71) (Js.of_Z 1000)) in
  progress c = Js.of_Z 95
  ∧ secondsLeft c = Js.of_Z 1
  ∧ plural c = ""
  ∧ secondsLeft c1 = Js.of_Z 2
  ∧ plural c1 = "s".
Proof. vm_compute. done. Qed.

(** ** The engineering-mode password *)

Lemma alerts_alert (html : string) (g : Goofy) :
  alerts (alert html g) = alerts g ++ [html].
Proof.
  open_goofy g. unfold alerts, alert, openDialog; simpl.
  by rewrite filter_app, fmap_app.
Qed.

Lemma alerts_setEngineeringMode (b : bool) (g : Goofy) :
  alerts (setEngineeringMode b g) = alerts g.
Proof. by open_goofy g. Qed.

Lemma engineeringMode_alert (html : string) (g : Goofy) :
  engineeringMode (alert html g) = engineeringMode g.
Proof. by open_goofy g. Qed.

Lemma engineeringMode_setEngineeringMode (b : bool) (g : Goofy) :
  engineeringMode (setEngineeringMode b g) = b.
Proof. by open_goofy g. Qed.

(** C4 (as amended). In the password prompt, an empty text changes nothing
    and produces no alert.  For every non-empty text: if its SHA-1 hex
    digest equals the stored hash, engineering mode is switched on and no
    alert is produced; otherwise engineering mode stays as it was and
    exactly one alert, "Incorrect password.", is produced. *)
Theorem password_gate (sha1hex : string → string) (g : Goofy)
    (text : string) :
  let g' := passwordEntered sha1hex (Some text) g in
  if decide (text = "") then g' = g
  else if decide (Some (sha1hex text) = engineeringPasswordSHA1 g) then
    engineeringMode g' = true ∧ alerts g' = alerts g
  else
    engineeringMode g' = engineeringMode g
    ∧ alerts g' = alerts g ++ ["Incorrect password."].
Proof.
  unfold passwordEntered; simpl.
  case_decide as Ht.
  - subst text. done.
  - assert (String.eqb text "" = false) as -> by (by apply String.eqb_neq).
    rewrite bool_decide_eq_false_2 by congruence. simpl.
    case_decide as Hh.
    + rewrite bool_decide_eq_true_2 by done.
      by rewrite engineeringMode_setEngineeringMode, alerts_setEngineeringMode.
    + rewrite bool_decide_eq_false_2 by done.
      by rewrite engineeringMode_alert, alerts_alert.
Qed.

(** C4 as stated fails on the empty text: with the hash of "secret" stored
    and the prompt open, answering with the empty text (whose digest is not
    the stored hash) leaves the gate locked but produces no alert. *)
Lemma empty_password_gives_no_alert :
  let g := step Sha1.hex PromptKey sample_locked in
  let g' := step Sha1.hex (PromptAnswer (Some "")) g in
  Some (Sha1.hex "") ≠ engineeringPasswordSHA1 g
  ∧ engineeringMode g = false
  ∧ engineeringMode g' = false
  ∧ alerts g' = alerts g.
Proof. vm_compute. split_and!; done. Qed.

(** The right password unlocks, a wrong one is answered by one alert. *)
Example password_secret_unlocks :
  let g := step Sha1.hex PromptKey sample_locked in
  engineeringMode (step Sha1.hex (PromptAnswer (Some "secret")) g) = true
  ∧ alerts (step Sha1.hex (PromptAnswer (Some "secret")) g) = []
  ∧ engineeringMode (step Sha1.hex (PromptAnswer (Some "Secret")) g) = false
  ∧ alerts (step Sha1.hex (PromptAnswer (Some "Secret")) g)
    = ["Incorrect password."].
Proof. vm_compute. done. Qed.

(** ** The context menu *)

Lemma tally_app (a b : list string) (m : gmap string nat) :
  tally (a ++ b) m = tally b (tally a m).
Proof. unfold tally. by rewrite foldl_app. Qed.

Lemma tally_lookup (s : string) (sts : list string) :
  ∀ m, or0 (tally sts m !! s) = (or0 (m !! s) + occurrences s sts)%nat.
Proof.
  unfold occurrences.
  induction sts as [|x sts IH]; intros m; simpl; [lia|].
  fold (tally sts (<[x:=(1 + default 0 (m !! x))%nat]> m)).
  rewrite IH. destruct (decide (x = s)) as [->|Hne].
  - rewrite lookup_insert_eq, filter_cons_True by done.
    unfold or0. simpl. lia.
  - rewrite lookup_insert_ne, filter_cons_False by done. lia.
Qed.

Lemma leaves_group (t : TestListEntry) :
  subtests t ≠ [] → leaves t = flat_map leaves (subtests t).
Proof. by destruct t as [? ? ? ? [|x l] ?]. Qed.

(** [countLeaves] counts the leaves of the subtree and tallies their
    statuses, provided every leaf has a state. *)
Lemma countLeaves_spec (t : TestListEntry) :
  ∀ c, Forall (λ l, is_Some (state l)) (leaves t) →
    ∃ ps, countLeaves t c
          = Some {| numLeaves := numLeaves c + length (leaves t);
                    numLeavesByStatus :=
                      tally (leaf_statuses t) (numLeavesByStatus c);
                    allPaths := ps |}.
Proof.
  induction t as [p le lz k l st IH] using TestListEntry_nested_ind.
  intros c Hst.
  assert (Forall (λ l, is_Some (state l)) (flat_map leaves l) →
    ∀ c0, ∃ ps,
      forEach countLeaves l c0
      = Some {| numLeaves := numLeaves c0 + length (flat_map leaves l);
                numLeavesByStatus :=
                  tally (omap (λ l, status <$> state l) (flat_map leaves l))
                    (numLeavesByStatus c0);
                allPaths := ps |}) as Hl.
  { clear c Hst. intros Hst.
    induction IH as [|y l Hy _ IHl]; intros c0.
    - exists (allPaths c0). simpl. destruct c0; simpl. do 2 f_equal. lia.
    - simpl in Hst. apply Forall_app in Hst as [Hy1 Hl1].
      destruct (Hy c0 Hy1) as [ps1 E1].
      cbn [forEach]. rewrite E1.
      destruct (IHl Hl1 {| numLeaves := numLeaves c0 + length (leaves y);
                  numLeavesByStatus :=
                    tally (leaf_statuses y) (numLeavesByStatus c0);
                  allPaths := ps1 |}) as [ps2 E2].
      exists ps2. rewrite E2. simpl.
      rewrite length_app, omap_app, tally_app. do 2 f_equal. lia. }
  destruct l as [|x l].
  - (* a leaf *)
    simpl in *. apply Forall_cons in Hst as [[s Hs] _]. simpl in Hs. subst st.
    eexists. unfold leaf_statuses; simpl. do 3 f_equal. lia.
  - (* a group *)
    rewrite leaves_group in Hst by done. simpl subtests in Hst.
    cbn [countLeaves subtests path state].
    destruct (Hl Hst {| numLeaves := numLeaves c;
                        numLeavesByStatus := numLeavesByStatus c;
                        allPaths := allPaths c ++ [p] |}) as [ps E].
    rewrite E. exists ps. done.
Qed.

Lemma count_status_cons (s : string) (sts : list string)
    (L : list TestListEntry) :
  s ∉ sts →
  Forall (λ l, is_Some (state l)) L →
  length (filter (λ l, has_status (s :: sts) l = true) L)
  = (occurrences s (omap (λ l, status <$> state l) L)
     + length (filter (λ l, has_status sts l = true) L))%nat.
Proof.
  intros Hs HL. unfold occurrences.
  induction HL as [|l L [st Hst] _ IH]; [done|].
  assert (has_status (s :: sts) l
          = bool_decide (status st = s) || has_status sts l) as Hl.
  { unfold has_status. rewrite Hst.
    destruct (bool_decide_reflect (status st = s)) as [E|E];
      destruct (bool_decide_reflect (status st ∈ sts)) as [I|I]; simpl;
      [apply bool_decide_eq_true ..|apply bool_decide_eq_false];
      rewrite elem_of_cons; tauto. }
  assert (bool_decide (status st = s) = true → has_status sts l = false)
    as Hx.
  { unfold has_status. rewrite Hst. intros ?%bool_decide_eq_true.
    apply bool_decide_eq_false. congruence. }
  cbn [omap list_omap]. rewrite Hst. cbn [fmap option_fmap option_map].
  rewrite !filter_cons, Hl.
  destruct (bool_decide_reflect (status st = s)) as [E|E].
  - rewrite Hx by done. simpl. rewrite decide_True by done.
    simpl. by rewrite IH.
  - simpl. rewrite (decide_False (P := status st = s)) by done.
    destruct (has_status sts l).
    + rewrite !decide_True by done. simpl. rewrite IH. lia.
    + rewrite !decide_False by done. by rewrite IH.
Qed.

Lemma count_status_nil (L : list TestListEntry) :
  length (filter (λ l, has_status [] l = true) L) = 0%nat.
Proof.
  induction L as [|l L IH]; [done|].
  rewrite filter_cons_False; [done|].
  unfold has_status. destruct (state l); [|done].
  rewrite bool_decide_eq_false_2; [done|]. apply not_elem_of_nil.
Qed.

(** The menu of an entry that has a state and whose leaves all have one. *)
Lemma testMenu_spec (p : string) (t : TestListEntry) :
  is_Some (state t) →
  Forall (λ l, is_Some (state l)) (leaves t) →
  ∃ verb,
    testMenu p t [] =
      Some ([Item (makeMenuItem verb "" (length (leaves t))
                     ("goofy:restart_tests", Some {[ "path" := Js.Str p ]})
                     false)]
            ++ (if decide (subtests t = []) then []
                else
                  [Item (makeMenuItem "Restart" "not passed"
                           (count_leaves ["UNTESTED"; "ACTIVE"; "FAILED"] t)
                           ("goofy:run_tests_with_status",
                            Some {[ "status" :=
                                      Js.Arr ["UNTESTED"; "ACTIVE"; "FAILED"];
                                    "path" := Js.Str p ]}) true);
                   Item (makeMenuItem "Run" "untested"
                           (count_leaves ["UNTESTED"; "ACTIVE"] t)
                           ("goofy:auto_run",
                            Some {[ "path" := Js.Str p ]}) false)])
            ++ [MenuSeparator;
                Item (makeMenuItem "Stop" "active"
                        (count_leaves ["ACTIVE"] t)
                        ("goofy:stop", None) false)]).
Proof.
  intros [st0 Hst0] Hst. unfold testMenu.
  destruct (countLeaves_spec t
              {| numLeaves := 0; numLeavesByStatus := ∅; allPaths := [] |} Hst)
    as [ps E].
  rewrite E, Hst0. cbn [numLeaves numLeavesByStatus].
  eexists. rewrite !tally_lookup, !lookup_empty. cbn [or0 default].
  unfold count_leaves.
  rewrite !count_status_cons, count_status_nil; try done;
    try (rewrite ?elem_of_cons, elem_of_nil; intuition discriminate).
  fold (leaf_statuses t).
  destruct (subtests t) as [|x l] eqn:Hsub; simpl;
    by rewrite ?Nat.add_0_r, ?Nat.add_assoc.
Qed.

Lemma makeMenuItem_enabled v a n h e :
  enabled (makeMenuItem v a n h e) = false
  ↔ itemCount (makeMenuItem v a n h e) = 0%nat.
Proof. simpl. destruct n; simpl; split; done. Qed.

Lemma showTestPopup_menu (g : Goofy) (p : string) (t : TestListEntry) :
  test_of p g = Some t → (showTestPopup p [] g).2 = testMenu p t [].
Proof.
  intros Ht. unfold showTestPopup. simpl.
  replace (test_of p (with_contextMenuVisible true g)) with (test_of p g)
    by (by open_goofy g).
  by rewrite Ht.
Qed.

(** A clicked entry that has no state gets no menu, whatever the states of
    its leaves: reading [test.state.status] raises before the menu is
    rendered. *)
Lemma testMenu_needs_state (p : string) (t : TestListEntry)
    (extraItems : list MenuItem) :
  state t = None → testMenu p t extraItems = None.
Proof. intros Hs. unfold testMenu. rewrite Hs. by destruct (countLeaves t _). Qed.

(** C5 (as amended). For the entry at the clicked path, which has a state
    and all of whose leaves have a state, the menu always holds a
    run/restart-all item counting the
    leaves of the subtree and, after a separator, a stop item counting the
    leaves whose status is ACTIVE.  When the entry has subtests the menu
    also holds, between the two, a restart item counting the leaves whose
    status is UNTESTED, ACTIVE or FAILED and a run item counting the leaves
    whose status is UNTESTED or ACTIVE; when the entry is itself a leaf
    these two items are not in the menu.  Every item in the menu is
    disabled exactly when its count is zero. *)
Theorem context_menu_counts (g : Goofy) (p : string) (t : TestListEntry) :
  test_of p g = Some t →
  is_Some (state t) →
  Forall (λ l, is_Some (state l)) (leaves t) →
  ∃ runAll stop,
    itemCount runAll = length (leaves t)
    ∧ adjectiveEn stop = "active"
    ∧ itemCount stop = count_leaves ["ACTIVE"] t
    ∧ (enabled runAll = false ↔ itemCount runAll = 0%nat)
    ∧ (enabled stop = false ↔ itemCount stop = 0%nat)
    ∧ if decide (subtests t = []) then
        (showTestPopup p [] g).2
        = Some [Item runAll; MenuSeparator; Item stop]
      else
        ∃ notPassed untested,
          (showTestPopup p [] g).2
          = Some [Item runAll; Item notPassed; Item untested;
                  MenuSeparator; Item stop]
          ∧ adjectiveEn notPassed = "not passed"
          ∧ itemCount notPassed
            = count_leaves ["UNTESTED"; "ACTIVE"; "FAILED"] t
          ∧ adjectiveEn untested = "untested"
          ∧ itemCount untested = count_leaves ["UNTESTED"; "ACTIVE"] t
          ∧ (enabled notPassed = false ↔ itemCount notPassed = 0%nat)
          ∧ (enabled untested = false ↔ itemCount untested = 0%nat).
Proof.
  intros Ht Hs Hst.
  destruct (testMenu_spec p t Hs Hst) as [verb E].
  rewrite (showTestPopup_menu g p t Ht), E. clear E.
  eexists _, _. split_and!; [| | |apply makeMenuItem_enabled ..|].
  4: { case_decide.
       - reflexivity.
       - eexists _, _.
         split_and!; [reflexivity| | | | |apply makeMenuItem_enabled ..];
           reflexivity. }
  all: reflexivity.
Qed.

(** The subtree "SMT" of the sample has the leaves UNTESTED: 2, FAILED: 1,
    PASSED: 3; the counts are 3, 2 and 0. *)
Lemma context_menu_counts_witness :
  ∃ runAll stop,
    itemCount runAll = 6%nat
    ∧ adjectiveEn stop = "active"
    ∧ itemCount stop = 0%nat
    ∧ (enabled runAll = false ↔ itemCount runAll = 0%nat)
    ∧ (enabled stop = false ↔ itemCount stop = 0%nat)
    ∧ ∃ notPassed untested,
          (showTestPopup "SMT" [] sample).2
          = Some [Item runAll; Item notPassed; Item untested;
                  MenuSeparator; Item stop]
          ∧ adjectiveEn notPassed = "not passed"
          ∧ itemCount notPassed = 3%nat
          ∧ adjectiveEn untested = "untested"
          ∧ itemCount untested = 2%nat
          ∧ (enabled notPassed = false ↔ itemCount notPassed = 0%nat)
          ∧ (enabled untested = false ↔ itemCount untested = 0%nat).
Proof.
  refine (context_menu_counts sample "SMT"
            (default (leaf "") (test_of "SMT" sample)) _ _ _).
  - vm_compute. reflexivity.
  - vm_compute. eexists; reflexivity.
  - vm_compute. repeat constructor; eexists; reflexivity.
Defined.

(** C5 as stated fails for a clicked leaf: the menu of the passed leaf "FA"
    holds the restart item, a separator and the stop item, and nothing
    else; the items for not-passed and untested tests, whose counts would
    be zero, are absent rather than disabled. *)
Lemma context_menu_of_a_leaf :
  (leaves <$> test_of "FA" sample)
  = Some [with_state (Some (with_status "PASSED")) (leaf "FA")]
  ∧ (showTestPopup "FA" [] sample).2
    = Some [Item (makeMenuItem "Restart" "" 1
                    ("goofy:restart_tests", Some {[ "path" := Js.Str "FA" ]})
                    false);
            MenuSeparator;
            Item (makeMenuItem "Stop" "active" 0 ("goofy:stop", None) false)].
Proof. vm_compute. done. Qed.

Lemma sent_sendEvent (ty : string) (props : option Event) (g : Goofy) :
  isOpen (ws g) = true →
  sent (ws (sendEvent ty props g))
  = sent (ws g) ++ [<["type" := Js.Str ty]> (default ∅ props)].
Proof. intros Ho. unfold sendEvent, send. rewrite Ho. by open_goofy g. Qed.

(** On an open socket every item of a menu sends exactly one event when
    selected; the event of every item but "Stop" carries the path of the
    clicked entry. *)
Lemma menu_actions_send_one_event (p : string) (t : TestListEntry)
    (menu : list MenuChild) (item : MenuItem) (g : Goofy) :
  isOpen (ws g) = true →
  testMenu p t [] = Some menu →
  Item item ∈ menu →
  ∃ ev, sent (ws (select item g)) = sent (ws g) ++ [ev]
        ∧ (ev !! "path" = Some (Js.Str p)
           ∨ ev = {[ "type" := Js.Str "goofy:stop" ]}).
Proof.
  intros Ho. unfold testMenu. destruct (countLeaves t _) as [c|]; [|done].
  destruct (state t) as [st0|]; [|done].
  intros [= <-]. unfold select. setoid_rewrite (sent_sendEvent _ _ g Ho).
  destruct (negb (length (subtests t) =? 0)%nat); simpl;
    rewrite ?elem_of_cons, elem_of_nil;
    intros H; repeat destruct H as [H|H]; try done; simplify_eq; simpl.
  all: eexists; (split; [reflexivity|]).
  all: try (left; reflexivity).
  all: right; reflexivity.
Qed.

(** C6, evaluated where it fails.  With "SMT.LED" running, the menu of
    "SMT" ends with an enabled "Stop" item; selecting it sends exactly one
    event, and that event is [{type: "goofy:stop"}]: it does not carry the
    path of the clicked entry. *)
Theorem stop_action_carries_no_path :
  let stop := makeMenuItem "Stop" "active" 1 ("goofy:stop", None) false in
  (last <$> (showTestPopup "SMT" [] sample_active).2)
  = Some (Some (Item stop))
  ∧ enabled stop = true
  ∧ sent (ws (select stop sample_active))
    = sent (ws sample_active) ++ [{[ "type" := Js.Str "goofy:stop" ]}]
  ∧ ({[ "type" := Js.Str "goofy:stop" ]} : Event) !! "path" = None.
Proof. vm_compute. done. Qed.

(** ** Invocations *)

(** C7. For a run id bound to a live invocation, get-or-create returns that
    invocation and leaves the whole controller as it was, whatever path it
    is given: no invocation and no iframe is created. *)
Theorem getOrCreateInvocation_idempotent
    (g : Goofy) (u : string) (a f : nat) (p : string) :
  live u a f g →
  getOrCreateInvocation p u g = (g, Some a).
Proof.
  intros (Hu & _). unfold getOrCreateInvocation. by rewrite Hu.
Qed.

Lemma getOrCreateInvocation_idempotent_witness :
  getOrCreateInvocation "another.path" "u1" sample_running
  = (sample_running, Some 0%nat).
Proof.
  apply (getOrCreateInvocation_idempotent sample_running "u1" 0 0
           "another.path").
  split; [vm_compute; reflexivity|].
  eexists. split_and!; [vm_compute; reflexivity ..|].
  vm_compute. apply list_elem_of_here.
Defined.

(** A second reference right after the first finds what the first made. *)
Lemma getOrCreateInvocation_twice (g : Goofy) (u p1 p2 : string) :
  let '(g1, r1) := getOrCreateInvocation p1 u g in
  getOrCreateInvocation p2 u g1 = (g1, r1).
Proof.
  unfold getOrCreateInvocation.
  destruct (invocations g !! u) as [r|] eqn:Hu.
  - by rewrite Hu.
  - open_goofy g. simpl in *. by rewrite lookup_insert_eq.
Qed.

(** ** One countdown at a time *)

Lemma countdown_inv_part (g g' : Goofy) :
  countdown_part g' = countdown_part g → countdown_inv g → countdown_inv g'.
Proof. unfold countdown_inv. by intros [= -> ->]. Qed.

Lemma countdown_part_outside_tree (g g' : Goofy) :
  outside_tree g' = outside_tree g → countdown_part g' = countdown_part g.
Proof. unfold outside_tree, countdown_part. congruence. Qed.

Lemma dialogs_with_dialog_at (j : nat) (upd : Dialog → Dialog) (g : Goofy) :
  dialogs (page (with_dialog_at j upd g)) = alter upd j (dialogs (page g)).
Proof. by open_goofy g. Qed.

Lemma shutdownDialog_with_dialog_at (j : nat) (upd : Dialog → Dialog)
    (g : Goofy) :
  shutdownDialog (with_dialog_at j upd g) = shutdownDialog g.
Proof. by open_goofy g. Qed.

Lemma lookup_alter_dialog (j i : nat) (upd : Dialog → Dialog)
    (l : list Dialog) (d : Dialog) :
  alter upd j l !! i = Some d →
  ∃ d0, l !! i = Some d0 ∧ d = if decide (i = j) then upd d0 else d0.
Proof.
  case_decide as E.
  - subst j. rewrite list_lookup_alter_eq. destruct (l !! i) as [d0|]; [|done].
    intros [= <-]. eauto.
  - rewrite list_lookup_alter_ne by done. eauto.
Qed.

Lemma hidden_facts (d : Dialog) :
  kind (disposeDialog (hide d)) = kind d
  ∧ visible (disposeDialog (hide d)) = false
  ∧ disposed (disposeDialog (hide d)) = true
  ∧ ((timer d = true → visible d = true) →
     timer (disposeDialog (hide d)) = false).
Proof.
  unfold hide. destruct d as [k c i [] ds [] cd]; simpl; split_and!; try done.
  intros H. by specialize (H eq_refl).
Qed.

(** Hiding and disposing of any dialog keeps the invariant. *)
Lemma countdown_inv_hide (j : nat) (g : Goofy) :
  countdown_inv g →
  countdown_inv (with_dialog_at j (λ d, disposeDialog (hide d)) g).
Proof.
  intros Hinv i d. rewrite dialogs_with_dialog_at, shutdownDialog_with_dialog_at.
  intros (d0 & H0 & ->)%lookup_alter_dialog.
  case_decide as E; [|by apply Hinv].
  destruct (hidden_facts d0) as (_ & -> & _ & Ht).
  rewrite Ht by (intros Hd0; by apply (Hinv i d0 H0)). done.
Qed.

Lemma no_countdown_of_inv (g : Goofy) :
  countdown_inv g → shutdownDialog g = None → no_countdown g.
Proof.
  intros Hinv Hn i d H0. destruct (Hinv i d H0) as [Hv Ht].
  assert (kind d = ShutdownDialog → visible d = false) as Hk.
  { intros Hk. destruct (visible d); [|done].
    specialize (Hv Hk eq_refl). congruence. }
  split; [done|]. destruct (timer d); [|done].
  destruct (Ht eq_refl) as [Hv1 Hk1]. rewrite (Hk Hk1) in Hv1. done.
Qed.

Lemma no_countdown_inv (g : Goofy) : no_countdown g → countdown_inv g.
Proof.
  intros Hn i d H0. destruct (Hn i d H0) as [Hv ->]. split; [|done].
  intros Hk Hv1. rewrite (Hv Hk) in Hv1. done.
Qed.

(** Once the dialog [shutdownDialog] refers to is hidden, no countdown is
    left. *)
Lemma no_countdown_clear (g : Goofy) :
  countdown_inv g → no_countdown (clearShutdownDialog g).
Proof.
  intros Hinv. unfold clearShutdownDialog.
  destruct (shutdownDialog g) as [j|] eqn:Hj; [|by apply no_countdown_of_inv].
  intros i d.
  replace (dialogs (page (with_shutdownDialog None
             (with_dialog_at j (λ d, disposeDialog (hide d)) g))))
    with (alter (λ d, disposeDialog (hide d)) j (dialogs (page g)))
    by (by open_goofy g).
  intros (d0 & H0 & ->)%lookup_alter_dialog.
  destruct (Hinv i d0 H0) as [Hv Ht].
  case_decide as E.
  - destruct (hidden_facts d0) as (_ & Hv0 & _ & Ht0).
    rewrite Hv0, Ht0; [done|]. intros Hd0. by apply Ht.
  - assert (kind d0 = ShutdownDialog → visible d0 = false) as Hk.
    { intros Hk. destruct (visible d0); [|done].
      specialize (Hv Hk eq_refl). congruence. }
    split; [done|]. destruct (timer d0); [|done].
    destruct (Ht eq_refl) as [Hv1 Hk1]. rewrite (Hk Hk1) in Hv1. done.
Qed.

Lemma no_countdown_closeDialog (g : Goofy) :
  no_countdown g → no_countdown (closeDialog g).
Proof.
  intros Hn. unfold closeDialog. destruct (dialog g) as [j|]; [|done].
  intros i d.
  replace (dialogs (page (with_dialog None
             (with_dialog_at j (λ d, disposeDialog (hide d)) g))))
    with (alter (λ d, disposeDialog (hide d)) j (dialogs (page g)))
    by (by open_goofy g).
  intros (d0 & H0 & ->)%lookup_alter_dialog.
  case_decide as E; [|by apply (Hn i)].
  destruct (hidden_facts d0) as (_ & Hv & _ & Ht).
  rewrite Hv, Ht; [done|]. destruct (Hn i d0 H0) as [_ ->]. done.
Qed.

(** Opening a dialog that is not a shutdown dialog and has no timer. *)
Lemma countdown_inv_openDialog (d : Dialog) (g : Goofy) :
  kind d ≠ ShutdownDialog → timer d = false →
  countdown_inv g → countdown_inv (openDialog d g).1.
Proof.
  intros Hk Ht Hinv i d1.
  replace (dialogs (page (openDialog d g).1)) with (dialogs (page g) ++ [d])
    by (by open_goofy g).
  replace (shutdownDialog (openDialog d g).1) with (shutdownDialog g)
    by (by open_goofy g).
  intros [H|[_ H]]%lookup_app_Some; [by apply Hinv|].
  apply list_lookup_singleton_Some in H as [_ <-]. rewrite Ht. done.
Qed.

Lemma setPendingShutdown_unfold (si : option PendingShutdownEvent)
    (g : Goofy) :
  setPendingShutdown si g
  = match si with
    | None => clearShutdownDialog g
    | Some si =>
        if no_time si then clearShutdownDialog g
        else
          let g2 := closeDialog (clearShutdownDialog g) in
          let '(g3, i) :=
            openDialog {| kind := ShutdownDialog;
                          content := if String.eqb (operation si) "reboot"
                                     then "Rebooting" else "Shutting down";
                          info := Some si; visible := true; disposed := false;
                          timer := true; countdown := None |} g2 in
          with_shutdownDialog (Some i) g3
    end.
Proof. reflexivity. Qed.

Lemma countdown_inv_setPendingShutdown (si : option PendingShutdownEvent)
    (g : Goofy) :
  countdown_inv g → countdown_inv (setPendingShutdown si g).
Proof.
  intros Hinv. rewrite setPendingShutdown_unfold.
  pose proof (no_countdown_clear g Hinv) as Hn.
  destruct si as [si|]; [|by apply no_countdown_inv].
  destruct (no_time si); [by apply no_countdown_inv|].
  apply no_countdown_closeDialog in Hn.
  set (g2 := closeDialog (clearShutdownDialog g)) in *.
  unfold openDialog. cbv zeta. intros i d.
  match goal with
  | |- context [with_dialogs (_ ++ [?nd]) _] => set (new := nd)
  end.
  replace (dialogs (page (with_shutdownDialog _ _)))
    with (dialogs (page g2) ++ [new]) by (by open_goofy g2).
  replace (shutdownDialog (with_shutdownDialog _ _))
    with (Some (length (dialogs (page g2)))) by (by open_goofy g2).
  intros [H|[Hlen H]]%lookup_app_Some.
  - destruct (Hn i d H) as [Hv ->]. split; [|done].
    intros Hk Hv1. rewrite (Hv Hk) in Hv1. done.
  - apply list_lookup_singleton_Some in H as [Hi <-]. simpl.
    split; [|done]. intros _ _. f_equal. lia.
Qed.

Lemma countdown_part_sendEvent ty props g :
  countdown_part (sendEvent ty props g) = countdown_part g.
Proof.
  unfold sendEvent, send. destruct (isOpen (ws g)); by open_goofy g.
Qed.

Lemma countdown_part_keepAlive g :
  countdown_part (keepAlive g) = countdown_part g.
Proof. unfold keepAlive. case_match; [apply countdown_part_sendEvent|done]. Qed.

Lemma countdown_part_dispose a g :
  countdown_part (dispose a g) = countdown_part g.
Proof. unfold dispose. repeat case_match; try done; by open_goofy g. Qed.

Lemma countdown_part_in_sandbox r upd g :
  countdown_part (in_sandbox r upd g) = countdown_part g.
Proof. unfold in_sandbox. repeat case_match; try done; by open_goofy g. Qed.

Lemma countdown_part_sandbox p u upd g :
  countdown_part
    (let '(g1, r) := getOrCreateInvocation p u g in in_sandbox r upd g1)
  = countdown_part g.
Proof.
  unfold getOrCreateInvocation.
  destruct (invocations g !! u) as [r|].
  - apply countdown_part_in_sandbox.
  - unfold newInvocation. rewrite countdown_part_in_sandbox. by open_goofy g.
Qed.

Lemma countdown_inv_alert html g :
  countdown_inv g → countdown_inv (alert html g).
Proof. intros H. unfold alert. by apply countdown_inv_openDialog. Qed.

Lemma countdown_inv_setEngineeringMode b g :
  countdown_inv g → countdown_inv (setEngineeringMode b g).
Proof. apply countdown_inv_part. by open_goofy g. Qed.

Lemma countdown_inv_timerTick i now g :
  countdown_inv g → countdown_inv (timerTick i now g).
Proof.
  intros Hinv. unfold timerTick.
  destruct (dialogs (page g) !! i) as [di|]; [|done].
  destruct (timer di); [|done].
  destruct (info di) as [si|]; [|done].
  destruct (time si) as [t|]; [|done].
  intros j dj. rewrite dialogs_with_dialog_at, shutdownDialog_with_dialog_at.
  intros (d0 & H0 & ->)%lookup_alter_dialog.
  case_decide; [|by apply Hinv]. by apply (Hinv j d0).
Qed.

Lemma countdown_inv_promptEngineeringPassword g :
  countdown_inv g → countdown_inv (promptEngineeringPassword g).
Proof.
  intros Hinv. unfold promptEngineeringPassword.
  set (g1 := match engineeringModeDialog g with Some i => _ | None => g end).
  assert (countdown_inv g1) as H1.
  { unfold g1. destruct (engineeringModeDialog g) as [j|]; [|done].
    apply (countdown_inv_part
             (with_dialog_at j (λ d, disposeDialog (hide d)) g));
      [|by apply countdown_inv_hide].
    by open_goofy g. }
  clearbody g1.
  destruct (negb (Js.truthy (engineeringPasswordSHA1 g1)));
    [by apply countdown_inv_alert|].
  destruct (engineeringMode g1); [by apply countdown_inv_setEngineeringMode|].
  match goal with |- context [openDialog ?d g1] =>
    pose proof (countdown_inv_openDialog d g1) as Ho;
    destruct (openDialog d g1) as [g2 i] eqn:Eo end.
  simpl in Ho. eapply countdown_inv_part; [|apply Ho; done]. by open_goofy g2.
Qed.

Lemma countdown_inv_handleBackendEvent m g :
  countdown_inv g → countdown_inv (handleBackendEvent m g).
Proof.
  intros Hinv.
  destruct m
    as [u|text|p st|p u ap html|p u args js|p u name args|u|sys|si|ty];
    simpl.
  - case_match.
    + revert Hinv. apply countdown_inv_part. by open_goofy g.
    + revert Hinv. apply countdown_inv_part.
      rewrite countdown_part_keepAlive. by open_goofy g.
  - revert Hinv. apply countdown_inv_part. by open_goofy g.
  - revert Hinv. apply countdown_inv_part, countdown_part_outside_tree,
      outside_tree_setTestState.
  - revert Hinv. apply countdown_inv_part, countdown_part_sandbox.
  - revert Hinv. apply countdown_inv_part, countdown_part_sandbox.
  - revert Hinv. apply countdown_inv_part, countdown_part_sandbox.
  - repeat case_match; try done.
    revert Hinv. apply countdown_inv_part, countdown_part_dispose.
  - revert Hinv. apply countdown_inv_part. by open_goofy g.
  - exact (countdown_inv_setPendingShutdown (Some si) g Hinv).
  - done.
Qed.

Lemma countdown_inv_step h i g :
  countdown_inv g → countdown_inv (step h i g).
Proof.
  intros Hinv. destruct i; simpl.
  - revert Hinv. apply countdown_inv_part. by open_goofy g.
  - revert Hinv. apply countdown_inv_part. by open_goofy g.
  - by apply countdown_inv_handleBackendEvent.
  - revert Hinv. apply countdown_inv_part, countdown_part_keepAlive.
  - by apply countdown_inv_timerTick.
  - revert Hinv. apply countdown_inv_part, countdown_part_sendEvent.
  - by apply countdown_inv_promptEngineeringPassword.
  - unfold passwordEntered. repeat case_match; try done.
    + by apply countdown_inv_setEngineeringMode.
    + by apply countdown_inv_alert.
  - unfold setTestList.
    eapply countdown_inv_part;
      [apply countdown_part_outside_tree, outside_tree_addToNode|].
    revert Hinv. apply countdown_inv_part. by open_goofy g.
  - revert Hinv. apply countdown_inv_part, countdown_part_outside_tree,
      outside_tree_testStatesReceived.
  - unfold optionsReceived. apply countdown_inv_setEngineeringMode.
    revert Hinv. apply countdown_inv_part. by open_goofy g.
  - revert Hinv. apply countdown_inv_part. by open_goofy g.
  - revert Hinv. apply countdown_inv_part, countdown_part_sendEvent.
  - revert Hinv. apply countdown_inv_part. by open_goofy g.
  - destruct (Test_pass_cases a g) as [->|[ev ->]]; [done|]. revert Hinv.
    apply countdown_inv_part.
    by rewrite countdown_part_dispose, countdown_part_sendEvent.
  - destruct (Test_fail_cases a errorMsg g) as [->|[ev ->]]; [done|].
    revert Hinv. apply countdown_inv_part.
    by rewrite countdown_part_dispose, countdown_part_sendEvent.
  - unfold Test_sendTestEvent. case_match; [|done]. revert Hinv.
    apply countdown_inv_part, countdown_part_sendEvent.
Qed.

Lemma countdown_inv_run h inputs :
  ∀ g, countdown_inv g → countdown_inv (run h inputs g).
Proof.
  unfold run. induction inputs as [|i l IH]; intros g H; simpl; [done|].
  by apply IH, countdown_inv_step.
Qed.

Lemma countdown_inv_new : countdown_inv Goofy_new.
Proof. intros i d H. done. Qed.

Lemma filter_none {A} (P : A → Prop) `{∀ x, Decision (P x)} (l : list A) :
  (∀ i x, l !! i = Some x → ¬ P x) → filter P l = [].
Proof.
  induction l as [|a l IH]; intros Hn; [done|].
  rewrite filter_cons_False by (by apply (Hn 0%nat)).
  apply IH. intros i x Hi. by apply (Hn (S i)).
Qed.

Lemma filter_at_most_one {A} (P : A → Prop) `{∀ x, Decision (P x)}
    (l : list A) :
  (∀ i j x y, l !! i = Some x → l !! j = Some y → P x → P y → i = j) →
  (length (filter P l) ≤ 1)%nat.
Proof.
  induction l as [|a l IH]; intros Hu; [simpl; lia|].
  rewrite filter_cons. case_decide as Ha.
  - rewrite (filter_none P l); [simpl; lia|].
    intros i x Hi Hx. by pose proof (Hu 0%nat (S i) a x eq_refl Hi Ha Hx).
  - apply IH. intros i j x y Hi Hj Hx Hy.
    by pose proof (Hu (S i) (S j) x y Hi Hj Hx Hy) as [= ->].
Qed.

(** What [clearShutdownDialog] leaves of the dialog it hides. *)
Lemma clearShutdownDialog_hidden (g : Goofy) (i : nat) (d : Dialog) :
  countdown_inv g →
  shutdownDialog g = Some i →
  dialogs (page g) !! i = Some d →
  ∃ d', dialogs (page (clearShutdownDialog g)) !! i = Some d'
        ∧ visible d' = false ∧ disposed d' = true ∧ timer d' = false.
Proof.
  intros Hinv Hp Hd. exists (disposeDialog (hide d)).
  destruct (hidden_facts d) as (_ & Hv & Hds & Ht).
  split_and!; [|done..|apply Ht; intros Hd0; by apply (Hinv i d Hd)].
  unfold clearShutdownDialog. rewrite Hp.
  replace (dialogs (page (with_shutdownDialog None
             (with_dialog_at i (λ d, disposeDialog (hide d)) g))))
    with (alter (λ d, disposeDialog (hide d)) i (dialogs (page g)))
    by (by open_goofy g).
  by rewrite list_lookup_alter_eq, Hd.
Qed.

Lemma closeDialog_hidden (g : Goofy) (i : nat) (d : Dialog) :
  dialogs (page g) !! i = Some d →
  visible d = false → disposed d = true → timer d = false →
  ∃ d', dialogs (page (closeDialog g)) !! i = Some d'
        ∧ visible d' = false ∧ disposed d' = true ∧ timer d' = false.
Proof.
  intros Hd Hv Hds Ht. unfold closeDialog.
  destruct (dialog g) as [j|]; [|by exists d].
  replace (dialogs (page (with_dialog None
             (with_dialog_at j (λ d, disposeDialog (hide d)) g))))
    with (alter (λ d, disposeDialog (hide d)) j (dialogs (page g)))
    by (by open_goofy g).
  destruct (decide (j = i)) as [->|Hne].
  - exists (disposeDialog (hide d)). rewrite list_lookup_alter_eq, Hd.
    destruct (hidden_facts d) as (_ & Hv1 & Hd1 & Ht1).
    split_and!; try done. apply Ht1. by rewrite Ht.
  - exists d. by rewrite list_lookup_alter_ne.
Qed.

Lemma shutdownDialog_closeDialog (g : Goofy) :
  shutdownDialog (closeDialog g) = shutdownDialog g.
Proof. unfold closeDialog. destruct (dialog g); by open_goofy g. Qed.

Lemma shutdownDialog_clearShutdownDialog (g : Goofy) :
  shutdownDialog (clearShutdownDialog g) = None.
Proof.
  unfold clearShutdownDialog. destruct (shutdownDialog g) eqn:E; [|done].
  by open_goofy g.
Qed.

(** C8. In every state the controller can reach from its construction, at
    most one shutdown dialog is on screen.  On a pending-shutdown event in
    such a state, the dialog [shutdownDialog] referred to ends up hidden and
    disposed of, with its timer stopped, and is no longer referred to.  If
    the event carries no target time, [shutdownDialog] is null afterwards,
    no dialog has been created, the other dialogs are as they were and so
    is everything else. *)
Theorem one_countdown_at_a_time :
  (∀ sha1hex inputs,
     (length (visible_countdowns (run sha1hex inputs Goofy_new)) ≤ 1)%nat)
  ∧ (∀ sha1hex inputs si i d,
       let g := run sha1hex inputs Goofy_new in
       let g' := handleBackendEvent (PendingShutdown si) g in
       shutdownDialog g = Some i →
       dialogs (page g) !! i = Some d →
       ∃ d', dialogs (page g') !! i = Some d'
             ∧ visible d' = false ∧ disposed d' = true ∧ timer d' = false
             ∧ shutdownDialog g' ≠ Some i)
  ∧ (∀ g si,
       let g' := handleBackendEvent (PendingShutdown si) g in
       no_time si = true →
       shutdownDialog g' = None
       ∧ length (dialogs (page g')) = length (dialogs (page g))
       ∧ (∀ j, shutdownDialog g ≠ Some j →
               dialogs (page g') !! j = dialogs (page g) !! j)
       ∧ outside_dialogs g' = outside_dialogs g).
Proof.
  split_and!.
  - intros h inputs. apply filter_at_most_one.
    pose proof (countdown_inv_run h inputs Goofy_new countdown_inv_new)
      as Hinv.
    intros i j x y Hi Hj [Hkx Hvx] [Hky Hvy].
    destruct (Hinv i x Hi) as [Hpi _], (Hinv j y Hj) as [Hpj _].
    specialize (Hpi Hkx Hvx). specialize (Hpj Hky Hvy). congruence.
  - intros h inputs si i d g g' Hp Hd.
    pose proof (countdown_inv_run h inputs Goofy_new countdown_inv_new)
      as Hinv.
    fold g in Hinv.
    destruct (clearShutdownDialog_hidden g i d Hinv Hp Hd)
      as (d1 & Hd1 & Hv1 & Hds1 & Ht1).
    subst g'. change (handleBackendEvent (PendingShutdown si) g)
      with (setPendingShutdown (Some si) g).
    rewrite setPendingShutdown_unfold.
    destruct (no_time si).
    + exists d1. split_and!; try done.
      by rewrite shutdownDialog_clearShutdownDialog.
    + destruct (closeDialog_hidden _ i d1 Hd1 Hv1 Hds1 Ht1)
        as (d2 & Hd2 & Hv2 & Hds2 & Ht2).
      set (g2 := closeDialog (clearShutdownDialog g)) in *.
      exists d2. unfold openDialog. cbv zeta.
      match goal with
      | |- context [with_dialogs (_ ++ [?nd]) _] => set (new := nd)
      end.
      replace (dialogs (page (with_shutdownDialog _ _)))
        with (dialogs (page g2) ++ [new]) by (by open_goofy g2).
      replace (shutdownDialog (with_shutdownDialog _ _))
        with (Some (length (dialogs (page g2)))) by (by open_goofy g2).
      split_and!; try done.
      * by rewrite lookup_app_l by (by eapply lookup_lt_Some).
      * intros [= E]. apply lookup_lt_Some in Hd2. lia.
  - intros g si g' Hnt. subst g'.
    change (handleBackendEvent (PendingShutdown si) g)
      with (setPendingShutdown (Some si) g).
    rewrite setPendingShutdown_unfold, Hnt.
    split; [apply shutdownDialog_clearShutdownDialog|].
    unfold clearShutdownDialog.
    destruct (shutdownDialog g) as [i|] eqn:Hp; [|done].
    replace (dialogs (page (with_shutdownDialog None
               (with_dialog_at i (λ d, disposeDialog (hide d)) g))))
      with (alter (λ d, disposeDialog (hide d)) i (dialogs (page g)))
      by (by open_goofy g).
    split_and!.
    + apply length_alter.
    + intros j Hj. apply list_lookup_alter_ne. congruence.
    + by open_goofy g.
Qed.

(** ** Destroying a test *)

Lemma destroy_test_tree (u : string) (g : Goofy) :
  let g' := handleBackendEvent (DestroyTest u) g in
  tests g' = tests g
  ∧ pathTestMap g' = pathTestMap g
  ∧ pathNodeMap g' = pathNodeMap g.
Proof.
  simpl. unfold dispose. repeat case_match; try done; by open_goofy g.
Qed.

Lemma destroy_test_disposes (u : string) (a f : nat) (g : Goofy) :
  live u a f g →
  let g' := handleBackendEvent (DestroyTest u) g in
  invocations g' !! u = Some None
  ∧ iframe <$> (heap g' !! a) = Some None
  ∧ f ∉ main (page g').
Proof.
  intros (Hu & inv & Ha & Hiu & Hf & Hm). simpl. rewrite Hu.
  unfold dispose. rewrite Ha, Hf. subst u.
  open_goofy g. simpl in *. split_and!.
  - by rewrite lookup_insert_eq.
  - rewrite list_lookup_insert_eq; [done|]. by eapply lookup_lt_Some.
  - rewrite list_elem_of_filter. tauto.
Qed.

Lemma live_setTestState (u : string) (a f : nat) (p : string)
    (st : TestState) (g : Goofy) :
  live u a f g → live u a f (setTestState p st g).
Proof.
  pose proof (outside_tree_setTestState p st g) as H.
  unfold outside_tree in H. unfold live.
  intros (Hu & inv & Ha & Hiu & Hf & Hm). simplify_eq.
  repeat match goal with H : _ = _ |- _ => rewrite H end.
  eauto 10.
Qed.

(** C9. A destroy_test event for a live run id leaves that run id bound to
    null, its invocation without an iframe and the iframe no longer under
    #goofy-main, while the test list and the state of every test are as
    before.  In particular, when a state_change has set the status of a
    path to ACTIVE and a destroy_test for a live run id follows, the stored
    state of the path is still the one of the state_change, with status
    ACTIVE. *)
Theorem destroy_test_keeps_test_states
    (g : Goofy) (u : string) (a f : nat) :
  live u a f g →
  (let g' := handleBackendEvent (DestroyTest u) g in
   invocations g' !! u = Some None
   ∧ iframe <$> (heap g' !! a) = Some None
   ∧ (f ∉ main (page g'))
   ∧ tests g' = tests g
   ∧ (∀ p, test_of p g' = test_of p g))
  ∧ (∀ P st node t,
       pathNodeMap g !! P = Some node →
       test_of P g = Some t →
       status st = "ACTIVE" →
       let g1 := handleBackendEvent (StateChange P st) g in
       let g2 := handleBackendEvent (DestroyTest u) g1 in
       stored_state P g2 = Some st
       ∧ status <$> stored_state P g2 = Some "ACTIVE"
       ∧ invocations g2 !! u = Some None
       ∧ f ∉ main (page g2)).
Proof.
  intros Hl. split.
  - pose proof (destroy_test_disposes u a f g Hl) as (H1 & H2 & H3).
    pose proof (destroy_test_tree u g) as (H4 & H5 & H6).
    split_and!; try done. intros p. by apply test_of_ext.
  - intros P st node t Hn Ht Hs g1 g2.
    pose proof (test_of_setTestState g P st node t Hn Ht) as H1.
    change (setTestState P st g) with g1 in H1.
    assert (live u a f g1) as Hl1 by (by apply live_setTestState).
    pose proof (destroy_test_disposes u a f g1 Hl1) as (H2 & _ & H3).
    pose proof (destroy_test_tree u g1) as (H4 & H5 & _).
    fold g2 in H2, H3, H4, H5.
    unfold stored_state.
    rewrite (test_of_ext P g1 g2 H4 H5), H1. simpl. by rewrite Hs.
Qed.

(** The scenario of "SMT.LED": run "u1" is live, the state_change to ACTIVE
    arrives, then destroy_test for "u1". *)
Lemma destroy_test_keeps_test_states_witness :
  (let g' := handleBackendEvent (DestroyTest "u1") sample_running in
   invocations g' !! "u1" = Some None
   ∧ iframe <$> (heap g' !! 0%nat) = Some None
   ∧ (0%nat ∉ main (page g'))
   ∧ tests g' = tests sample_running
   ∧ (∀ p, test_of p g' = test_of p sample_running))
  ∧ (∀ P st node t,
       pathNodeMap sample_running !! P = Some node →
       test_of P sample_running = Some t →
       status st = "ACTIVE" →
       let g1 := handleBackendEvent (StateChange P st) sample_running in
       let g2 := handleBackendEvent (DestroyTest "u1") g1 in
       stored_state P g2 = Some st
       ∧ status <$> stored_state P g2 = Some "ACTIVE"
       ∧ invocations g2 !! "u1" = Some None
       ∧ 0%nat ∉ main (page g2)).
Proof.
  apply (destroy_test_keeps_test_states sample_running "u1" 0 0).
  split; [vm_compute; reflexivity|].
  eexists. split_and!; [vm_compute; reflexivity ..|].
  vm_compute. apply list_elem_of_here.
Defined.

Example destroy_test_after_active :
  let g1 :=
    handleBackendEvent (StateChange "SMT.LED" (with_status "ACTIVE"))
      sample_running in
  let g2 := handleBackendEvent (DestroyTest "u1") g1 in
  status <$> stored_state "SMT.LED" g2 = Some "ACTIVE"
  ∧ reveals <$> pathNodeMap g1 !! "SMT.LED" = Some 1%nat
  ∧ main (page g1) = [0%nat]
  ∧ main (page g2) = [].
Proof. vm_compute. done. Qed.

(** ** Disposed invocations *)

Section Disposed.

Context (u : string).

Lemma disposed_id_dispose (a : nat) (g : Goofy) :
  disposed_id u g → disposed_id u (dispose a g).
Proof.
  unfold disposed_id, dispose. intros H.
  repeat case_match; try done.
  open_goofy g. simpl in *.
  rewrite lookup_insert. by case_decide.
Qed.

Lemma disposed_id_sendEvent (ty : string) (props : option Event)
    (g : Goofy) :
  disposed_id u g → disposed_id u (sendEvent ty props g).
Proof.
  unfold sendEvent, send. destruct (isOpen (ws g)); by open_goofy g.
Qed.

Lemma disposed_id_getOrCreateInvocation (p v : string) (g : Goofy) :
  disposed_id u g → disposed_id u (getOrCreateInvocation p v g).1.
Proof.
  unfold disposed_id, getOrCreateInvocation. intros H.
  destruct (invocations g !! v) eqn:Hv; [done|].
  open_goofy g. simpl in *.
  rewrite lookup_insert_ne; [done|]. intros ->. congruence.
Qed.

Lemma disposed_id_in_sandbox (r : option nat) (upd : IFrame → IFrame)
    (g : Goofy) :
  disposed_id u g → disposed_id u (in_sandbox r upd g).
Proof.
  unfold disposed_id, in_sandbox. intros H.
  repeat case_match; try done. by open_goofy g.
Qed.

Lemma disposed_id_sandbox (p v : string) (upd : IFrame → IFrame)
    (g : Goofy) :
  disposed_id u g →
  disposed_id u
    (let '(g1, r) := getOrCreateInvocation p v g in in_sandbox r upd g1).
Proof.
  intros H. pose proof (disposed_id_getOrCreateInvocation p v g H) as H1.
  destruct (getOrCreateInvocation p v g) as [g1 r].
  by apply disposed_id_in_sandbox.
Qed.

Lemma disposed_id_handleBackendEvent (m : Message) (g : Goofy) :
  disposed_id u g → disposed_id u (handleBackendEvent m g).
Proof.
  intros H.
  destruct m
    as [v|text|p st|p v ap html|p v args js|p v name args|v|sys|si|ty];
    simpl.
  - case_match; [by open_goofy g|].
    unfold keepAlive. case_match; [apply disposed_id_sendEvent|];
      by open_goofy g.
  - by open_goofy g.
  - unfold disposed_id.
    by rewrite (outside_tree_invocations _ _
                  (outside_tree_setTestState _ _ g)).
  - by apply disposed_id_sandbox.
  - by apply disposed_id_sandbox.
  - by apply disposed_id_sandbox.
  - repeat case_match; try done. by apply disposed_id_dispose.
  - by open_goofy g.
  - unfold setPendingShutdown, closeDialog, openDialog.
    repeat case_match; simplify_eq; by open_goofy g.
  - done.
Qed.

Lemma disposed_id_step (h : string → string) (i : Input) (g : Goofy) :
  disposed_id u g → disposed_id u (step h i g).
Proof.
  intros H. destruct i; simpl.
  - by open_goofy g.
  - by open_goofy g.
  - by apply disposed_id_handleBackendEvent.
  - unfold keepAlive. case_match; [by apply disposed_id_sendEvent|done].
  - unfold timerTick. repeat case_match; by open_goofy g.
  - by apply disposed_id_sendEvent.
  - unfold promptEngineeringPassword, openDialog.
    repeat case_match; simplify_eq; by open_goofy g.
  - unfold passwordEntered. repeat case_match; by open_goofy g.
  - unfold disposed_id, setTestList.
    rewrite (outside_tree_invocations _ _ (outside_tree_addToNode _ _ _ _)).
    by open_goofy g.
  - unfold disposed_id.
    by rewrite (outside_tree_invocations _ _
                  (outside_tree_testStatesReceived _ g)).
  - by open_goofy g.
  - by open_goofy g.
  - by apply disposed_id_sendEvent.
  - by open_goofy g.
  - destruct (Test_pass_cases a g) as [->|[ev ->]]; [done|].
    by apply disposed_id_dispose, disposed_id_sendEvent.
  - destruct (Test_fail_cases a errorMsg g) as [->|[ev ->]]; [done|].
    by apply disposed_id_dispose, disposed_id_sendEvent.
  - unfold Test_sendTestEvent. case_match; [|done].
    by apply disposed_id_sendEvent.
Qed.

Lemma disposed_id_run (h : string → string) (inputs : list Input) :
  ∀ g, disposed_id u g → disposed_id u (run h inputs g).
Proof.
  unfold run. induction inputs as [|i l IH]; intros g H; simpl; [done|].
  by apply IH, disposed_id_step.
Qed.

Lemma disposed_id_no_effect (g : Goofy) (p : string) :
  disposed_id u g →
  getOrCreateInvocation p u g = (g, None)
  ∧ (∀ append html, handleBackendEvent (SetHtml p u append html) g = g)
  ∧ (∀ args js, handleBackendEvent (RunJs p u args js) g = g)
  ∧ (∀ name args, handleBackendEvent (CallJsFunction p u name args) g = g).
Proof.
  intros H.
  assert (getOrCreateInvocation p u g = (g, None)) as Hg
    by (unfold getOrCreateInvocation; by rewrite H).
  split_and!; [done|intros; simpl; by rewrite Hg ..].
Qed.

End Disposed.

(** C10. Once the invocation at an address has been disposed of, then after
    any further inputs whatsoever its run id is still a key of the
    invocation map bound to null; get-or-create for it returns null and
    changes nothing, and a set_html, run_js or call_js_function event for it
    leaves the controller exactly as it was. *)
Theorem disposed_invocation_stays_null
    (g : Goofy) (a f : nat) (inv : Invocation)
    (sha1hex : string → string) (inputs : list Input) (p : string) :
  heap g !! a = Some inv →
  iframe inv = Some f →
  let u := inv_uuid inv in
  let g' := run sha1hex inputs (dispose a g) in
  invocations g' !! u = Some None
  ∧ getOrCreateInvocation p u g' = (g', None)
  ∧ (∀ append html, handleBackendEvent (SetHtml p u append html) g' = g')
  ∧ (∀ args js, handleBackendEvent (RunJs p u args js) g' = g')
  ∧ (∀ name args,
       handleBackendEvent (CallJsFunction p u name args) g' = g').
Proof.
  intros Ha Hf u g'.
  assert (disposed_id u g') as H.
  { apply disposed_id_run. unfold disposed_id, dispose. rewrite Ha, Hf.
    open_goofy g. simpl. by rewrite lookup_insert_eq. }
  split; [exact H|]. by apply disposed_id_no_effect.
Qed.

Lemma disposed_invocation_stays_null_witness :
  let g' :=
    run Sha1.hex
      [SocketMessage (SetHtml "SMT.KBD" "u2" false "<p>KBD</p>");
       SocketMessage (StateChange "SMT.LED" (with_status "PASSED"));
       TestPass 1; KeepAliveTimer]
      (dispose 0 sample_running) in
  invocations g' !! "u1" = Some None
  ∧ getOrCreateInvocation "SMT.LED" "u1" g' = (g', None)
  ∧ (∀ append html,
       handleBackendEvent (SetHtml "SMT.LED" "u1" append html) g' = g')
  ∧ (∀ args js, handleBackendEvent (RunJs "SMT.LED" "u1" args js) g' = g')
  ∧ (∀ name args,
       handleBackendEvent (CallJsFunction "SMT.LED" "u1" name args) g' = g').
Proof.
  apply (disposed_invocation_stays_null sample_running 0 0
           {| inv_path := "SMT.LED"; inv_uuid := "u1"; iframe := Some 0%nat |}).
  - vm_compute. reflexivity.
  - reflexivity.
Defined.

(** * Further properties *)

(** ** Invocations and their iframes *)

Lemma invocations_inv_part (g g' : Goofy) :
  invocations_part g' = invocations_part g →
  invocations_inv g → invocations_inv g'.
Proof.
  unfold invocations_inv, live. intros [= E1 E2 E3 E4].
  by rewrite E1, E2, E3, E4.
Qed.

Lemma dispose_unfold (a : nat) (g : Goofy) (inv : Invocation) (f : nat) :
  heap g !! a = Some inv → iframe inv = Some f →
  invocations (dispose a g) = <[inv_uuid inv := None]> (invocations g)
  ∧ heap (dispose a g)
    = <[a := {| inv_path := inv_path inv; inv_uuid := inv_uuid inv;
                iframe := None |}]> (heap g)
  ∧ frames (page (dispose a g)) = frames (page g)
  ∧ main (page (dispose a g)) = filter (λ x, x ≠ f) (main (page g)).
Proof.
  intros Ha Hf. unfold dispose. rewrite Ha, Hf. by open_goofy g.
Qed.

Lemma dispose_noop (a : nat) (g : Goofy) :
  (∀ inv, heap g !! a = Some inv → iframe inv = None) → dispose a g = g.
Proof.
  intros H. unfold dispose. destruct (heap g !! a) as [inv|]; [|done].
  by rewrite (H inv eq_refl).
Qed.

Lemma invocations_inv_dispose (a : nat) (g : Goofy) :
  invocations_inv g → invocations_inv (dispose a g).
Proof.
  intros Hinv.
  destruct (heap g !! a) as [inv|] eqn:Ha;
    [|by rewrite dispose_noop by (by rewrite Ha)].
  destruct (iframe inv) as [f|] eqn:Hf;
    [|rewrite dispose_noop; [done|]; by rewrite Ha; intros ? [= <-]].
  destruct (dispose_unfold a g inv f Ha Hf) as (Ei & Eh & Efr & Em).
  destruct Hinv as (H1 & H2 & H3 & H4 & H5).
  destruct (H2 a inv f Ha Hf) as [Hbound Hlt].
  unfold invocations_inv, live. rewrite Ei, Eh, Efr, Em.
  split_and!.
  - intros u' a'. rewrite lookup_insert. case_decide as E; [done|].
    intros Hu'. destruct (H1 u' a' Hu') as (f' & _ & inv' & Ha' & Hiu & Hf' & Hm').
    assert (a' ≠ a) as Hne by (intros ->; congruence).
    exists f'. split; [done|]. exists inv'.
    rewrite list_lookup_insert_ne by done. split_and!; try done.
    apply list_elem_of_filter. split; [|done].
    intros ->. apply Hne. by apply (H3 a' a inv' inv f).
  - intros a' inv' f'. destruct (decide (a = a')) as [<-|Hne].
    + rewrite list_lookup_insert_eq by (by eapply lookup_lt_Some).
      by intros [= <-].
    + rewrite list_lookup_insert_ne by done. intros Ha' Hf'.
      destruct (H2 a' inv' f' Ha' Hf') as [Hb' Hlt']. split; [|done].
      rewrite lookup_insert_ne; [done|]. intros E. rewrite E in Hbound.
      congruence.
  - intros a1 a2 i1 i2 f'.
    destruct (decide (a = a1)) as [<-|Hn1].
    { rewrite list_lookup_insert_eq by (by eapply lookup_lt_Some).
      by intros [= <-]. }
    destruct (decide (a = a2)) as [<-|Hn2].
    { rewrite (list_lookup_insert_eq _ a) by (by eapply lookup_lt_Some).
      by intros _ [= <-]. }
    rewrite !list_lookup_insert_ne by done. apply H3.
  - intros f' [Hf' Hm']%list_elem_of_filter.
    destruct (H4 f' Hm') as (a' & inv' & Ha' & Hif').
    assert (a' ≠ a) as Hne by (intros ->; congruence).
    exists a', inv'. by rewrite list_lookup_insert_ne.
  - by apply NoDup_filter.
Qed.

Lemma getOrCreateInvocation_fresh (p u : string) (g : Goofy) :
  invocations g !! u = None →
  let a := length (heap g) in
  let f := length (frames (page g)) in
  let g' := (getOrCreateInvocation p u g).1 in
  (getOrCreateInvocation p u g).2 = Some a
  ∧ invocations g' = <[u := Some a]> (invocations g)
  ∧ heap g' = heap g ++ [{| inv_path := p; inv_uuid := u; iframe := Some f |}]
  ∧ frames (page g') = frames (page g) ++ [{| body := []; calls := [] |}]
  ∧ main (page g') = main (page g) ++ [f].
Proof.
  intros Hu. unfold getOrCreateInvocation. rewrite Hu. by open_goofy g.
Qed.

Lemma invocations_inv_getOrCreateInvocation (p u : string) (g : Goofy) :
  invocations_inv g → invocations_inv (getOrCreateInvocation p u g).1.
Proof.
  intros Hinv.
  destruct (invocations g !! u) as [r|] eqn:Hu.
  { unfold getOrCreateInvocation. by rewrite Hu. }
  destruct (getOrCreateInvocation_fresh p u g Hu) as (_ & Ei & Eh & Efr & Em).
  destruct Hinv as (H1 & H2 & H3 & H4 & H5).
  assert (∀ f', f' ∈ main (page g) → (f' < length (frames (page g)))%nat)
    as Hmain.
  { intros f' (a' & inv' & Ha' & Hf')%H4. by apply (H2 a' inv' f'). }
  unfold invocations_inv, live. rewrite Ei, Eh, Efr, Em, length_app. simpl.
  split_and!.
  - intros u' a'. rewrite lookup_insert. case_decide as E.
    + intros [= <-]. subst u'. eexists. split; [done|]. eexists.
      rewrite lookup_app_r, Nat.sub_diag by done.
      split_and!; [done..|]. apply elem_of_app. right. by left.
    + intros Hu'.
      destruct (H1 u' a' Hu') as (f' & _ & inv' & Ha' & Hiu & Hf' & Hm').
      exists f'. split; [done|]. exists inv'.
      split_and!; try done.
      * by apply lookup_app_l_Some.
      * apply elem_of_app. by left.
  - intros a' inv' f' [Ha'|[Hlen Ha']]%lookup_app_Some Hf'.
    + destruct (H2 a' inv' f' Ha' Hf') as [Hb Hlt]. split; [|lia].
      rewrite lookup_insert_ne; [done|]. intros E. rewrite E in Hu. congruence.
    + apply list_lookup_singleton_Some in Ha' as [Hz <-]. simpl in *.
      injection Hf' as <-. rewrite lookup_insert_eq. split; [|lia].
      do 2 f_equal. lia.
  - intros a1 a2 i1 i2 f'
      [Ha1|[Hl1 Ha1]]%lookup_app_Some [Ha2|[Hl2 Ha2]]%lookup_app_Some Hf1 Hf2.
    + by apply (H3 a1 a2 i1 i2 f').
    + apply list_lookup_singleton_Some in Ha2 as [_ <-]. simpl in Hf2.
      injection Hf2 as <-. destruct (H2 a1 i1 _ Ha1 Hf1) as [_ Hlt]. lia.
    + apply list_lookup_singleton_Some in Ha1 as [_ <-]. simpl in Hf1.
      injection Hf1 as <-. destruct (H2 a2 i2 _ Ha2 Hf2) as [_ Hlt]. lia.
    + apply list_lookup_singleton_Some in Ha1 as [? _].
      apply list_lookup_singleton_Some in Ha2 as [? _]. lia.
  - intros f' [Hm'|Hm']%elem_of_app.
    + destruct (H4 f' Hm') as (a' & inv' & Ha' & Hf').
      exists a', inv'. split; [|done]. by apply lookup_app_l_Some.
    + apply list_elem_of_singleton in Hm' as ->.
      exists (length (heap g)). eexists.
      by rewrite lookup_app_r, Nat.sub_diag by done.
  - apply NoDup_app. split_and!; [done| |apply NoDup_singleton].
    intros f' Hm' ->%list_elem_of_singleton. apply Hmain in Hm'. lia.
Qed.

Lemma invocations_part_in_sandbox r upd g :
  invocations_part (in_sandbox r upd g) = invocations_part g.
Proof.
  unfold in_sandbox. repeat case_match; try done.
  open_goofy g. unfold invocations_part. simpl. by rewrite length_alter.
Qed.

Lemma invocations_inv_sandbox p u upd g :
  invocations_inv g →
  invocations_inv
    (let '(g1, r) := getOrCreateInvocation p u g in in_sandbox r upd g1).
Proof.
  intros H. pose proof (invocations_inv_getOrCreateInvocation p u g H) as H1.
  destruct (getOrCreateInvocation p u g) as [g1 r]. simpl in H1.
  revert H1. apply invocations_inv_part, invocations_part_in_sandbox.
Qed.

Lemma invocations_part_sendEvent ty props g :
  invocations_part (sendEvent ty props g) = invocations_part g.
Proof.
  unfold sendEvent, send. destruct (isOpen (ws g)); by open_goofy g.
Qed.

Lemma invocations_part_keepAlive g :
  invocations_part (keepAlive g) = invocations_part g.
Proof.
  unfold keepAlive. case_match; [apply invocations_part_sendEvent|done].
Qed.

Lemma invocations_part_outside_tree (g g' : Goofy) :
  outside_tree g' = outside_tree g →
  invocations_part g' = invocations_part g.
Proof. unfold outside_tree, invocations_part. congruence. Qed.

Lemma invocations_part_setPendingShutdown si g :
  invocations_part (setPendingShutdown si g) = invocations_part g.
Proof.
  unfold setPendingShutdown, closeDialog, openDialog.
  repeat case_match; simplify_eq; by open_goofy g.
Qed.

Lemma invocations_inv_handleBackendEvent m g :
  invocations_inv g → invocations_inv (handleBackendEvent m g).
Proof.
  intros Hinv.
  destruct m
    as [u|text|p st|p u ap html|p u args js|p u name args|u|sys|si|ty];
    simpl.
  - case_match.
    + revert Hinv. apply invocations_inv_part. by open_goofy g.
    + revert Hinv. apply invocations_inv_part.
      rewrite invocations_part_keepAlive. by open_goofy g.
  - revert Hinv. apply invocations_inv_part. by open_goofy g.
  - revert Hinv. apply invocations_inv_part, invocations_part_outside_tree,
      outside_tree_setTestState.
  - by apply invocations_inv_sandbox.
  - by apply invocations_inv_sandbox.
  - by apply invocations_inv_sandbox.
  - repeat case_match; try done. by apply invocations_inv_dispose.
  - revert Hinv. apply invocations_inv_part. by open_goofy g.
  - revert Hinv.
    apply invocations_inv_part, (invocations_part_setPendingShutdown (Some si)).
  - done.
Qed.

Lemma invocations_inv_step h i g :
  invocations_inv g → invocations_inv (step h i g).
Proof.
  intros Hinv. destruct i; simpl.
  - revert Hinv. apply invocations_inv_part. by open_goofy g.
  - revert Hinv. apply invocations_inv_part. by open_goofy g.
  - by apply invocations_inv_handleBackendEvent.
  - revert Hinv. apply invocations_inv_part, invocations_part_keepAlive.
  - revert Hinv. apply invocations_inv_part.
    unfold timerTick. repeat case_match; by open_goofy g.
  - revert Hinv. apply invocations_inv_part, invocations_part_sendEvent.
  - revert Hinv. apply invocations_inv_part.
    unfold promptEngineeringPassword, openDialog.
    repeat case_match; simplify_eq; by open_goofy g.
  - revert Hinv. apply invocations_inv_part.
    unfold passwordEntered. repeat case_match; by open_goofy g.
  - unfold setTestList.
    eapply invocations_inv_part;
      [apply invocations_part_outside_tree, outside_tree_addToNode|].
    revert Hinv. apply invocations_inv_part. by open_goofy g.
  - revert Hinv. apply invocations_inv_part, invocations_part_outside_tree,
      outside_tree_testStatesReceived.
  - revert Hinv. apply invocations_inv_part. by open_goofy g.
  - revert Hinv. apply invocations_inv_part. by open_goofy g.
  - revert Hinv. apply invocations_inv_part, invocations_part_sendEvent.
  - revert Hinv. apply invocations_inv_part. by open_goofy g.
  - destruct (Test_pass_cases a g) as [->|[ev ->]]; [done|].
    apply invocations_inv_dispose.
    revert Hinv. apply invocations_inv_part, invocations_part_sendEvent.
  - destruct (Test_fail_cases a errorMsg g) as [->|[ev ->]]; [done|].
    apply invocations_inv_dispose.
    revert Hinv. apply invocations_inv_part, invocations_part_sendEvent.
  - unfold Test_sendTestEvent. case_match; [|done]. revert Hinv.
    apply invocations_inv_part, invocations_part_sendEvent.
Qed.

Lemma invocations_inv_run h inputs :
  ∀ g, invocations_inv g → invocations_inv (run h inputs g).
Proof.
  unfold run. induction inputs as [|i l IH]; intros g H; simpl; [done|].
  by apply IH, invocations_inv_step.
Qed.

Lemma invocations_inv_new : invocations_inv Goofy_new.
Proof.
  unfold invocations_inv. split_and!; try done.
  - intros f H. by apply elem_of_nil in H.
  - apply NoDup_nil_2.
Qed.

(** X1. In every state the controller can reach from its construction the
    invocations and the frames agree: every run id bound to an invocation is
    live (the invocation carries that run id and its iframe is under #goofy-
    main); every invocation that still has an iframe is bound under its own
    run id; no two invocations share an iframe; every child of #goofy-main
    is the iframe of some invocation and occurs there once. *)
Theorem reachable_invocations_consistent (h : string → string)
    (inputs : list Input) :
  invocations_inv (run h inputs Goofy_new).
Proof. apply invocations_inv_run, invocations_inv_new. Qed.

(** X2. Disposing of an invocation twice is the same as disposing of it
    once: the second call finds no iframe and does nothing. *)
Theorem dispose_idempotent (a : nat) (g : Goofy) :
  dispose a (dispose a g) = dispose a g.
Proof.
  apply dispose_noop. intros inv'.
  destruct (heap g !! a) as [inv|] eqn:Ha.
  - destruct (iframe inv) as [f|] eqn:Hf.
    + destruct (dispose_unfold a g inv f Ha Hf) as (_ & -> & _).
      rewrite list_lookup_insert_eq by (by eapply lookup_lt_Some).
      by intros [= <-].
    + rewrite (dispose_noop a g); [congruence|]. intros i. congruence.
  - rewrite (dispose_noop a g); [congruence|]. intros i. congruence.
Qed.

Lemma ws_dispose (a : nat) (g : Goofy) : ws (dispose a g) = ws g.
Proof. unfold dispose. repeat case_match; try done; by open_goofy g. Qed.

Lemma handleBackendEvent_disposed (g : Goofy) (u : string) (m : Message) :
  invocations g !! u = Some None →
  addressed_to u m = true →
  handleBackendEvent m g = g.
Proof.
  intros Hu Hm.
  destruct m
    as [v|text|p st|p v ap html|p v args js|p v name args|v|sys|si|ty];
    try done; simpl in Hm; apply bool_decide_eq_true in Hm as ->; simpl;
    unfold getOrCreateInvocation; by rewrite Hu.
Qed.

(** X3. Test.pass on a live invocation, the socket being open, sends exactly
    one event, goofy:end_test with status PASSED, the run id and the path
    of the invocation; afterwards the run id is bound to null, the iframe is
    no longer under #goofy-main, and a set_html, run_js, call_js_function or
    destroy_test for that run id leaves the controller as it is.  When the
    socket is not open the call raises while sending: nothing is sent and
    the invocation is not disposed of. *)
Theorem Test_pass_reports_and_disposes (u : string) (a f : nat) (g : Goofy)
    (inv : Invocation) (m : Message) :
  live u a f g →
  heap g !! a = Some inv →
  addressed_to u m = true →
  let g' := Test_pass a g in
  if isOpen (ws g) then
    sent (ws g') = sent (ws g) ++ [end_test_event "PASSED" None inv]
    ∧ invocations g' !! u = Some None
    ∧ (f ∉ main (page g'))
    ∧ handleBackendEvent m g' = g'
  else g' = g.
Proof.
  intros (Hu & inv' & Ha & Hiu & Hf & Hm) Ha' Hmsg g'.
  rewrite Ha' in Ha. injection Ha as <-. subst u.
  destruct (isOpen (ws g)) eqn:Ho.
  2: { subst g'. unfold Test_pass. rewrite Ha', Ho. by apply sendEvent_closed. }
  assert (g' = dispose a (sendEvent "goofy:end_test"
                 (Some {[ "status" := Js.Str "PASSED";
                          "invocation" := Js.Str (inv_uuid inv);
                          "test" := Js.Str (inv_path inv) ]}) g)) as Eg.
  { subst g'. unfold Test_pass. by rewrite Ha', Ho. }
  assert (invocations g' !! inv_uuid inv = Some None
          ∧ (f ∉ main (page g'))) as [Hd Hg].
  { rewrite Eg.
    match goal with |- context [dispose a ?x] => set (g1 := x) end.
    assert (heap g1 !! a = Some inv) as Ha1.
    { pose proof (invocations_part_sendEvent "goofy:end_test"
                    (Some {[ "status" := Js.Str "PASSED";
                             "invocation" := Js.Str (inv_uuid inv);
                             "test" := Js.Str (inv_path inv) ]}) g) as E.
      fold g1 in E. unfold invocations_part in E. injection E as _ E _ _.
      by rewrite E. }
    destruct (dispose_unfold a g1 inv f Ha1 Hf) as (-> & _ & _ & ->).
    split; [by rewrite lookup_insert_eq|].
    rewrite list_elem_of_filter. tauto. }
  split_and!; try done.
  - rewrite Eg, ws_dispose. by apply sent_sendEvent.
  - by apply (handleBackendEvent_disposed g' (inv_uuid inv)).
Qed.

Lemma Test_pass_reports_and_disposes_witness :
  let g' := Test_pass 0 sample_running in
  sent (ws g')
  = sent (ws sample_running)
    ++ [end_test_event "PASSED" None
          {| inv_path := "SMT.LED"; inv_uuid := "u1"; iframe := Some 0%nat |}]
  ∧ invocations g' !! "u1" = Some None
  ∧ (0%nat ∉ main (page g'))
  ∧ handleBackendEvent (SetHtml "SMT.LED" "u1" true "<p>late</p>") g' = g'.
Proof.
  apply (Test_pass_reports_and_disposes "u1" 0 0 sample_running
           {| inv_path := "SMT.LED"; inv_uuid := "u1"; iframe := Some 0%nat |}
           (SetHtml "SMT.LED" "u1" true "<p>late</p>")).
  - vm_compute. split; [done|]. eexists. split_and!; try done.
    apply list_elem_of_here.
  - done.
  - done.
Defined.

(** X4. Test.fail on an invocation that has already been disposed of still
    sends its goofy:end_test event, with status FAILED and the error
    message, when the socket is open, and nothing when it is not; either
    way it changes nothing but the socket: the disposal is skipped. *)
Theorem Test_fail_after_dispose (a : nat) (errorMsg : string) (g : Goofy)
    (inv : Invocation) :
  heap g !! a = Some inv →
  iframe inv = None →
  let g' := Test_fail a errorMsg g in
  sent (ws g')
  = sent (ws g)
    ++ (if isOpen (ws g)
        then [end_test_event "FAILED" (Some errorMsg) inv] else [])
  ∧ with_ws (ws g) g' = g.
Proof.
  intros Ha Hf g'. subst g'. unfold Test_fail. rewrite Ha.
  destruct (isOpen (ws g)) eqn:Ho.
  - rewrite dispose_noop.
    + split; [by apply sent_sendEvent|].
      unfold sendEvent, send. rewrite Ho. by open_goofy g.
    + intros inv'.
      match goal with |- context [heap ?x] => set (g1 := x) end.
      pose proof (invocations_part_sendEvent "goofy:end_test"
                    (Some {[ "status" := Js.Str "FAILED";
                             "error_msg" := Js.Str errorMsg;
                             "invocation" := Js.Str (inv_uuid inv);
                             "test" := Js.Str (inv_path inv) ]}) g) as E.
      fold g1 in E. unfold invocations_part in E. injection E as _ E _ _.
      rewrite E. congruence.
  - rewrite sendEvent_closed by done. rewrite app_nil_r. split; [done|].
    by open_goofy g.
Qed.

Lemma Test_fail_after_dispose_witness :
  let g := Test_pass 0 sample_running in
  let g' := Test_fail 0 "too late" g in
  sent (ws g')
  = sent (ws g)
    ++ (if isOpen (ws g)
        then [end_test_event "FAILED" (Some "too late")
                {| inv_path := "SMT.LED"; inv_uuid := "u1"; iframe := None |}]
        else [])
  ∧ with_ws (ws g) g' = g.
Proof.
  apply (Test_fail_after_dispose 0 "too late" (Test_pass 0 sample_running)
           {| inv_path := "SMT.LED"; inv_uuid := "u1"; iframe := None |}).
  - vm_compute. reflexivity.
  - reflexivity.
Defined.

Lemma main_below_frames (g : Goofy) (f : nat) :
  invocations_inv g → f ∈ main (page g) →
  (f < length (frames (page g)))%nat.
Proof.
  intros (_ & H2 & _ & H4 & _) (a & inv & Ha & Hf)%H4.
  by apply (H2 a inv f).
Qed.

Lemma filter_ne_fresh (l : list nat) (f : nat) :
  f ∉ l → filter (λ x, x ≠ f) (l ++ [f]) = l.
Proof.
  induction l as [|x l IH]; intros Hf; simpl.
  - rewrite filter_cons_False; [done|]. by intros H.
  - apply not_elem_of_cons in Hf as [Hne Hf].
    rewrite filter_cons_True by done. by rewrite IH.
Qed.

Lemma set_html_fresh (p u : string) (ap : bool) (html : string) (g : Goofy) :
  invocations g !! u = None →
  let a := length (heap g) in
  let f := length (frames (page g)) in
  let g' := handleBackendEvent (SetHtml p u ap html) g in
  invocations g' = <[u := Some a]> (invocations g)
  ∧ heap g' = heap g ++ [{| inv_path := p; inv_uuid := u; iframe := Some f |}]
  ∧ frames (page g')
    = frames (page g) ++ [{| body := [html]; calls := [] |}]
  ∧ main (page g') = main (page g) ++ [f].
Proof.
  intros Hu. simpl.
  destruct (getOrCreateInvocation_fresh p u g Hu) as (Er & Ei & Eh & Efr & Em).
  destruct (getOrCreateInvocation p u g) as [g1 r]. simpl in *. subst r.
  unfold in_sandbox, frame_of. rewrite Eh.
  rewrite lookup_app_r, Nat.sub_diag by done. simpl.
  replace (invocations (with_frame _ _ g1)) with (invocations g1)
    by (by open_goofy g1).
  replace (heap (with_frame _ _ g1)) with (heap g1) by (by open_goofy g1).
  replace (main (page (with_frame _ _ g1))) with (main (page g1))
    by (by open_goofy g1).
  split_and!; try done.
  replace (frames (page (with_frame (length (frames (page g))) (write ap html) g1)))
    with (alter (write ap html) (length (frames (page g))) (frames (page g1)))
    by (by open_goofy g1).
  rewrite Efr, alter_app_r_alt by lia. rewrite Nat.sub_diag. by destruct ap.
Qed.

Lemma started_part (u : string) (a f : nat) (M : list nat) (g g' : Goofy) :
  invocations_part g' = invocations_part g →
  started u a f M g → started u a f M g'.
Proof.
  unfold invocations_part, started. intros [= E1 E2 _ E4].
  by rewrite E1, E2, E4.
Qed.

Lemma started_dispose (u : string) (a f : nat) (M : list nat) (g : Goofy) :
  f ∉ M → started u a f M g → started u a f M (dispose a g).
Proof.
  intros HM (inv & Ha & Hu & [(Hf & Hi & Hm)|(Hf & Hi & Hm)]).
  - destruct (dispose_unfold a g inv f Ha Hf) as (Di & Dh & _ & Dm).
    exists {| inv_path := inv_path inv; inv_uuid := inv_uuid inv;
              iframe := None |}.
    split_and!; [|done|right; split_and!; [done| |]].
    + rewrite Dh. apply list_lookup_insert_eq. by eapply lookup_lt_Some.
    + by rewrite Di, Hu, lookup_insert_eq.
    + rewrite Dm, Hm. by apply filter_ne_fresh.
  - rewrite dispose_noop; [exists inv; split_and!; try done; by right|].
    intros inv'. rewrite Ha. by intros [= <-].
Qed.

Lemma frames_dispose (a : nat) (g : Goofy) :
  frames (page (dispose a g)) = frames (page g).
Proof.
  unfold dispose. destruct (heap g !! a) as [inv|]; [|done].
  destruct (iframe inv); [|done]. by open_goofy g.
Qed.

Lemma started_test_api_call (h : string → string) (u : string) (a f : nat)
    (M : list nat) (i : Input) (g : Goofy) :
  f ∉ M → test_api_call a i → started u a f M g →
  started u a f M (step h i g)
  ∧ length (frames (page (step h i g))) = length (frames (page g)).
Proof.
  intros HM Hi Hs.
  assert (∀ ty props,
            length (frames (page (sendEvent ty props g)))
            = length (frames (page g))) as Hlen.
  { intros ty props.
    pose proof (invocations_part_sendEvent ty props g) as E.
    unfold invocations_part in E. by injection E as _ _ E _. }
  destruct i; simpl in Hi; try done; subst a0; simpl.
  - destruct (Test_pass_cases a g) as [->|[props ->]]; [done|].
    rewrite frames_dispose. split; [|apply Hlen].
    apply started_dispose; [done|].
    apply (started_part u a f M g); [apply invocations_part_sendEvent|done].
  - destruct (Test_fail_cases a errorMsg g) as [->|[props ->]]; [done|].
    rewrite frames_dispose. split; [|apply Hlen].
    apply started_dispose; [done|].
    apply (started_part u a f M g); [apply invocations_part_sendEvent|done].
  - unfold Test_sendTestEvent. destruct (heap g !! a) as [inv|]; [|done].
    split; [|apply Hlen].
    apply (started_part u a f M g); [apply invocations_part_sendEvent|done].
Qed.

Lemma started_test_api_calls (h : string → string) (u : string) (a f : nat)
    (M : list nat) (calls : list Input) :
  f ∉ M → Forall (test_api_call a) calls →
  ∀ g, started u a f M g →
       started u a f M (run h calls g)
       ∧ length (frames (page (run h calls g))) = length (frames (page g)).
Proof.
  intros HM Hc. unfold run.
  induction Hc as [|i l Hi _ IH]; intros g Hs; simpl; [done|].
  destruct (started_test_api_call h u a f M i g HM Hi Hs) as [Hs' Hl'].
  destruct (IH _ Hs') as [Hs'' Hl'']. split; [done|]. by rewrite Hl''.
Qed.

(** X5. In a state the controller can reach, take a set_html for a run id
    never seen before, followed by any calls the code of the test makes on
    the Test API of the invocation so created (pass, fail, sendTestEvent, in
    any number and order, the socket open or not), followed by a
    destroy_test for that run id.  Afterwards #goofy-main holds what it held
    before the set_html, the run id is bound to null, and exactly one iframe
    has been created.  When the test made no call, the set_html had put that
    iframe last under #goofy-main. *)
Theorem set_html_then_destroy_test (h : string → string)
    (inputs calls : list Input) (p u : string) (ap : bool) (html : string) :
  let g := run h inputs Goofy_new in
  invocations g !! u = None →
  Forall (test_api_call (length (heap g))) calls →
  let g1 := run h (SocketMessage (SetHtml p u ap html) :: calls) g in
  let g2 := handleBackendEvent (DestroyTest u) g1 in
  main (page g2) = main (page g)
  ∧ invocations g2 !! u = Some None
  ∧ length (frames (page g2)) = S (length (frames (page g)))
  ∧ (calls = [] →
     main (page g1) = main (page g) ++ [length (frames (page g))]).
Proof.
  intros g Hu Hc g1 g2.
  pose proof (invocations_inv_run h inputs _ invocations_inv_new) as Hinv.
  fold g in Hinv.
  destruct (set_html_fresh p u ap html g Hu) as (Ei & Eh & Efr & Em).
  set (g0 := handleBackendEvent (SetHtml p u ap html) g) in *.
  assert (length (frames (page g)) ∉ main (page g)) as HM.
  { intros Hm%(main_below_frames g _ Hinv). lia. }
  assert (started u (length (heap g)) (length (frames (page g)))
            (main (page g)) g0) as Hs.
  { eexists. split_and!.
    - by rewrite Eh, lookup_app_r, Nat.sub_diag.
    - done.
    - left. split_and!; [done| |done]. by rewrite Ei, lookup_insert_eq. }
  destruct (started_test_api_calls h u _ _ _ calls HM Hc g0 Hs) as [Hs1 Hl1].
  change (run h calls g0) with g1 in Hs1, Hl1.
  assert (length (frames (page g1)) = S (length (frames (page g)))) as Hl.
  { rewrite Hl1, Efr, length_app. simpl. lia. }
  split_and!.
  - destruct Hs1 as (inv & Ha & Hiu & [(Hf & Hi & Hm)|(Hf & Hi & Hm)]).
    + subst g2. simpl. rewrite Hi.
      destruct (dispose_unfold _ g1 _ _ Ha Hf) as (_ & _ & _ & ->).
      rewrite Hm. by apply filter_ne_fresh.
    + subst g2. simpl. by rewrite Hi.
  - destruct Hs1 as (inv & Ha & Hiu & [(Hf & Hi & Hm)|(Hf & Hi & Hm)]).
    + subst g2. simpl. rewrite Hi.
      destruct (dispose_unfold _ g1 _ _ Ha Hf) as (-> & _).
      by rewrite Hiu, lookup_insert_eq.
    + subst g2. simpl. by rewrite Hi.
  - subst g2. simpl.
    destruct (invocations g1 !! u) as [[a|]|]; try done.
    by rewrite frames_dispose.
  - intros ->. done.
Qed.

Lemma set_html_then_destroy_test_witness :
  let g := run Sha1.hex [SocketOpened; TestListReply sample_list] Goofy_new in
  let g1 := run Sha1.hex
              [SocketMessage (SetHtml "SMT.LED" "u1" false "<p>LED</p>");
               TestEvent 0 "key" "x"; TestPass 0; TestFail 0 "late"] g in
  let g2 := handleBackendEvent (DestroyTest "u1") g1 in
  main (page g2) = main (page g)
  ∧ invocations g2 !! "u1" = Some None
  ∧ length (frames (page g2)) = S (length (frames (page g)))
  ∧ ([TestEvent 0 "key" "x"; TestPass 0; TestFail 0 "late"] = [] →
     main (page g1) = main (page g) ++ [length (frames (page g))]).
Proof.
  apply (set_html_then_destroy_test Sha1.hex
           [SocketOpened; TestListReply sample_list]
           [TestEvent 0 "key" "x"; TestPass 0; TestFail 0 "late"]
           "SMT.LED" "u1" false "<p>LED</p>").
  - vm_compute. reflexivity.
  - repeat constructor.
Defined.

Lemma sandbox_live (p u : string) (a f : nat) (upd : IFrame → IFrame)
    (g : Goofy) :
  live u a f g →
  (let '(g1, r) := getOrCreateInvocation p u g in in_sandbox r upd g1)
  = with_frame f upd g.
Proof.
  intros (Hu & inv & Ha & Hiu & Hf & Hm).
  unfold getOrCreateInvocation. rewrite Hu. unfold in_sandbox, frame_of.
  rewrite Ha. simpl. by rewrite Hf.
Qed.

Lemma live_frame_unique (g : Goofy) (u u' : string) (a a' f : nat) :
  invocations_inv g → live u a f g → live u' a' f g → u = u'.
Proof.
  intros (_ & _ & H3 & _) (_ & i & Ha & Hiu & Hf & _)
    (_ & i' & Ha' & Hiu' & Hf' & _).
  pose proof (H3 a a' i i' f Ha Ha' Hf Hf') as ->. congruence.
Qed.

Lemma live_with_frame (u : string) (a f f0 : nat) (upd : IFrame → IFrame)
    (g : Goofy) :
  live u a f g → live u a f (with_frame f0 upd g).
Proof. unfold live. by open_goofy g. Qed.

Lemma live_getOrCreateInvocation (p v u : string) (a f : nat) (g : Goofy) :
  live u a f g → live u a f (getOrCreateInvocation p v g).1.
Proof.
  intros Hl. destruct (invocations g !! v) as [r|] eqn:Hv.
  { unfold getOrCreateInvocation. by rewrite Hv. }
  destruct (getOrCreateInvocation_fresh p v g Hv) as (_ & Ei & Eh & _ & Em).
  destruct Hl as (Hu & inv & Ha & Hiu & Hf & Hm).
  unfold live. rewrite Ei, Eh, Em. split.
  - rewrite lookup_insert_ne; [done|]. congruence.
  - exists inv. split_and!; try done.
    + by apply lookup_app_l_Some.
    + apply elem_of_app. by left.
Qed.

(** X7. In a state the controller can reach, an event addressed to one run
    id (set_html, run_js, call_js_function or destroy_test) leaves every
    other live run id live, with the same invocation and iframe, and does
    not touch the document of that iframe. *)
Theorem sandbox_events_isolated (h : string → string) (inputs : list Input)
    (m : Message) (u v : string) (a f : nat) :
  let g := run h inputs Goofy_new in
  live u a f g →
  addressed_to v m = true →
  v ≠ u →
  let g' := handleBackendEvent m g in
  live u a f g' ∧ frames (page g') !! f = frames (page g) !! f.
Proof.
  intros g Hl Hm Hne g'.
  pose proof (invocations_inv_run h inputs _ invocations_inv_new) as Hinv.
  fold g in Hinv.
  assert (f < length (frames (page g)))%nat as Hlt.
  { apply (main_below_frames g f Hinv). by destruct Hl as (_ & ? & _ & _ & _ & ?). }
  assert (∀ p upd,
    let g' := (let '(g1, r) := getOrCreateInvocation p v g in
               in_sandbox r upd g1) in
    live u a f g' ∧ frames (page g') !! f = frames (page g) !! f) as Hsb.
  { intros p upd. destruct (invocations g !! v) as [[b|]|] eqn:Hv.
    - pose proof Hinv as (H1 & _). destruct (H1 v b Hv) as [fb Hb].
      rewrite (sandbox_live p v b fb upd g Hb). simpl. split.
      + by apply live_with_frame.
      + assert (fb ≠ f) as Hfb.
        { intros ->. apply Hne.
          by apply (live_frame_unique g v u b a f). }
        open_goofy g. simpl. by rewrite list_lookup_alter_ne.
    - unfold getOrCreateInvocation. by rewrite Hv.
    - pose proof (live_getOrCreateInvocation p v u a f g Hl) as Hl1.
      destruct (getOrCreateInvocation_fresh p v g Hv) as (Er & _ & Eh & Efr & _).
      destruct (getOrCreateInvocation p v g) as [g1 r]. simpl in *. subst r.
      unfold in_sandbox, frame_of. rewrite Eh.
      rewrite lookup_app_r, Nat.sub_diag by done. simpl. split.
      + by apply live_with_frame.
      + replace (frames (page (with_frame _ upd g1)))
          with (alter upd (length (frames (page g))) (frames (page g1)))
          by (by open_goofy g1).
        rewrite list_lookup_alter_ne by lia.
        rewrite Efr. by apply lookup_app_l. }
  subst g'.
  destruct m
    as [w|text|p st|p w ap html|p w args js|p w name args|w|sys|si|ty];
    try done; simpl in Hm; apply bool_decide_eq_true in Hm as ->.
  - apply Hsb.
  - apply Hsb.
  - apply Hsb.
  - simpl. destruct (invocations g !! v) as [[b|]|] eqn:Hv; try done.
    destruct Hinv as (H1 & H2 & H3 & _).
    destruct (H1 v b Hv) as (fb & _ & ib & Hb & Hib & Hfb & Hmb).
    destruct (dispose_unfold b g ib fb Hb Hfb) as (Di & Dh & Dfr & Dm).
    rewrite Dfr. split; [|done].
    destruct Hl as (Hu & inv & Ha & Hiu & Hf & Hmf).
    assert (b ≠ a) as Hba by (intros ->; congruence).
    unfold live. rewrite Di, Dh, Dm. split.
    + rewrite lookup_insert_ne; [done|]. congruence.
    + exists inv. split_and!; try done.
      * by rewrite list_lookup_insert_ne.
      * apply list_elem_of_filter. split; [|done]. intros ->.
        apply Hba. symmetry. by apply (H3 a b inv ib fb).
Qed.

Lemma sandbox_events_isolated_witness :
  let g := run Sha1.hex
             [SocketMessage (SetHtml "SMT.LED" "u1" false "<p>LED</p>");
              SocketMessage (SetHtml "SMT.LCD" "u2" false "<p>LCD</p>")]
             Goofy_new in
  let g' := handleBackendEvent (DestroyTest "u2") g in
  live "u1" 0 0 g' ∧ frames (page g') !! 0%nat = frames (page g) !! 0%nat.
Proof.
  apply (sandbox_events_isolated Sha1.hex
           [SocketMessage (SetHtml "SMT.LED" "u1" false "<p>LED</p>");
            SocketMessage (SetHtml "SMT.LCD" "u2" false "<p>LCD</p>")]
           (DestroyTest "u2") "u1" "u2" 0 0).
  - vm_compute. split; [done|]. eexists. split_and!; try done.
    apply list_elem_of_here.
  - reflexivity.
  - done.
Defined.

(** ** The session and the events sent *)

Lemma control_part_outside_tree (g g' : Goofy) :
  outside_tree g' = outside_tree g → control_part g' = control_part g.
Proof. unfold outside_tree, control_part. congruence. Qed.

Lemma ws_outside_tree (g g' : Goofy) :
  outside_tree g' = outside_tree g → ws g' = ws g.
Proof. unfold outside_tree. congruence. Qed.

Lemma control_part_sendEvent ty props g :
  control_part (sendEvent ty props g) = control_part g.
Proof.
  unfold sendEvent, send. destruct (isOpen (ws g)); by open_goofy g.
Qed.

Lemma control_part_keepAlive g : control_part (keepAlive g) = control_part g.
Proof.
  unfold keepAlive. case_match; [apply control_part_sendEvent|done].
Qed.

Lemma control_part_dispose a g : control_part (dispose a g) = control_part g.
Proof. unfold dispose. repeat case_match; try done; by open_goofy g. Qed.

Lemma control_part_sandbox p u upd g :
  control_part
    (let '(g1, r) := getOrCreateInvocation p u g in in_sandbox r upd g1)
  = control_part g.
Proof.
  unfold getOrCreateInvocation, in_sandbox, frame_of.
  destruct (invocations g !! u) as [[a|]|]; simpl.
  - destruct (heap g !! a) as [inv|]; simpl; [|done].
    destruct (iframe inv); [|done]. by open_goofy g.
  - done.
  - open_goofy g. simpl. by rewrite lookup_app_r, Nat.sub_diag by done.
Qed.

Lemma control_part_setPendingShutdown si g :
  control_part (setPendingShutdown si g) = control_part g.
Proof.
  unfold setPendingShutdown, closeDialog, openDialog.
  repeat case_match; simplify_eq; by open_goofy g.
Qed.

Lemma control_part_timerTick i now g :
  control_part (timerTick i now g) = control_part g.
Proof. unfold timerTick. repeat case_match; by open_goofy g. Qed.

Lemma control_part_setTestList tl g :
  control_part (setTestList tl g) = control_part g.
Proof.
  unfold setTestList.
  rewrite (control_part_outside_tree _ _ (outside_tree_addToNode _ _ _ _)).
  by open_goofy g.
Qed.

Lemma control_part_alert html g : control_part (alert html g) = control_part g.
Proof. by open_goofy g. Qed.

Lemma control_part_Test_pass a g : control_part (Test_pass a g) = control_part g.
Proof.
  destruct (Test_pass_cases a g) as [->|[ev ->]]; [done|].
  by rewrite control_part_dispose, control_part_sendEvent.
Qed.

Lemma control_part_Test_fail a e g :
  control_part (Test_fail a e g) = control_part g.
Proof.
  destruct (Test_fail_cases a e g) as [->|[ev ->]]; [done|].
  by rewrite control_part_dispose, control_part_sendEvent.
Qed.

Lemma control_part_Test_sendTestEvent a s d g :
  control_part (Test_sendTestEvent a s d g) = control_part g.
Proof.
  unfold Test_sendTestEvent. case_match; [|done].
  apply control_part_sendEvent.
Qed.

Lemma control_part_step h i g :
  plain i = true → control_part (step h i g) = control_part g.
Proof.
  intros Hp. destruct i; try done; simpl.
  - by open_goofy g.
  - by open_goofy g.
  - destruct message
      as [u|text|p st|p u ap html|p u args js|p u name args|u|sys|si|ty];
      try done; simpl.
    + by open_goofy g.
    + apply control_part_outside_tree, outside_tree_setTestState.
    + apply control_part_sandbox.
    + apply control_part_sandbox.
    + apply control_part_sandbox.
    + repeat case_match; try done. apply control_part_dispose.
    + by open_goofy g.
    + apply (control_part_setPendingShutdown (Some si)).
  - apply control_part_keepAlive.
  - apply control_part_timerTick.
  - apply control_part_sendEvent.
  - apply control_part_setTestList.
  - apply control_part_outside_tree, outside_tree_testStatesReceived.
  - by open_goofy g.
  - apply control_part_sendEvent.
  - by open_goofy g.
  - apply control_part_Test_pass.
  - apply control_part_Test_fail.
  - apply control_part_Test_sendTestEvent.
Qed.

Lemma uuid_control (g g' : Goofy) :
  control_part g' = control_part g → uuid g' = uuid g.
Proof. unfold control_part. congruence. Qed.

Lemma uuid_setEngineeringMode b g : uuid (setEngineeringMode b g) = uuid g.
Proof. by open_goofy g. Qed.

Lemma uuid_step h i g u :
  uuid g = Some u → u ≠ "" → uuid (step h i g) = Some u.
Proof.
  intros Hu Hne. destruct (plain i) eqn:Hp.
  { by rewrite (uuid_control _ _ (control_part_step h i g Hp)). }
  destruct i as [| |m| | | | |text| | |o| | | | | |]; try done; simpl.
  - destruct m; try done. simpl. rewrite Hu.
    assert (Js.truthy (Some u) = true) as ->.
    { simpl. by destruct (String.eqb_spec u ""). }
    unfold Js.neq. case_bool_decide as E; simpl.
    + rewrite (uuid_control _ _ (control_part_keepAlive _)).
      injection E as ->. by open_goofy g.
    + by open_goofy g.
  - unfold promptEngineeringPassword, openDialog.
    repeat case_match; simplify_eq; by open_goofy g.
  - unfold passwordEntered. repeat case_match; by open_goofy g.
  - by open_goofy g.
Qed.

(** X8. Once a non-empty session id is recorded, it is recorded for good:
    whatever inputs follow (a hello with another id only asks for a reload),
    the recorded id is the same. *)
Theorem session_id_never_changes (h : string → string)
    (inputs : list Input) (g : Goofy) (u : string) :
  uuid g = Some u → u ≠ "" → uuid (run h inputs g) = Some u.
Proof.
  intros Hu Hne. revert g Hu. unfold run.
  induction inputs as [|i l IH]; intros g Hu; simpl; [done|].
  by apply IH, uuid_step.
Qed.

Lemma session_id_never_changes_witness :
  uuid (run Sha1.hex
          [SocketMessage (Hello "session-2"); KeepAliveTimer;
           OptionsReply None]
          (handleBackendEvent (Hello "session-1") Goofy_new))
  = Some "session-1".
Proof.
  apply (session_id_never_changes Sha1.hex
           [SocketMessage (Hello "session-2"); KeepAliveTimer;
            OptionsReply None]
           (handleBackendEvent (Hello "session-1") Goofy_new) "session-1").
  - reflexivity.
  - done.
Defined.

Lemma sends_nothing (g g' : Goofy) : ws g' = ws g → sends [] g g'.
Proof. unfold sends. intros ->. by rewrite app_nil_r. Qed.

Lemma typed_sendEvent ty (props : option Event) :
  typed (<["type" := Js.Str ty]> (default ∅ props)).
Proof. exists ty. apply lookup_insert_eq. Qed.

Lemma ws_sandbox p u upd g :
  ws (let '(g1, r) := getOrCreateInvocation p u g in in_sandbox r upd g1)
  = ws g.
Proof.
  unfold getOrCreateInvocation, in_sandbox, frame_of.
  destruct (invocations g !! u) as [[a|]|]; simpl.
  - destruct (heap g !! a) as [inv|]; simpl; [|done].
    destruct (iframe inv); [|done]. by open_goofy g.
  - done.
  - open_goofy g. simpl. by rewrite lookup_app_r, Nat.sub_diag by done.
Qed.

Lemma sends_typed_nothing (g g' : Goofy) : ws g' = ws g → sends_typed g g'.
Proof. intros H. exists []. split; [by apply sends_nothing|done]. Qed.

Lemma sends_typed_sent (g g' : Goofy) :
  sent (ws g') = sent (ws g) → sends_typed g g'.
Proof. intros H. exists []. unfold sends. by rewrite app_nil_r. Qed.

Lemma sends_typed_sendEvent ty props g : sends_typed g (sendEvent ty props g).
Proof.
  destruct (isOpen (ws g)) eqn:Ho.
  - eexists. split; [by apply sent_sendEvent|].
    apply Forall_singleton, typed_sendEvent.
  - apply sends_typed_nothing. by rewrite sendEvent_closed.
Qed.

Lemma sends_typed_keepAlive g : sends_typed g (keepAlive g).
Proof.
  unfold keepAlive. case_match;
    [apply sends_typed_sendEvent|by apply sends_typed_nothing].
Qed.

Lemma sends_typed_then_dispose a g g1 :
  sends_typed g g1 → sends_typed g (dispose a g1).
Proof.
  intros (es & H & Ht). exists es. split; [|done].
  unfold sends in *. by rewrite ws_dispose.
Qed.

Lemma sends_typed_step h i g : sends_typed g (step h i g).
Proof.
  destruct i; simpl.
  - apply sends_typed_sent. by open_goofy g.
  - apply sends_typed_sent. by open_goofy g.
  - destruct message
      as [u|text|p st|p u ap html|p u args js|p u name args|u|sys|si|ty];
      simpl.
    + case_match.
      * apply sends_typed_nothing. by open_goofy g.
      * destruct (sends_typed_keepAlive (with_uuid (Some u) g))
          as (es & Hs & Ht).
        exists es. split; [|done]. revert Hs. unfold sends.
        by replace (ws (with_uuid (Some u) g)) with (ws g)
          by (by open_goofy g).
    + apply sends_typed_nothing. by open_goofy g.
    + apply sends_typed_nothing, ws_outside_tree, outside_tree_setTestState.
    + apply sends_typed_nothing, ws_sandbox.
    + apply sends_typed_nothing, ws_sandbox.
    + apply sends_typed_nothing, ws_sandbox.
    + apply sends_typed_nothing. repeat case_match; try done. apply ws_dispose.
    + apply sends_typed_nothing. by open_goofy g.
    + apply sends_typed_nothing.
      change (ws (setPendingShutdown (Some si) g) = ws g).
      unfold setPendingShutdown, closeDialog, openDialog.
      repeat case_match; simplify_eq; by open_goofy g.
    + by apply sends_typed_nothing.
  - apply sends_typed_keepAlive.
  - apply sends_typed_nothing. unfold timerTick.
    repeat case_match; by open_goofy g.
  - apply sends_typed_sendEvent.
  - apply sends_typed_nothing. unfold promptEngineeringPassword, openDialog.
    repeat case_match; simplify_eq; by open_goofy g.
  - apply sends_typed_nothing. unfold passwordEntered.
    repeat case_match; by open_goofy g.
  - apply sends_typed_nothing. unfold setTestList.
    rewrite (ws_outside_tree _ _ (outside_tree_addToNode _ _ _ _)).
    by open_goofy g.
  - apply sends_typed_nothing, ws_outside_tree,
      outside_tree_testStatesReceived.
  - apply sends_typed_nothing. by open_goofy g.
  - apply sends_typed_nothing. by open_goofy g.
  - apply sends_typed_sendEvent.
  - apply sends_typed_nothing. by open_goofy g.
  - destruct (Test_pass_cases a g) as [->|[props ->]];
      [by apply sends_typed_nothing|].
    apply sends_typed_then_dispose, sends_typed_sendEvent.
  - destruct (Test_fail_cases a errorMsg g) as [->|[props ->]];
      [by apply sends_typed_nothing|].
    apply sends_typed_then_dispose, sends_typed_sendEvent.
  - unfold Test_sendTestEvent. case_match; [|by apply sends_typed_nothing].
    apply sends_typed_sendEvent.
Qed.

(** X9. Whatever the inputs, what was handed to the socket stays handed to
    it, and every event handed to it in the meantime has a type. *)
Theorem sent_log_grows_by_typed_events (h : string → string)
    (inputs : list Input) (g : Goofy) :
  ∃ es, sent (ws (run h inputs g)) = sent (ws g) ++ es
        ∧ Forall typed es.
Proof.
  revert g. unfold run.
  induction inputs as [|i l IH]; intros g; simpl.
  - exists []. by rewrite app_nil_r.
  - destruct (sends_typed_step h i g) as (e1 & H1 & T1).
    destruct (IH (step h i g)) as (e2 & H2 & T2).
    exists (e1 ++ e2). split.
    + rewrite H2, H1. by rewrite app_assoc.
    + by apply Forall_app.
Qed.

(** ** Engineering mode *)

Lemma engineering_part_control (g g' : Goofy) :
  control_part g' = control_part g →
  engineering_part g' = engineering_part g.
Proof. unfold control_part, engineering_part. congruence. Qed.

Lemma engineering_part_hello (u : string) (g : Goofy) :
  engineering_part (handleBackendEvent (Hello u) g) = engineering_part g.
Proof.
  simpl. case_match.
  - by open_goofy g.
  - rewrite (engineering_part_control _ _ (control_part_keepAlive _)).
    by open_goofy g.
Qed.

Lemma engineering_inv_part (g g' : Goofy) :
  engineering_part g' = engineering_part g →
  engineering_inv g → engineering_inv g'.
Proof.
  unfold engineering_part, engineering_inv. intros [= -> _ ->]. done.
Qed.

Lemma enable_spec (classes : list string) (c x : string) (b : bool) :
  x ∈ Classes.enable classes c b
  ↔ (x = c ∧ b = true) ∨ (x ≠ c ∧ x ∈ classes).
Proof.
  unfold Classes.enable, Classes.add, Classes.contains.
  destruct b.
  - case_bool_decide as Hc.
    + destruct (decide (x = c)) as [->|Hne]; [tauto|]. tauto.
    + rewrite elem_of_app, list_elem_of_singleton.
      destruct (decide (x = c)) as [->|Hne]; tauto.
  - rewrite list_elem_of_filter. split.
    + intros [? ?]. by right.
    + intros [[_ [=]]|[? ?]]. done.
Qed.

Lemma engineering_inv_setEngineeringMode b g :
  engineering_inv (setEngineeringMode b g).
Proof.
  unfold engineering_inv.
  replace (bodyClasses (page (setEngineeringMode b g)))
    with (Classes.enable (bodyClasses (page g)) "goofy-engineering-mode" b)
    by (by open_goofy g).
  replace (engineeringMode (setEngineeringMode b g)) with b
    by (by open_goofy g).
  rewrite enable_spec. split; [|by left]. by intros [[_ ?]|[? _]].
Qed.

Lemma control_part_promptEngineeringPassword g :
  promptEngineeringPassword g
  = setEngineeringMode false
      (match engineeringModeDialog g with
       | Some i => with_engineeringModeDialog (None : option nat)
                     (with_dialog_at i (λ d, disposeDialog (hide d)) g)
       | None => g
       end)
  ∨ control_part (promptEngineeringPassword g) = control_part g.
Proof.
  unfold promptEngineeringPassword.
  set (g1 := match engineeringModeDialog g with Some _ => _ | None => g end).
  assert (control_part g1 = control_part g) as E1.
  { subst g1. destruct (engineeringModeDialog g); by open_goofy g. }
  destruct (negb _).
  - right. by rewrite control_part_alert.
  - destruct (engineeringMode g1); [by left|]. right.
    rewrite <- E1. unfold openDialog. by open_goofy g1.
Qed.

Lemma control_part_passwordEntered h text g :
  (passwordEntered h text g = setEngineeringMode true g
   ∧ ∃ t, text = Some t ∧ t ≠ "" ∧ engineeringPasswordSHA1 g = Some (h t))
  ∨ control_part (passwordEntered h text g) = control_part g.
Proof.
  unfold passwordEntered.
  destruct (negb (Js.truthy text) || bool_decide (text = Some "")) eqn:E;
    [by right|].
  apply orb_false_elim in E as [E1 E2].
  apply bool_decide_eq_false in E2.
  destruct text as [t|]; [|done]. simpl.
  case_bool_decide as Hd.
  - left. split; [done|]. exists t. split_and!; [done|congruence|done].
  - right. apply control_part_alert.
Qed.

Lemma engineering_inv_step h i g :
  engineering_inv g → engineering_inv (step h i g).
Proof.
  intros Hinv. destruct (plain i) eqn:Hp.
  { revert Hinv.
    by apply engineering_inv_part, engineering_part_control,
      control_part_step. }
  destruct i as [| |m| | | | |text| | |o| | | | | |]; try done; simpl.
  - destruct m as [u| | | | | | | | |]; try done. revert Hinv.
    apply engineering_inv_part, engineering_part_hello.
  - destruct (control_part_promptEngineeringPassword g) as [-> | E].
    + apply engineering_inv_setEngineeringMode.
    + revert Hinv.
      by apply engineering_inv_part, engineering_part_control.
  - destruct (control_part_passwordEntered h text g) as [[-> _] | E].
    + apply engineering_inv_setEngineeringMode.
    + revert Hinv.
      by apply engineering_inv_part, engineering_part_control.
  - apply engineering_inv_setEngineeringMode.
Qed.

(** X10. In every state the controller can reach, the body carries the class
    goofy-engineering-mode exactly when engineering mode is on. *)
Theorem engineering_class_tracks_mode (h : string → string)
    (inputs : list Input) :
  let g := run h inputs Goofy_new in
  "goofy-engineering-mode" ∈ bodyClasses (page g) ↔ engineeringMode g = true.
Proof.
  simpl. change (engineering_inv (run h inputs Goofy_new)).
  assert (∀ g, engineering_inv g → engineering_inv (run h inputs g)) as H.
  { unfold run. induction inputs as [|i l IH]; intros g Hg; simpl; [done|].
    by apply IH, engineering_inv_step. }
  apply H. unfold engineering_inv. simpl. split; [|done].
  intros []%elem_of_nil.
Qed.

Lemma run_snoc h l i g : run h (l ++ [i]) g = step h i (run h l g).
Proof. unfold run. by rewrite foldl_app. Qed.

Lemma password_inv_part h l i g g' :
  engineering_part g' = engineering_part g →
  password_inv h l g → password_inv h (l ++ [i]) g'.
Proof.
  unfold engineering_part, password_inv. intros [= -> -> _] [Ha Hb]. split.
  - destruct Ha as [?|?]; [by left|right]. apply elem_of_app. by left.
  - intros Hm. destruct (Hb Hm) as [?|(t & Hne & Hin & Hh)].
    + left. apply elem_of_app. by left.
    + right. exists t. split_and!; [done|apply elem_of_app; by left|].
      destruct Hh as [?|?]; [by left|right]. apply elem_of_app. by left.
Qed.

Lemma password_inv_run h l :
  password_inv h l (run h l Goofy_new).
Proof.
  induction l as [|i l IH] using rev_ind.
  { split; [by left|done]. }
  rewrite run_snoc. set (g := run h l Goofy_new) in *.
  destruct (plain i) eqn:Hp.
  { revert IH.
    by apply password_inv_part, engineering_part_control,
      control_part_step. }
  destruct i as [| |m| | | | |text| | |o| | | | | |]; try done; simpl.
  - destruct m as [u| | | | | | | | |]; try done. revert IH.
    apply password_inv_part, engineering_part_hello.
  - destruct (control_part_promptEngineeringPassword g) as [-> | E].
    + destruct IH as [Ha _]. split.
      * replace (engineeringPasswordSHA1 (setEngineeringMode false _))
          with (engineeringPasswordSHA1 g)
          by (destruct (engineeringModeDialog g); by open_goofy g).
        destruct Ha as [?|?]; [by left|right]. apply elem_of_app. by left.
      * replace (engineeringMode (setEngineeringMode false _)) with false;
          [done|].
        destruct (engineeringModeDialog g); by open_goofy g.
    + revert IH. by apply password_inv_part, engineering_part_control.
  - destruct (control_part_passwordEntered h text g)
      as [[-> (t & -> & Hne & Hh)] | E].
    + destruct IH as [Ha _]. split.
      * replace (engineeringPasswordSHA1 (setEngineeringMode true g))
          with (engineeringPasswordSHA1 g) by (by open_goofy g).
        destruct Ha as [?|?]; [by left|right]. apply elem_of_app. by left.
      * intros _. right. exists t. split_and!; [done| |].
        -- apply elem_of_app. right. apply list_elem_of_singleton. done.
        -- rewrite Hh in Ha. destruct Ha as [[= ->]|Ha]; [by left|right].
           apply elem_of_app. by left.
    + revert IH. by apply password_inv_part, engineering_part_control.
  - split.
    + right. apply elem_of_app. right. apply list_elem_of_singleton.
      f_equal. by open_goofy g.
    + replace (engineeringMode (optionsReceived o g))
        with (bool_decide (o = None)) by (by open_goofy g).
      intros ->%bool_decide_eq_true. left. apply elem_of_app. right.
      by apply list_elem_of_singleton.
Qed.

(** X11. Engineering mode is entered only the two ways the code provides.
    If it is on after some inputs from the construction of the controller,
    then either the options received said that there is no password, or a
    non-empty text was entered in the prompt whose digest is a hash received
    with the options (or is the initial value of the hash, the one-character
    string with a question mark). *)
Theorem engineering_mode_needs_password (h : string → string)
    (inputs : list Input) :
  engineeringMode (run h inputs Goofy_new) = true →
  OptionsReply None ∈ inputs
  ∨ ∃ text, text ≠ "" ∧ PromptAnswer (Some text) ∈ inputs
            ∧ (h text = "?" ∨ OptionsReply (Some (h text)) ∈ inputs).
Proof. apply password_inv_run. Qed.

Lemma engineering_mode_needs_password_witness :
  let inputs := [OptionsReply (Some (Sha1.hex "secret")); PromptKey;
                 PromptAnswer (Some "secret")] in
  OptionsReply None ∈ inputs
  ∨ ∃ text, text ≠ "" ∧ PromptAnswer (Some text) ∈ inputs
            ∧ (Sha1.hex text = "?"
               ∨ OptionsReply (Some (Sha1.hex text)) ∈ inputs).
Proof.
  apply (engineering_mode_needs_password Sha1.hex
           [OptionsReply (Some (Sha1.hex "secret")); PromptKey;
            PromptAnswer (Some "secret")]).
  vm_compute. reflexivity.
Defined.

Lemma sha1_hex_length (s : string) : String.length (Sha1.hex s) = 40%nat.
Proof.
  unfold Sha1.hex, Sha1.digest.
  destruct (fold_left _ _ _) as [[[[a b] c] d] e]. reflexivity.
Qed.

(** X12. As the comment on engineeringPasswordSHA1 says, with the initial
    value of the hash engineering mode cannot be entered: as long as no
    options have been received and the digest function returns 40
    characters, engineering mode is off whatever is typed. *)
Theorem default_hash_never_unlocks (h : string → string)
    (inputs : list Input) :
  (∀ text, String.length (h text) = 40%nat) →
  (∀ o, OptionsReply o ∉ inputs) →
  engineeringMode (run h inputs Goofy_new) = false.
Proof.
  intros Hlen Hno.
  destruct (engineeringMode (run h inputs Goofy_new)) eqn:E; [|done].
  destruct (password_inv_run h inputs) as [_ Hb].
  destruct (Hb E) as [Ho|(t & _ & _ & [Hq|Ho])].
  - by destruct (Hno None).
  - pose proof (Hlen t) as Hl. rewrite Hq in Hl. done.
  - by destruct (Hno (Some (h t))).
Qed.

Lemma default_hash_never_unlocks_witness :
  engineeringMode
    (run Sha1.hex [PromptKey; PromptAnswer (Some "?"); PromptKey;
                   PromptAnswer (Some "secret")] Goofy_new)
  = false.
Proof.
  apply (default_hash_never_unlocks Sha1.hex
           [PromptKey; PromptAnswer (Some "?"); PromptKey;
            PromptAnswer (Some "secret")]).
  - exact sha1_hex_length.
  - intros o Hin. repeat (apply elem_of_cons in Hin as [Hin|Hin]; [done|]).
    by apply elem_of_nil in Hin.
Defined.

Lemma engineering_part_promptEngineeringPassword_falsy g :
  Js.truthy (engineeringPasswordSHA1 g) = false →
  engineering_part (promptEngineeringPassword g) = engineering_part g.
Proof.
  intros Hf. unfold promptEngineeringPassword.
  set (g1 := match engineeringModeDialog g with Some _ => _ | None => g end).
  assert (engineering_part g1 = engineering_part g) as E1.
  { subst g1. destruct (engineeringModeDialog g); by open_goofy g. }
  assert (engineeringPasswordSHA1 g1 = engineeringPasswordSHA1 g) as E2.
  { unfold engineering_part in E1. congruence. }
  rewrite E2, Hf. simpl. rewrite <- E1. by open_goofy g1.
Qed.

(** X13. When the password hash is null and engineering mode is on (the
    state the options reply without a password leaves), engineering mode
    stays on and the hash stays null until another options reply arrives:
    the prompt key only raises the alert that no password has been set, and
    no text entered switches it off. *)
Theorem no_password_keeps_engineering_mode (h : string → string)
    (inputs : list Input) (g : Goofy) :
  engineeringPasswordSHA1 g = None →
  engineeringMode g = true →
  (∀ o, OptionsReply o ∉ inputs) →
  engineeringMode (run h inputs g) = true
  ∧ engineeringPasswordSHA1 (run h inputs g) = None.
Proof.
  revert g. unfold run.
  induction inputs as [|i l IH]; intros g Hh Hm Hno; simpl; [done|].
  assert (engineering_part (step h i g) = engineering_part g) as E.
  { destruct (plain i) eqn:Hp.
    { by apply engineering_part_control, control_part_step. }
    destruct i as [| |m| | | | |text| | |o| | | | | |]; try done.
    - destruct m as [u| | | | | | | | |]; try done.
      apply engineering_part_hello.
    - apply engineering_part_promptEngineeringPassword_falsy.
      by rewrite Hh.
    - simpl.
      destruct (control_part_passwordEntered h text g)
        as [[_ (t & _ & _ & Ht)] | E].
      + congruence.
      + by apply engineering_part_control.
    - destruct (Hno o). apply list_elem_of_here. }
  unfold engineering_part in E. injection E as E1 E2 _.
  apply IH; [congruence..|].
  intros o Ho. apply (Hno o). by right.
Qed.

Lemma no_password_keeps_engineering_mode_witness :
  let g := run Sha1.hex [PromptKey; PromptAnswer (Some "guess"); PromptKey]
             (optionsReceived None Goofy_new) in
  engineeringMode g = true ∧ engineeringPasswordSHA1 g = None.
Proof.
  apply (no_password_keeps_engineering_mode Sha1.hex
           [PromptKey; PromptAnswer (Some "guess"); PromptKey]
           (optionsReceived None Goofy_new)).
  - reflexivity.
  - reflexivity.
  - intros o Hin. repeat (apply elem_of_cons in Hin as [Hin|Hin]; [done|]).
    by apply elem_of_nil in Hin.
Defined.

(** ** The shutdown dialog *)

(** X16. In every state the controller can reach, a tick of the timer of any
    dialog other than the current shutdown dialog changes nothing: the
    timers of replaced or cancelled countdowns are dead. *)
Theorem stale_timer_ticks_do_nothing (h : string → string)
    (inputs : list Input) (i : nat) (now : Js.number) :
  let g := run h inputs Goofy_new in
  shutdownDialog g ≠ Some i →
  timerTick i now g = g.
Proof.
  intros g Hne.
  pose proof (countdown_inv_run h inputs Goofy_new countdown_inv_new)
    as Hinv.
  fold g in Hinv. unfold timerTick.
  destruct (dialogs (page g) !! i) as [d|] eqn:Hd; [|done].
  destruct (Hinv i d Hd) as [Hv Ht].
  destruct (timer d); [|done].
  destruct (Ht eq_refl) as [Hvis Hk]. by destruct (Hne (Hv Hk Hvis)).
Qed.

Lemma stale_timer_ticks_do_nothing_witness :
  let g := run Sha1.hex
             [SocketMessage (PendingShutdown sample_shutdown);
              SocketMessage (PendingShutdown sample_shutdown)] Goofy_new in
  timerTick 0 (Js.of_Z 95) g = g.
Proof.
  apply (stale_timer_ticks_do_nothing Sha1.hex
           [SocketMessage (PendingShutdown sample_shutdown);
            SocketMessage (PendingShutdown sample_shutdown)] 0 (Js.of_Z 95)).
  vm_compute. discriminate.
Defined.

(** X17. In a state the controller can reach, a pending_shutdown event that
    carries a time leaves exactly one shutdown dialog on screen: a new one,
    referred to by shutdownDialog, holding the data of the event, with its
    timer running and nothing displayed yet; the dialog that closeDialog
    closes on the way is no longer referred to. *)
Theorem pending_shutdown_shows_its_countdown (h : string → string)
    (inputs : list Input) (si : PendingShutdownEvent) :
  let g := run h inputs Goofy_new in
  let g' := handleBackendEvent (PendingShutdown si) g in
  no_time si = false →
  ∃ d, visible_countdowns g' = [d]
       ∧ shutdownDialog g' = Some (length (dialogs (page g)))
       ∧ dialogs (page g') !! length (dialogs (page g)) = Some d
       ∧ info d = Some si
       ∧ timer d = true
       ∧ countdown d = None
       ∧ dialog g' = None.
Proof.
  intros g g' Hnt.
  pose proof (countdown_inv_run h inputs Goofy_new countdown_inv_new)
    as Hinv.
  fold g in Hinv. subst g'.
  change (handleBackendEvent (PendingShutdown si) g)
    with (setPendingShutdown (Some si) g).
  rewrite setPendingShutdown_unfold, Hnt.
  pose proof (no_countdown_closeDialog _ (no_countdown_clear g Hinv)) as Hno.
  set (g2 := closeDialog (clearShutdownDialog g)) in *.
  assert (length (dialogs (page g2)) = length (dialogs (page g))) as Hlen.
  { subst g2. unfold closeDialog, clearShutdownDialog.
    destruct (shutdownDialog g) as [j|].
    - match goal with
      | |- context [match dialog ?x with _ => _ end] => set (g1 := x)
      end.
      assert (length (dialogs (page g1)) = length (dialogs (page g))) as E1.
      { subst g1. open_goofy g. simpl. apply length_alter. }
      destruct (dialog g1) as [k|]; [|done].
      rewrite <- E1. open_goofy g1. simpl. apply length_alter.
    - destruct (dialog g) as [k|]; [|done].
      open_goofy g. simpl. apply length_alter. }
  assert (dialog g2 = None) as Hdlg.
  { subst g2. unfold closeDialog.
    match goal with
    | |- context [match dialog ?x with _ => _ end] => set (g1 := x)
    end.
    destruct (dialog g1) as [k|] eqn:Hk; [|done]. by open_goofy g1. }
  unfold openDialog. cbv zeta.
  match goal with
  | |- context [with_dialogs (_ ++ [?nd]) _] => set (new := nd)
  end.
  exists new. unfold visible_countdowns.
  replace (dialogs (page (with_shutdownDialog _ _)))
    with (dialogs (page g2) ++ [new]) by (by open_goofy g2).
  replace (shutdownDialog (with_shutdownDialog _ _))
    with (Some (length (dialogs (page g2)))) by (by open_goofy g2).
  replace (dialog (with_shutdownDialog _ _)) with (dialog g2)
    by (by open_goofy g2).
  rewrite <- Hlen. split_and!; try done.
  - rewrite filter_app, filter_none.
    + by rewrite filter_cons_True.
    + intros j d Hj [Hk Hv]. destruct (Hno j d Hj) as [Hh _].
      rewrite (Hh Hk) in Hv. done.
  - by rewrite lookup_app_r, Nat.sub_diag.
Qed.

Lemma pending_shutdown_shows_its_countdown_witness :
  let g := run Sha1.hex [SocketMessage (PendingShutdown sample_shutdown)]
             Goofy_new in
  let g' := handleBackendEvent (PendingShutdown sample_shutdown) g in
  ∃ d, visible_countdowns g' = [d]
       ∧ shutdownDialog g' = Some (length (dialogs (page g)))
       ∧ dialogs (page g') !! length (dialogs (page g)) = Some d
       ∧ info d = Some sample_shutdown
       ∧ timer d = true
       ∧ countdown d = None
       ∧ dialog g' = None.
Proof.
  apply (pending_shutdown_shows_its_countdown Sha1.hex
           [SocketMessage (PendingShutdown sample_shutdown)] sample_shutdown).
  vm_compute. reflexivity.
Defined.

(** ** The test list and its states *)

Lemma entry_at_paths (pos : list nat) :
  ∀ t t', entry_at pos t = Some t' → path t' ∈ paths t.
Proof.
  induction pos as [|i r IH]; intros t t'; simpl.
  - intros [= <-]. destruct t; simpl. apply list_elem_of_here.
  - destruct (subtests t !! i) as [c|] eqn:Hc; [|done]. simpl. intros Ht'.
    destruct t as [p le lz k l st]. simpl in *. right.
    apply list_elem_of_In, in_flat_map. exists c. split.
    + apply list_elem_of_In. by eapply list_elem_of_lookup_2.
    + apply list_elem_of_In. by apply IH.
Qed.

Lemma registered_addToNode_self r pos t g :
  ∃ node, registered (path t) (addToNode r pos t g)
          = (Some (r, pos), Some node).
Proof.
  destruct t as [p le lz k l st]. simpl.
  match goal with
  | |- context [forEachIndexed ?f 0 l g] => set (g1 := forEachIndexed f 0 l g)
  end.
  eexists. unfold registered.
  replace (pathTestMap (with_pathTestMap _ _))
    with (<[p := (r, pos)]> (pathTestMap g1)) by (by open_goofy g1).
  replace (pathNodeMap (with_pathTestMap _ _))
    with (<[p := {| classes := []; childCount := length l; reveals := 0;
                    collapses := 0 |}]> (pathNodeMap g1))
    by (by open_goofy g1).
  by rewrite !lookup_insert_eq.
Qed.

Lemma registered_addToNode_step r pos t g q :
  q ≠ path t →
  registered q (addToNode r pos t g)
  = registered q
      (forEachIndexed (λ i subtest, addToNode r (pos ++ [i]) subtest)
         0%nat (subtests t) g).
Proof.
  intros Hq. destruct t as [p le lz k l st]. simpl in *.
  match goal with
  | |- context [forEachIndexed ?f 0 l g] => set (g1 := forEachIndexed f 0 l g)
  end.
  unfold registered.
  replace (pathTestMap (with_pathTestMap _ _))
    with (<[p := (r, pos)]> (pathTestMap g1)) by (by open_goofy g1).
  replace (pathNodeMap (with_pathTestMap _ _))
    with (<[p := {| classes := []; childCount := length l; reveals := 0;
                    collapses := 0 |}]> (pathNodeMap g1))
    by (by open_goofy g1).
  by rewrite !lookup_insert_ne.
Qed.

(** [addToNode] writes only at the paths of the subtree. *)
Lemma registered_addToNode_other (r : nat) (t : TestListEntry) (q : string) :
  ∀ pos g, q ∉ paths t →
    registered q (addToNode r pos t g) = registered q g.
Proof.
  induction t as [p le lz k l st IH] using TestListEntry_nested_ind.
  intros pos g Hq. simpl in Hq.
  apply not_elem_of_cons in Hq as [Hp Hl].
  rewrite registered_addToNode_step by done. simpl.
  generalize 0%nat. revert g Hl.
  induction IH as [|x l Hx _ IHl]; intros g Hl n; simpl; [done|].
  simpl in Hl. apply not_elem_of_app in Hl as [Hx1 Hl1].
  rewrite IHl by done. by apply Hx.
Qed.

Lemma registered_forEach_other (r : nat) (pos : list nat) (q : string)
    (l : list TestListEntry) :
  ∀ n g, q ∉ flat_map paths l →
    registered q
      (forEachIndexed (λ i subtest, addToNode r (pos ++ [i]) subtest) n l g)
    = registered q g.
Proof.
  induction l as [|x l IHl]; intros n g Hl; simpl; [done|].
  simpl in Hl. apply not_elem_of_app in Hl as [Hx1 Hl1].
  rewrite IHl by done. by apply registered_addToNode_other.
Qed.

(** With no path occurring twice, every entry of the subtree ends up
    registered at its own position. *)
Lemma registered_addToNode_at (r : nat) (t : TestListEntry) :
  ∀ pos g pos' t',
    NoDup (paths t) →
    entry_at pos' t = Some t' →
    ∃ node, registered (path t') (addToNode r pos t g)
            = (Some (r, pos ++ pos'), Some node).
Proof.
  induction t as [p le lz k l st IH] using TestListEntry_nested_ind.
  intros pos g pos' t' Hnd Ht'.
  destruct pos' as [|i r'].
  { simpl in Ht'. injection Ht' as <-. rewrite app_nil_r.
    apply registered_addToNode_self. }
  simpl in Ht'. destruct (l !! i) as [c|] eqn:Hc; [|done]. simpl in Ht'.
  simpl in Hnd. apply NoDup_cons in Hnd as [Hp Hnd].
  assert (path t' ∈ flat_map paths l) as Hin.
  { apply list_elem_of_In, in_flat_map. exists c. split.
    - apply list_elem_of_In. by eapply list_elem_of_lookup_2.
    - apply list_elem_of_In. by eapply entry_at_paths. }
  rewrite registered_addToNode_step by (simpl; intros E; by rewrite E in Hin).
  simpl.
  assert (∀ l' n g0,
    Forall (λ t, ∀ pos g pos' t', NoDup (paths t) →
                 entry_at pos' t = Some t' →
                 ∃ node, registered (path t') (addToNode r pos t g)
                         = (Some (r, pos ++ pos'), Some node)) l' →
    NoDup (flat_map paths l') →
    ∀ j, l' !! j = Some c →
    ∃ node,
      registered (path t')
        (forEachIndexed (λ i subtest, addToNode r (pos ++ [i]) subtest)
           n l' g0)
      = (Some (r, (pos ++ [(n + j)%nat]) ++ r'), Some node)) as Hloop.
  { clear g Hc Hin Hnd IH. intros l' n g0 HF. revert n g0.
    induction HF as [|x l' Hx _ IHl]; intros n g0 Hnd' j Hj; [done|].
    simpl in Hnd'. apply NoDup_app in Hnd' as (Hndx & Hdisj & Hndl).
    destruct j as [|j]; simpl in Hj |- *.
    - injection Hj as ->. rewrite Nat.add_0_r.
      rewrite registered_forEach_other.
      + exact (Hx _ _ _ _ Hndx Ht').
      + apply Hdisj. by eapply entry_at_paths.
    - destruct (IHl (S n) (addToNode r (pos ++ [n]) x g0) Hndl j Hj)
        as [node E].
      exists node. rewrite E.
      by replace (n + S j)%nat with (S n + j)%nat by lia. }
  destruct (Hloop l 0%nat g IH Hnd i Hc) as [node E].
  exists node. rewrite E. simpl. by rewrite <- app_assoc.
Qed.

(** X18. When no path occurs twice in a test list, setTestList enters every
    entry of the list, at any depth, under its own path: the test map gives
    back that very entry and the node map has a node for it.  Paths that do
    not occur in the list keep what they had in both maps. *)
Theorem setTestList_registers_every_entry (tl : TestListEntry) (g : Goofy) :
  NoDup (paths tl) →
  let g' := setTestList tl g in
  (∀ pos t, entry_at pos tl = Some t →
     test_of (path t) g' = Some t ∧ is_Some (pathNodeMap g' !! path t))
  ∧ (∀ q, q ∉ paths tl →
       pathTestMap g' !! q = pathTestMap g !! q
       ∧ pathNodeMap g' !! q = pathNodeMap g !! q).
Proof.
  intros Hnd g'. subst g'. unfold setTestList.
  set (g0 := with_tests (tests g ++ [tl]) g).
  assert (tests (addToNode (length (tests g)) [] tl g0) = tests g ++ [tl])
    as Hts.
  { rewrite tests_addToNode. subst g0. by open_goofy g. }
  split.
  - intros pos t Ht.
    destruct (registered_addToNode_at (length (tests g)) tl [] g0 pos t
                Hnd Ht) as [node [= E1 E2]].
    split; [|by rewrite E2].
    unfold test_of. rewrite E1, Hts. simpl.
    by rewrite lookup_app_r, Nat.sub_diag.
  - intros q Hq.
    pose proof (registered_addToNode_other (length (tests g)) tl q [] g0 Hq)
      as [= E1 E2].
    rewrite E1, E2. subst g0. by open_goofy g.
Qed.

Lemma setTestList_registers_every_entry_witness :
  let g' := setTestList sample_list Goofy_new in
  (∀ pos t, entry_at pos sample_list = Some t →
     test_of (path t) g' = Some t ∧ is_Some (pathNodeMap g' !! path t))
  ∧ (∀ q, q ∉ paths sample_list →
       pathTestMap g' !! q = pathTestMap Goofy_new !! q
       ∧ pathNodeMap g' !! q = pathNodeMap Goofy_new !! q).
Proof.
  apply (setTestList_registers_every_entry sample_list Goofy_new).
  apply (bool_decide_unpack _). vm_compute. exact I.
Defined.

Lemma state_assign_state_other (pos' : list nat) :
  ∀ pos st t, pos ≠ pos' →
    entry_at pos' (assign_state pos st t) ≫= state
    = entry_at pos' t ≫= state.
Proof.
  induction pos' as [|i r' IH]; intros pos st t Hne.
  - destruct pos as [|j q]; [done|]. by destruct t.
  - destruct pos as [|j q]; [by destruct t|].
    cbn [assign_state entry_at]. 
    replace (subtests (with_subtests
               (alter (assign_state q st) j (subtests t)) t))
      with (alter (assign_state q st) j (subtests t)) by (by destruct t).
    destruct (decide (j = i)) as [->|Hji].
    + rewrite list_lookup_alter_eq.
      destruct (subtests t !! i) as [c|]; [|done]. simpl.
      apply IH. congruence.
    + by rewrite list_lookup_alter_ne.
Qed.

Lemma stored_state_setTestState_other (p p' : string) (st : TestState)
    (g : Goofy) :
  tree_inv g → p' ≠ p →
  stored_state p' (setTestState p st g) = stored_state p' g.
Proof.
  intros [_ Ht] Hne.
  destruct (pathNodeMap g !! p) as [node|] eqn:En;
    [|unfold setTestState; by rewrite En].
  destruct (pathTestMap g !! p) as [[r pos]|] eqn:Ep;
    [|unfold setTestState; by rewrite En, Ep].
  rewrite (setTestState_unfold p st g node r pos En Ep). cbv zeta.
  set (node2 := if String.eqb (status st) "ACTIVE" then _ else _).
  unfold stored_state, test_of.
  replace (pathTestMap (with_pathNodeMap _ _)) with (pathTestMap g)
    by (by open_goofy g).
  replace (tests (with_pathNodeMap _ _))
    with (alter (assign_state pos st) r (tests g)) by (by open_goofy g).
  destruct (pathTestMap g !! p') as [[r' pos']|] eqn:Ep'; [|done]. simpl.
  destruct (decide (r = r')) as [->|Hr];
    [|by rewrite list_lookup_alter_ne].
  rewrite list_lookup_alter_eq.
  destruct (tests g !! r') as [root|] eqn:Hroot; [|done]. simpl.
  apply state_assign_state_other. intros ->.
  destruct (Ht p r' pos' Ep) as (root1 & t1 & Hr1 & He1 & Hp1).
  destruct (Ht p' r' pos' Ep') as (root2 & t2 & Hr2 & He2 & Hp2).
  congruence.
Qed.

(** X19. In a state the controller can reach, a state_change for one path
    leaves the stored state of every other path as it was, also when one of
    the two tests is above the other in the test list. *)
Theorem state_change_leaves_other_tests_alone (h : string → string)
    (inputs : list Input) (p p' : string) (st : TestState) :
  let g := run h inputs Goofy_new in
  let g' := handleBackendEvent (StateChange p st) g in
  p' ≠ p →
  stored_state p' g' = stored_state p' g.
Proof.
  intros g g' Hne. apply stored_state_setTestState_other; [|done].
  apply tree_inv_run, tree_inv_new.
Qed.

Lemma state_change_leaves_other_tests_alone_witness :
  let g := run Sha1.hex
             [TestListReply sample_list; TestStatesReply sample_states]
             Goofy_new in
  let g' := handleBackendEvent (StateChange "SMT" (with_status "ACTIVE")) g in
  stored_state "SMT.LED" g' = stored_state "SMT.LED" g.
Proof.
  apply (state_change_leaves_other_tests_alone Sha1.hex
           [TestListReply sample_list; TestStatesReply sample_states]
           "SMT" "SMT.LED" (with_status "ACTIVE")).
  done.
Defined.

Lemma node_setTestState (p q : string) (st : TestState) (g : Goofy) :
  is_Some (pathNodeMap g !! q) →
  is_Some (pathNodeMap (setTestState p st g) !! q).
Proof.
  intros Hq. unfold setTestState.
  destruct (pathNodeMap g !! p) as [node|] eqn:En; [|done].
  destruct (pathTestMap g !! p) as [[r pos]|] eqn:Ep; [|done].
  unfold AUTO_COLLAPSE. rewrite andb_false_r. simpl.
  match goal with
  | |- context [<[p := ?n]> _] =>
      replace (pathNodeMap (with_pathNodeMap (<[p := n]> (pathNodeMap
                 (with_tests (alter (assign_state pos st) r (tests g)) g)))
                 (with_tests (alter (assign_state pos st) r (tests g)) g)))
        with (<[p := n]> (pathNodeMap g)) by (by open_goofy g)
  end.
  rewrite lookup_insert. case_decide; [done|exact Hq].
Qed.

Lemma stored_state_setTestState (p : string) (st : TestState) (g : Goofy) :
  tree_inv g → is_Some (pathNodeMap g !! p) →
  stored_state p (setTestState p st g) = Some st.
Proof.
  intros [Hn Ht] [node En].
  destruct (Hn p (mk_is_Some _ _ En)) as [[r pos] Ep].
  destruct (Ht p r pos Ep) as (root & t & Hr & He & Hp).
  assert (test_of p g = Some t) as Htest.
  { unfold test_of. rewrite Ep. simpl. by rewrite Hr. }
  unfold stored_state.
  by rewrite (test_of_setTestState g p st node t En Htest).
Qed.

Lemma testStatesReceived_cons ps m g :
  testStatesReceived (ps :: m) g
  = testStatesReceived m
      (if Js.startsWith ps.1 "_" then g else setTestState ps.1 ps.2 g).
Proof. done. Qed.

Lemma stored_state_testStatesReceived_other (p : string)
    (m : list (string * TestState)) :
  ∀ g, tree_inv g → p ∉ m.*1 →
    stored_state p (testStatesReceived m g) = stored_state p g.
Proof.
  induction m as [|[q s] m IH]; intros g Hinv Hp; [done|].
  rewrite testStatesReceived_cons. simpl in *.
  apply not_elem_of_cons in Hp as [Hq Hm].
  destruct (Js.startsWith q "_"); [by apply IH|].
  rewrite IH; [|by apply tree_inv_setTestState|done].
  by apply stored_state_setTestState_other.
Qed.

Lemma stored_state_testStatesReceived (p : string) (st : TestState)
    (m : list (string * TestState)) :
  ∀ g, tree_inv g → NoDup m.*1 → (p, st) ∈ m →
    Js.startsWith p "_" = false →
    is_Some (pathNodeMap g !! p) →
    stored_state p (testStatesReceived m g) = Some st.
Proof.
  induction m as [|[q s] m IH]; intros g Hinv Hnd Hin Hu Hnode.
  { by apply elem_of_nil in Hin. }
  rewrite testStatesReceived_cons. simpl in *.
  apply NoDup_cons in Hnd as [Hq Hnd].
  apply elem_of_cons in Hin as [[= <- <-]|Hin].
  - rewrite Hu, stored_state_testStatesReceived_other;
      [|by apply tree_inv_setTestState|done].
    by apply stored_state_setTestState.
  - destruct (Js.startsWith q "_"); [by apply IH|].
    apply IH; try done.
    + by apply tree_inv_setTestState.
    + by apply node_setTestState.
Qed.

(** X20. In a state the controller can reach, after the reply to
    get_test_states has been handled every path of the reply that has a tree
    node and does not start with an underscore has exactly the state the
    reply gives for it (the keys of the reply being distinct). *)
Theorem test_states_reply_sets_states (h : string → string)
    (inputs : list Input) (stateMap : list (string * TestState))
    (p : string) (st : TestState) :
  let g := run h inputs Goofy_new in
  NoDup stateMap.*1 →
  (p, st) ∈ stateMap →
  Js.startsWith p "_" = false →
  is_Some (pathNodeMap g !! p) →
  stored_state p (testStatesReceived stateMap g) = Some st.
Proof.
  intros g. apply stored_state_testStatesReceived.
  apply tree_inv_run, tree_inv_new.
Qed.

Lemma test_states_reply_sets_states_witness :
  stored_state "SMT.LCD"
    (testStatesReceived sample_states
       (run Sha1.hex [TestListReply sample_list] Goofy_new))
  = Some (with_status "FAILED").
Proof.
  apply (test_states_reply_sets_states Sha1.hex [TestListReply sample_list]
           sample_states "SMT.LCD" (with_status "FAILED")).
  - apply (bool_decide_unpack _). vm_compute. exact I.
  - exact (list_elem_of_lookup_2 sample_states 4 _ eq_refl).
  - reflexivity.
  - vm_compute. by eexists.
Defined.

Lemma node_setTestState_inv (p q : string) (st : TestState) (g : Goofy) :
  is_Some (pathNodeMap (setTestState p st g) !! q) →
  is_Some (pathNodeMap g !! q).
Proof.
  unfold setTestState.
  destruct (pathNodeMap g !! p) as [node|] eqn:En; [|done].
  destruct (pathTestMap g !! p) as [[r pos]|] eqn:Ep; [|done].
  unfold AUTO_COLLAPSE. rewrite andb_false_r. simpl.
  match goal with
  | |- context [<[p := ?n]> _] =>
      replace (pathNodeMap (with_pathNodeMap (<[p := n]> (pathNodeMap
                 (with_tests (alter (assign_state pos st) r (tests g)) g)))
                 (with_tests (alter (assign_state pos st) r (tests g)) g)))
        with (<[p := n]> (pathNodeMap g)) by (by open_goofy g)
  end.
  rewrite lookup_insert. case_decide as E; [|done].
  intros _. subst q. by rewrite En.
Qed.

Lemma node_testStatesReceived_inv (q : string)
    (m : list (string * TestState)) :
  ∀ g, is_Some (pathNodeMap (testStatesReceived m g) !! q) →
       is_Some (pathNodeMap g !! q).
Proof.
  induction m as [|[p s] m IH]; intros g; [done|].
  rewrite testStatesReceived_cons. simpl. intros H%IH.
  destruct (Js.startsWith p "_"); [done|]. by eapply node_setTestState_inv.
Qed.

Lemma node_tree_part (g g' : Goofy) (q : string) :
  tree_part g' = tree_part g →
  is_Some (pathNodeMap g' !! q) → is_Some (pathNodeMap g !! q).
Proof. unfold tree_part. by intros [= _ -> _]. Qed.

(** Only a test list adds tree nodes. *)
Lemma node_step_inv (h : string → string) (i : Input) (g : Goofy)
    (q : string) :
  is_Some (pathNodeMap (step h i g) !! q) →
  is_Some (pathNodeMap g !! q) ∨ ∃ tl, i = TestListReply tl ∧ q ∈ paths tl.
Proof.
  destruct i; simpl.
  - left. revert H. by open_goofy g.
  - left. revert H. by open_goofy g.
  - left. revert H.
    destruct message
      as [u|text|p st|p u ap html|p u args js|p u name args|u|sys|si|ty];
      simpl.
    + apply node_tree_part. case_match; [by open_goofy g|].
      rewrite tree_part_keepAlive. by open_goofy g.
    + by open_goofy g.
    + apply node_setTestState_inv.
    + apply node_tree_part, tree_part_sandbox.
    + apply node_tree_part, tree_part_sandbox.
    + apply node_tree_part, tree_part_sandbox.
    + apply node_tree_part. repeat case_match; try done.
      apply tree_part_dispose.
    + by open_goofy g.
    + apply node_tree_part, (tree_part_setPendingShutdown (Some si)).
    + done.
  - left. revert H. apply node_tree_part, tree_part_keepAlive.
  - left. revert H. unfold timerTick. repeat case_match; by open_goofy g.
  - left. revert H. apply node_tree_part, tree_part_sendEvent.
  - left. revert H. unfold promptEngineeringPassword, openDialog.
    repeat case_match; simplify_eq; by open_goofy g.
  - left. revert H. unfold passwordEntered.
    repeat case_match; by open_goofy g.
  - intros H. destruct (decide (q ∈ paths tl)) as [Hq|Hq];
      [right; by exists tl|left].
    revert H. unfold setTestList.
    pose proof (registered_addToNode_other (length (tests g)) tl q []
                  (with_tests (tests g ++ [tl]) g) Hq) as [= _ ->].
    by open_goofy g.
  - left. by eapply node_testStatesReceived_inv.
  - left. revert H. by open_goofy g.
  - left. revert H. by open_goofy g.
  - left. revert H. apply node_tree_part, tree_part_sendEvent.
  - left. revert H. by open_goofy g.
  - left. revert H. apply node_tree_part.
    destruct (Test_pass_cases a g) as [->|[ev ->]]; [done|].
    by rewrite tree_part_dispose, tree_part_sendEvent.
  - left. revert H. apply node_tree_part.
    destruct (Test_fail_cases a errorMsg g) as [->|[ev ->]]; [done|].
    by rewrite tree_part_dispose, tree_part_sendEvent.
  - left. revert H. apply node_tree_part. unfold Test_sendTestEvent.
    case_match; [|done]. apply tree_part_sendEvent.
Qed.

Lemma nodes_come_from_test_lists (h : string → string)
    (inputs : list Input) (q : string) :
  is_Some (pathNodeMap (run h inputs Goofy_new) !! q) →
  ∃ tl, TestListReply tl ∈ inputs ∧ q ∈ paths tl.
Proof.
  induction inputs as [|i l IH] using rev_ind.
  { intros [? H]. done. }
  rewrite run_snoc. intros [H|(tl & -> & Hq)]%node_step_inv.
  - destruct (IH H) as (tl & Hin & Hq). exists tl. split; [|done].
    apply elem_of_app. by left.
  - exists tl. split; [|done]. apply elem_of_app. right.
    by apply list_elem_of_singleton.
Qed.

(** X21. A state_change for a path that occurs in none of the test lists
    received so far is ignored: the controller is left exactly as it is. *)
Theorem state_change_for_unlisted_path_ignored (h : string → string)
    (inputs : list Input) (p : string) (st : TestState) :
  (∀ tl, TestListReply tl ∈ inputs → p ∉ paths tl) →
  let g := run h inputs Goofy_new in
  handleBackendEvent (StateChange p st) g = g.
Proof.
  intros Hno g. simpl. unfold setTestState.
  destruct (pathNodeMap g !! p) as [node|] eqn:En; [|done].
  destruct (nodes_come_from_test_lists h inputs p) as (tl & Hin & Hp).
  { subst g. by rewrite En. }
  by destruct (Hno tl Hin).
Qed.

Lemma state_change_for_unlisted_path_ignored_witness :
  let g := run Sha1.hex
             [TestListReply sample_list; TestStatesReply sample_states]
             Goofy_new in
  handleBackendEvent (StateChange "RUNIN" (with_status "ACTIVE")) g = g.
Proof.
  apply (state_change_for_unlisted_path_ignored Sha1.hex
           [TestListReply sample_list; TestStatesReply sample_states]
           "RUNIN" (with_status "ACTIVE")).
  intros tl [[= ->]|Hin]%elem_of_cons.
  - apply (bool_decide_unpack _). vm_compute. exact I.
  - apply elem_of_cons in Hin as [[=]|Hin]. by apply elem_of_nil in Hin.
Defined.

(** ** Counting leaves for the context menu *)

Lemma leaves_have_state_cons x l :
  leaves_have_state (x :: l)
  ↔ Forall (λ x, is_Some (state x)) (leaves x) ∧ leaves_have_state l.
Proof. unfold leaves_have_state. simpl. apply Forall_app. Qed.

Lemma countLeaves_full (t : TestListEntry) :
  ∀ c,
    (Forall (λ l, is_Some (state l)) (leaves t) →
     countLeaves t c
     = Some {| numLeaves := numLeaves c + length (leaves t);
               numLeavesByStatus :=
                 tally (leaf_statuses t) (numLeavesByStatus c);
               allPaths := allPaths c ++ paths t |})
    ∧ (¬ Forall (λ l, is_Some (state l)) (leaves t) →
       countLeaves t c = None).
Proof.
  induction t as [p le lz k l st IH] using TestListEntry_nested_ind.
  intros c.
  assert (∀ c0,
    (leaves_have_state l →
     forEach countLeaves l c0
     = Some {| numLeaves := numLeaves c0 + length (flat_map leaves l);
               numLeavesByStatus :=
                 tally (omap (λ l, status <$> state l) (flat_map leaves l))
                   (numLeavesByStatus c0);
               allPaths := allPaths c0 ++ flat_map paths l |})
    ∧ (¬ leaves_have_state l → forEach countLeaves l c0 = None)) as Hl.
  { induction IH as [|y l Hy _ IHl]; intros c0.
    - split; [|intros H; destruct H; apply Forall_nil_2].
      intros _. simpl. destruct c0; simpl.
      by rewrite Nat.add_0_r, app_nil_r.
    - cbn [forEach]. rewrite leaves_have_state_cons.
      destruct (Hy c0) as [Hy1 Hy2]. split.
      + intros [H1 H2]. rewrite (Hy1 H1).
        destruct (IHl {| numLeaves := numLeaves c0 + length (leaves y);
                    numLeavesByStatus :=
                      tally (leaf_statuses y) (numLeavesByStatus c0);
                    allPaths := allPaths c0 ++ paths y |}) as [E _].
        rewrite (E H2). simpl.
        rewrite length_app, omap_app, tally_app, Nat.add_assoc, app_assoc.
        done.
      + intros Hn.
        destruct (decide (Forall (λ l, is_Some (state l)) (leaves y)))
          as [H1|H1]; [|by rewrite (Hy2 H1)].
        rewrite (Hy1 H1).
        match goal with |- forEach _ _ ?c1 = _ =>
          destruct (IHl c1) as [_ E] end.
        apply E. tauto. }
  destruct l as [|x l].
  - (* a leaf *)
    simpl. split.
    + intros [s Hs]%Forall_singleton. simpl in Hs. subst st.
      unfold leaf_statuses. simpl. by rewrite Nat.add_1_r.
    + intros Hn. destruct st as [s|]; [|done].
      destruct Hn. apply Forall_singleton. by eexists.
  - (* a group *)
    rewrite leaves_group by done. cbn [subtests].
    cbn [countLeaves subtests path state].
    destruct (Hl {| numLeaves := numLeaves c;
                    numLeavesByStatus := numLeavesByStatus c;
                    allPaths := allPaths c ++ [p] |}) as [E1 E2].
    split.
    + intros H. rewrite (E1 H). simpl. by rewrite <- app_assoc.
    + intros H. by rewrite (E2 H).
Qed.

Lemma leaves_nonempty (t : TestListEntry) : (1 ≤ length (leaves t))%nat.
Proof.
  induction t as [p le lz k l st IH] using TestListEntry_nested_ind.
  destruct l as [|x l]; [simpl; lia|].
  rewrite leaves_group by done. simpl. rewrite length_app.
  apply Forall_cons in IH as [Hx _]. lia.
Qed.

(** X22. countLeaves on a subtree: there is always at least one leaf; the
    call fails (the TypeError on test.state.status) exactly when some leaf
    of the subtree has no state; when it returns, numLeaves has grown by the
    number of leaves, allPaths by the paths of the subtree with the root
    first, and the count of each status by the number of leaves that have
    it. *)
Theorem countLeaves_counts_or_fails (t : TestListEntry) (c : Counts) :
  (1 ≤ length (leaves t))%nat
  ∧ (countLeaves t c = None
     ↔ Exists (λ l, state l = None) (leaves t))
  ∧ (∀ c', countLeaves t c = Some c' →
       numLeaves c' = (numLeaves c + length (leaves t))%nat
       ∧ allPaths c' = allPaths c ++ paths t
       ∧ ∀ s, or0 (numLeavesByStatus c' !! s)
              = (or0 (numLeavesByStatus c !! s)
                 + count_leaves [s] t)%nat).
Proof.
  destruct (countLeaves_full t c) as [H1 H2].
  split; [apply leaves_nonempty|].
  destruct (decide (Forall (λ l, is_Some (state l)) (leaves t))) as [H|H].
  - rewrite (H1 H). split.
    + split; [done|]. intros He. apply Exists_exists in He as (l & Hl & Hn).
      rewrite Forall_forall in H. destruct (H l Hl) as [? E]. congruence.
    + intros c' [= <-]. simpl. split_and!; try done.
      intros s. rewrite tally_lookup. f_equal. unfold count_leaves.
      rewrite count_status_cons, count_status_nil;
        [|apply not_elem_of_nil|done].
      by rewrite Nat.add_0_r.
  - rewrite (H2 H). split; [|done]. split; [|done]. intros _.
    apply not_Forall_Exists in H; [|apply _].
    eapply Exists_impl; [exact H|]. simpl. intros l Hl.
    destruct (state l); [|done]. by destruct Hl.
Qed.

Lemma filter_all {A} (P : A → Prop) `{∀ x, Decision (P x)} (l : list A) :
  length (filter P l) = length l ↔ Forall P l.
Proof.
  induction l as [|x l IH]; [by split|].
  rewrite filter_cons. case_decide as Hx; simpl.
  - rewrite Forall_cons. split.
    + intros [= E]. split; [done|]. by apply IH.
    + intros [_ E]. f_equal. by apply IH.
  - pose proof (length_filter P l). split; [lia|].
    intros [? _]%Forall_cons. done.
Qed.

(** X23. For a clicked entry that has a state and all of whose leaves have
    a state, the first item of the context menu reads Run when every leaf is
    UNTESTED and Restart otherwise, followed by all when there is more than
    one leaf; it counts all the leaves, is always enabled, and sends
    goofy:restart_tests with the clicked path. *)
Theorem run_all_item (p : string) (t : TestListEntry) :
  is_Some (state t) →
  Forall (λ l, is_Some (state l)) (leaves t) →
  ∃ item rest,
    testMenu p t [] = Some (Item item :: rest)
    ∧ verbEn item
      = (if decide (Forall (λ l, has_status ["UNTESTED"] l = true) (leaves t))
         then "Run" else "Restart")
        +:+ (if decide (1 < length (leaves t))%nat then " all" else "")
    ∧ itemCount item = length (leaves t)
    ∧ enabled item = true
    ∧ handler item = ("goofy:restart_tests", Some {[ "path" := Js.Str p ]}).
Proof.
  intros [st Hs] Hst. unfold testMenu.
  destruct (countLeaves_full t
              {| numLeaves := 0; numLeavesByStatus := ∅; allPaths := [] |})
    as [E _].
  rewrite (E Hst), Hs. cbn [numLeaves numLeavesByStatus Nat.add app].
  pose proof (leaves_nonempty t) as Hn.
  eexists _, _. split; [reflexivity|]. cbn [verbEn itemCount enabled handler
    makeMenuItem].
  split_and!; try done.
  - f_equal.
    + pose proof (tally_lookup "UNTESTED" (leaf_statuses t) ∅) as Ht.
      rewrite lookup_empty in Ht. cbn [or0 default Nat.add] in Ht.
      assert (occurrences "UNTESTED" (leaf_statuses t)
              = count_leaves ["UNTESTED"] t) as Ho.
      { unfold count_leaves.
        rewrite count_status_cons, count_status_nil;
          [|apply not_elem_of_nil|done].
        by rewrite Nat.add_0_r. }
      rewrite Ho in Ht. unfold count_leaves in Ht.
      case_bool_decide as Hb; case_decide as Hd; try done.
      * rewrite Hb in Ht. simpl in Ht. symmetry in Ht.
        by apply (proj1 (filter_all _ _)) in Ht.
      * apply (proj2 (filter_all _ _)) in Hd. rewrite Hd in Ht.
        destruct (tally (leaf_statuses t) ∅ !! "UNTESTED") as [n|];
          simpl in Ht; [by subst n|lia].
    + destruct (Nat.ltb_spec 1 (length (leaves t))); case_decide; done || lia.
  - destruct (length (leaves t)); [lia|done].
Qed.

Lemma run_all_item_witness :
  ∃ item rest,
    testMenu "SMT" (default (leaf "") (test_of "SMT" sample)) []
    = Some (Item item :: rest)
    ∧ verbEn item = "Restart all"
    ∧ itemCount item = 6%nat
    ∧ enabled item = true
    ∧ handler item
      = ("goofy:restart_tests", Some {[ "path" := Js.Str "SMT" ]}).
Proof.
  assert (Forall (λ l, is_Some (state l))
            (leaves (default (leaf "") (test_of "SMT" sample)))) as Hst.
  { vm_compute. repeat constructor; eexists; reflexivity. }
  assert (is_Some (state (default (leaf "") (test_of "SMT" sample)))) as Hs.
  { vm_compute. eexists; reflexivity. }
  destruct (run_all_item "SMT" _ Hs Hst)
    as (item & rest & E & Hv & Hc & He & Hh).
  exists item, rest. split_and!.
  - exact E.
  - rewrite Hv. vm_compute. reflexivity.
  - rewrite Hc. vm_compute. reflexivity.
  - exact He.
  - exact Hh.
Defined.

(** ** Keyboard shortcuts *)

Lemma handleShortcut_cases (order : list string) (key : string)
    (g : Goofy) :
  (∃ p, shortcut_of order key g p
        ∧ handleShortcut order key g
          = sendEvent "goofy:restart_tests" (Some {[ "path" := Js.Str p ]}) g)
  ∨ ((∀ p, ¬ shortcut_of order key g p) ∧ handleShortcut order key g = g).
Proof.
  unfold shortcut_of.
  induction order as [|q rest IH]; simpl.
  { right. split; [|done]. intros p [[]%elem_of_nil _]. }
  destruct (test_of q g) as [t|] eqn:Ht.
  - destruct (shortcut_matches key t) eqn:Hm.
    + left. exists q. split; [|done]. split; [by left|]. by exists t.
    + destruct IH as [(p & [Hp Hs] & E)|[Hn E]].
      * left. exists p. split; [|done]. split; [by right|done].
      * right. split; [|done]. intros p [Hp (t' & Ht' & Hm')].
        apply elem_of_cons in Hp as [->|Hp]; [congruence|].
        apply (Hn p). split; [done|]. by exists t'.
  - destruct IH as [(p & [Hp Hs] & E)|[Hn E]].
    + left. exists p. split; [|done]. split; [by right|done].
    + right. split; [|done]. intros p [Hp (t' & Ht' & Hm')].
      apply elem_of_cons in Hp as [->|Hp]; [congruence|].
      apply (Hn p). split; [done|]. by exists t'.
Qed.

(** X24. handleShortcut sends at most one event: either goofy:restart_tests
    for a visited path whose entry has a non-empty shortcut equal to the key
    up to case, or, when there is no such path, nothing at all.  When
    exactly one path has the shortcut, the event carries that path in
    whatever order the paths are visited. *)
Theorem handleShortcut_sends_at_most_one (order : list string)
    (key : string) (g : Goofy) :
  ((∃ p, shortcut_of order key g p
         ∧ handleShortcut order key g
           = sendEvent "goofy:restart_tests"
               (Some {[ "path" := Js.Str p ]}) g)
   ∨ ((∀ p, ¬ shortcut_of order key g p) ∧ handleShortcut order key g = g))
  ∧ (∀ order' p,
       order' ≡ₚ order →
       shortcut_of order key g p →
       (∀ q, shortcut_of order key g q → q = p) →
       handleShortcut order' key g
       = sendEvent "goofy:restart_tests" (Some {[ "path" := Js.Str p ]}) g).
Proof.
  split; [apply handleShortcut_cases|].
  intros order' p Hperm Hp Huniq.
  assert (∀ q, shortcut_of order' key g q ↔ shortcut_of order key g q) as Hiff.
  { intros q. unfold shortcut_of. by rewrite Hperm. }
  destruct (handleShortcut_cases order' key g) as [(q & Hq & ->)|[Hn _]].
  - by rewrite (Huniq q (proj1 (Hiff q) Hq)).
  - destruct (Hn p). by apply Hiff.
Qed.

(** A list with the shortcut "l" on "SMT.LED" and "K" on "SMT.KBD": the
    key is compared without regard to case, and a key that is no shortcut
    sends nothing. *)
Example handleShortcut_ignores_case :
  let with_key k t :=
    mkTestListEntry (path t) (label_en t) (label_zh t) (Some k)
      (subtests t) (state t) in
  let g := setTestList
             (group "" [with_key "l" (leaf "SMT.LED");
                        with_key "K" (leaf "SMT.KBD"); leaf "FA"])
             (with_isOpen true Goofy_new) in
  let order := ["FA"; "SMT.KBD"; ""; "SMT.LED"] in
  sent (ws (handleShortcut order "L" g))
  = [{[ "path" := Js.Str "SMT.LED"; "type" := Js.Str "goofy:restart_tests" ]}]
  ∧ sent (ws (handleShortcut order "k" g))
    = [{[ "path" := Js.Str "SMT.KBD";
          "type" := Js.Str "goofy:restart_tests" ]}]
  ∧ handleShortcut order "x" g = g.
Proof. vm_compute. done. Qed.

(** ** The language classes *)

Lemma filter_id {A} (P : A → Prop) `{∀ x, Decision (P x)} (l : list A) :
  (∀ x, x ∈ l → P x) → filter P l = l.
Proof.
  induction l as [|a l IH]; intros Hl; [done|].
  rewrite filter_cons_True by (apply Hl; by left).
  f_equal. apply IH. intros x Hx. apply Hl. by right.
Qed.

Lemma enable_fixed (l : list string) (c : string) (b : bool) :
  (c ∈ l ↔ b = true) → Classes.enable l c b = l.
Proof.
  intros Hiff. unfold Classes.enable, Classes.add, Classes.contains.
  destruct b.
  - rewrite bool_decide_eq_true_2; [done|]. by apply Hiff.
  - apply filter_id. intros x Hx ->. by apply Hiff in Hx.
Qed.

(** X25. After updateLanguage the body carries goofy-lang-zh in Chinese mode
    and goofy-lang-en otherwise, never both, and every other class it had
    (the engineering-mode class among them) and no new one; nothing but the
    classes of the body changes, and calling it again changes nothing. *)
Theorem updateLanguage_sets_one_language_class (zhMode : bool) (g : Goofy)
    (c : string) :
  let g' := updateLanguage zhMode g in
  (c ∈ bodyClasses (page g')
   ↔ (c = "goofy-lang-en" ∧ zhMode = false)
     ∨ (c = "goofy-lang-zh" ∧ zhMode = true)
     ∨ (c ≠ "goofy-lang-en" ∧ c ≠ "goofy-lang-zh"
        ∧ c ∈ bodyClasses (page g)))
  ∧ with_page (with_bodyClasses (bodyClasses (page g)) (page g')) g' = g
  ∧ updateLanguage zhMode g' = g'.
Proof.
  intros g'.
  set (c1 := Classes.enable (bodyClasses (page g)) "goofy-lang-en"
               (negb zhMode)).
  set (c2 := Classes.enable c1 "goofy-lang-zh" zhMode).
  assert (bodyClasses (page g') = c2) as Hc by (by open_goofy g).
  assert (∀ x, x ∈ c2
          ↔ (x = "goofy-lang-en" ∧ zhMode = false)
            ∨ (x = "goofy-lang-zh" ∧ zhMode = true)
            ∨ (x ≠ "goofy-lang-en" ∧ x ≠ "goofy-lang-zh"
               ∧ x ∈ bodyClasses (page g))) as Hspec.
  { intros x. subst c2 c1. rewrite !enable_spec.
    destruct zhMode; simpl; split.
    - intros [[-> _]|[Hzh [[_ [=]]|[Hen Hin]]]]; tauto.
    - intros [[_ [=]]|[[-> _]|(Hen & Hzh & Hin)]]; [by left|].
      right. split; [done|]. by right.
    - intros [[_ [=]]|[Hzh [[-> _]|[Hen Hin]]]]; [by left|tauto].
    - intros [[-> _]|[[_ [=]]|(Hen & Hzh & Hin)]].
      + right. split; [done|]. by left.
      + right. split; [done|]. by right. }
  split_and!.
  - rewrite Hc. apply Hspec.
  - subst g'. unfold updateLanguage. by open_goofy g.
  - unfold updateLanguage at 1. rewrite Hc.
    assert (Classes.enable c2 "goofy-lang-en" (negb zhMode) = c2) as ->.
    { apply enable_fixed. rewrite Hspec. destruct zhMode; simpl.
      - split; [|done]. intros [[_ [=]]|[[[=] _]|(Hne & _)]]. done.
      - split; [done|]. intros _. by left. }
    assert (Classes.enable c2 "goofy-lang-zh" zhMode = c2) as ->.
    { apply enable_fixed. rewrite Hspec. destruct zhMode; simpl.
      - split; [done|]. intros _. right. by left.
      - split; [|done]. intros [[[=] _]|[[_ [=]]|(_ & Hne & _)]]. done. }
    rewrite <- Hc. by open_goofy g'.
Qed.
